(** * SIEVE cache policy (SIEVECachePolicy.h): a shallow embedding

    The class keeps four pieces of mutable state: the lookup map [cells]
    (a [std::unordered_map]), the recency [queue] (a [std::list<Key>]),
    the eviction cursor [hand] (an iterator into the queue) and the running
    byte total [current_size_in_bytes] (a [size_t]).

    - [size_t] values are integers in [0, 2^64); every [+=] and [-=] of the
      source is followed by an explicit reduction modulo 2^64 ([wrap]).
    - A [std::list] node is identified by a number handed out by an allocation
      counter; an iterator is a node, [End] (the past-the-end sentinel, which
      stays valid across insertions and erasures) or a value-initialised
      [Singular] iterator.  Erasing a node invalidates the iterators to it.
    - Using an invalidated or singular iterator (comparing, incrementing,
      dereferencing or erasing it, or doing so with [End] where the
      standard forbids it) is undefined behaviour: the model stops with
      [Undefined].  [std::terminate()] stops with [Terminates]; an exception
      that leaves [set] stops with [Throws], carrying the state left behind.
    - The calls made to the caller-supplied [on_weight_loss_function] are
      recorded, in order, in [on_weight_loss_calls]. *)

From Stdlib Require Import ZArith Lia.
From stdpp Require Import gmap list fin_maps.

Local Open Scope Z_scope.

(** ** Machine integers *)

Definition size_t_modulus : Z := 2 ^ 64.

Definition wrap (z : Z) : Z := z mod size_t_modulus.

Definition is_size_t (z : Z) : Prop := 0 <= z < size_t_modulus.

(** ** std::list<Key> and its iterators *)

Inductive iterator : Type :=
| It (node : nat)
| End
| Singular.

Global Instance iterator_eq_dec : EqDecision iterator.
Proof. solve_decision. Defined.

Section ListModel.
Context {Key : Type}.

(** The nodes of the list in order, each with its identity and its key. *)
Definition SIEVEQueue : Type := list (nat * Key).

Definition list_begin (q : SIEVEQueue) : iterator :=
  match q with
  | [] => End
  | (n, _) :: _ => It n
  end.

(** The key stored in node [n] and the iterator that follows it. *)
Fixpoint find_node (q : SIEVEQueue) (n : nat) : option (Key * iterator) :=
  match q with
  | [] => None
  | (m, k) :: q' => if decide (m = n) then Some (k, list_begin q') else find_node q' n
  end.

Fixpoint erase_node (q : SIEVEQueue) (n : nat) : SIEVEQueue :=
  match q with
  | [] => []
  | (m, k) :: q' => if decide (m = n) then q' else (m, k) :: erase_node q' n
  end.

(** An iterator that may be compared: a live node or the sentinel. *)
Definition valid_iterator (q : SIEVEQueue) (it : iterator) : bool :=
  match it with
  | It n => bool_decide (is_Some (find_node q n))
  | End => true
  | Singular => false
  end.
End ListModel.

Global Arguments SIEVEQueue : clear implicits.

(** ** Cells *)

Module Cell.
Record t (Mapped : Type) : Type := mk {
  value : option Mapped;      (* MappedPtr: [None] is the null pointer *)
  size : Z;
  visited : bool;
  queue_iterator : iterator;
}.
Global Arguments mk {Mapped}.
Global Arguments value {Mapped}.
Global Arguments size {Mapped}.
Global Arguments visited {Mapped}.
Global Arguments queue_iterator {Mapped}.

(** [Cell()] : the value-initialised cell that [cells.emplace] creates. *)
Definition empty {Mapped} : t Mapped := mk None 0 false Singular.

Definition set_visited {Mapped} (b : bool) (c : t Mapped) : t Mapped :=
  mk (value c) (size c) b (queue_iterator c).

Definition set_queue_iterator {Mapped} (it : iterator) (c : t Mapped) : t Mapped :=
  mk (value c) (size c) (visited c) it.

Definition set_value {Mapped} (v : option Mapped) (sz : Z) (c : t Mapped) : t Mapped :=
  mk v sz (visited c) (queue_iterator c).
End Cell.

(** ** The policy object *)

Record SIEVECachePolicy (Key : Type) `{Countable Key} (Mapped : Type) : Type := mkPolicy {
  queue : SIEVEQueue Key;
  hand : iterator;
  cells : gmap Key (Cell.t Mapped);
  current_size_in_bytes : Z;
  max_size_in_bytes : Z;
  max_count : Z;
  next_node : nat;                 (* identity of the next list node allocated *)
  on_weight_loss_calls : list Z;   (* arguments of the callback invocations so far *)
}.
Global Arguments mkPolicy {Key _ _ Mapped}.
Global Arguments queue {Key _ _ Mapped}.
Global Arguments hand {Key _ _ Mapped}.
Global Arguments cells {Key _ _ Mapped}.
Global Arguments current_size_in_bytes {Key _ _ Mapped}.
Global Arguments max_size_in_bytes {Key _ _ Mapped}.
Global Arguments max_count {Key _ _ Mapped}.
Global Arguments next_node {Key _ _ Mapped}.
Global Arguments on_weight_loss_calls {Key _ _ Mapped}.

(** ** How a call ends *)

Inductive outcome (S A : Type) : Type :=
| Returns (a : A)       (* the call returns normally *)
| Throws (s : S)        (* an exception propagates; [s] is the object it leaves *)
| Terminates            (* std::terminate() *)
| Undefined             (* undefined behaviour *)
| OutOfFuel.            (* the bound on loop iterations was too small;
                           [removeOverflow_total]: this never happens *)
Global Arguments Returns {S A}.
Global Arguments Throws {S A}.
Global Arguments Terminates {S A}.
Global Arguments Undefined {S A}.
Global Arguments OutOfFuel {S A}.

(** Sequencing: the first call that does not return ends the run. *)
Global Instance outcome_bind {S : Type} : MBind (outcome S) := λ A B f m,
  match m with
  | Returns a => f a
  | Throws s => Throws s
  | Terminates => Terminates
  | Undefined => Undefined
  | OutOfFuel => OutOfFuel
  end.

Section SIEVE.
Context {Key : Type} `{Countable Key} {Mapped : Type}.
Variable weight_function : Mapped → Z.

Abbreviation Policy := (SIEVECachePolicy Key Mapped).
Abbreviation Cells := (gmap Key (Cell.t Mapped)).
Abbreviation result := (outcome Policy).

(** *** Iterator operations *)

(** [a == b] *)
Definition iterator_equal (q : SIEVEQueue Key) (a b : iterator) : result bool :=
  if valid_iterator q a && valid_iterator q b then Returns (bool_decide (a = b))
  else Undefined.

(** [*it] *)
Definition dereference (q : SIEVEQueue Key) (it : iterator) : result Key :=
  match it with
  | It n => match find_node q n with Some (k, _) => Returns k | None => Undefined end
  | _ => Undefined
  end.

(** [std::next(it)], [++it] *)
Definition increment (q : SIEVEQueue Key) (it : iterator) : result iterator :=
  match it with
  | It n => match find_node q n with Some (_, nx) => Returns nx | None => Undefined end
  | _ => Undefined
  end.

(** [queue.erase(it)]: the list without the node, and the iterator after it. *)
Definition erase (q : SIEVEQueue Key) (it : iterator) : result (SIEVEQueue Key * iterator) :=
  match it with
  | It n => match find_node q n with
            | Some (_, nx) => Returns (erase_node q n, nx)
            | None => Undefined
            end
  | _ => Undefined
  end.

(** *** Constructor and accessors *)

Definition init (max_size_in_bytes_ max_count_ : Z) : Policy :=
  mkPolicy [] (list_begin (Key:=Key) []) ∅ 0 max_size_in_bytes_ max_count_ 0%nat [].

Definition sizeInBytes (s : Policy) : Z := current_size_in_bytes s.

Definition count (s : Policy) : Z := Z.of_nat (size (cells s)).

Definition maxSizeInBytes (s : Policy) : Z := max_size_in_bytes s.

Definition dump (s : Policy) : list (Key * option Mapped) :=
  (λ kc, (kc.1, Cell.value kc.2)) <$> map_to_list (cells s).

(** *** removeOverflow *)

Definition set_cells (m : Cells) (s : Policy) : Policy :=
  mkPolicy (queue s) (hand s) m (current_size_in_bytes s) (max_size_in_bytes s)
           (max_count s) (next_node s) (on_weight_loss_calls s).

Definition set_current_size (z : Z) (s : Policy) : Policy :=
  mkPolicy (queue s) (hand s) (cells s) z (max_size_in_bytes s)
           (max_count s) (next_node s) (on_weight_loss_calls s).

(** The guard of the [while] loop. *)
Definition overflow (s : Policy) (queue_size : Z) : bool :=
  ((max_size_in_bytes s <? current_size_in_bytes s)
   || (negb (max_count s =? 0) && (max_count s <? queue_size)))
  && (0 <? queue_size).

(** One iteration of the loop body, on the object and the two locals. *)
Definition removeOverflow_body (s : Policy) (current_weight_lost queue_size : Z)
  : result (Policy * Z * Z) :=
  at_end ← iterator_equal (queue s) (hand s) End ;
  let h := if at_end : bool then list_begin (queue s) else hand s in
  key ← dereference (queue s) h ;
  match cells s !! key with
  | None => Terminates
  | Some cell =>
      if negb (Cell.visited cell) then
        '(q', h') ← erase (queue s) h ;
        Returns (mkPolicy q' h' (delete key (cells s))
                          (wrap (current_size_in_bytes s - Cell.size cell))
                          (max_size_in_bytes s) (max_count s) (next_node s)
                          (on_weight_loss_calls s),
                 wrap (current_weight_lost + Cell.size cell),
                 queue_size - 1)
      else
        h' ← increment (queue s) h ;
        Returns (mkPolicy (queue s) h' (<[key := Cell.set_visited false cell]> (cells s))
                          (current_size_in_bytes s)
                          (max_size_in_bytes s) (max_count s) (next_node s)
                          (on_weight_loss_calls s),
                 current_weight_lost,
                 queue_size)
  end.

(** The [while] loop.  The source's loop carries no bound; [fuel] bounds
    the iterations here, and [removeOverflow_total] shows that the bound
    [removeOverflow] passes is never exhausted. *)
Fixpoint removeOverflow_loop (fuel : nat) (s : Policy) (current_weight_lost queue_size : Z)
  : result (Policy * Z) :=
  if overflow s queue_size then
    match fuel with
    | O => OutOfFuel
    | S fuel' =>
        '(s', lost', queue_size') ← removeOverflow_body s current_weight_lost queue_size ;
        removeOverflow_loop fuel' s' lost' queue_size'
    end
  else Returns (s, current_weight_lost).

(** Every iteration erases a cell or clears a set [visited] bit. *)
Definition visited_count (m : Cells) : nat :=
  length (filter (λ kc, Cell.visited kc.2 = true) (map_to_list m)).

Definition scan_bound (m : Cells) : nat := (size m + visited_count m)%nat.

Definition removeOverflow (s : Policy) : result Policy :=
  '(s', current_weight_lost) ←
      removeOverflow_loop (scan_bound (cells s)) s 0 (Z.of_nat (size (cells s))) ;
  let s'' := mkPolicy (queue s') (hand s') (cells s') (current_size_in_bytes s')
                      (max_size_in_bytes s') (max_count s') (next_node s')
                      (on_weight_loss_calls s' ++ [current_weight_lost]) in
  if 2 ^ 63 <? current_size_in_bytes s'' then Terminates else Returns s''.

(** *** Public operations *)

Definition setMaxCount (max_count_ : Z) (s : Policy) : result Policy :=
  removeOverflow
    (mkPolicy (queue s) (hand s) (cells s) (current_size_in_bytes s)
              (max_size_in_bytes s) max_count_ (next_node s) (on_weight_loss_calls s)).

Definition setMaxSizeInBytes (max_size_in_bytes_ : Z) (s : Policy) : result Policy :=
  removeOverflow
    (mkPolicy (queue s) (hand s) (cells s) (current_size_in_bytes s)
              max_size_in_bytes_ (max_count s) (next_node s) (on_weight_loss_calls s)).

Definition clear (s : Policy) : Policy :=
  mkPolicy [] (list_begin (Key:=Key) []) ∅ 0 (max_size_in_bytes s) (max_count s)
           (next_node s) (on_weight_loss_calls s).

Definition remove (key : Key) (s : Policy) : result Policy :=
  match cells s !! key with
  | None => Returns s
  | Some cell =>
      let size' := wrap (current_size_in_bytes s - Cell.size cell) in
      at_hand ← iterator_equal (queue s) (hand s) (Cell.queue_iterator cell) ;
      (* the conditional assigns [hand]; its second arm increments the
         iterator stored in the cell and yields the incremented iterator *)
      '(hand', cell_it) ←
        (if at_hand : bool then
           nx ← increment (queue s) (Cell.queue_iterator cell) ;
           if bool_decide (nx = End)
           then Returns (list_begin (queue s), Cell.queue_iterator cell)
           else Returns (nx, nx)
         else Returns (hand s, Cell.queue_iterator cell)) ;
      '(q', _) ← erase (queue s) cell_it ;
      Returns (mkPolicy q' hand' (delete key (cells s)) size'
                        (max_size_in_bytes s) (max_count s) (next_node s)
                        (on_weight_loss_calls s))
  end.

Definition get (key : Key) (s : Policy) : option Mapped * Policy :=
  match cells s !! key with
  | None => (None, s)
  | Some cell =>
      (Cell.value cell, set_cells (<[key := Cell.set_visited true cell]> (cells s)) s)
  end.

Definition getWithKey (key : Key) (s : Policy) : option (Key * option Mapped) * Policy :=
  match cells s !! key with
  | None => (None, s)
  | Some cell =>
      (Some (key, Cell.value cell),
       set_cells (<[key := Cell.set_visited true cell]> (cells s)) s)
  end.

(** [cell.value ? weight_function( *cell.value) : 0] *)
Definition weight_of (mapped : option Mapped) : Z :=
  match mapped with
  | Some v => weight_function v
  | None => 0
  end.

(** The first half of [set]: everything before the call of
    [removeOverflow].  [insert_succeeds] tells whether [queue.insert]
    obtains its node or throws. *)
Definition set_store (insert_succeeds : bool) (key : Key) (mapped : option Mapped)
                     (s : Policy) : result Policy :=
  '(s1, cell) ←
    match cells s !! key with
    | None =>
        (* inserted: the map now holds a value-initialised cell *)
        let s0 := set_cells (<[key := Cell.empty]> (cells s)) s in
        if insert_succeeds then
          let n := next_node s0 in
          Returns (mkPolicy (queue s0 ++ [(n, key)]) (hand s0) (cells s0)
                            (current_size_in_bytes s0) (max_size_in_bytes s0)
                            (max_count s0) (Datatypes.S n) (on_weight_loss_calls s0),
                   Cell.set_visited false (Cell.set_queue_iterator (It n) Cell.empty))
        else
          Throws (set_cells (delete key (cells s0)) s0)
    | Some cell =>
        Returns (set_current_size (wrap (current_size_in_bytes s - Cell.size cell)) s,
                 Cell.set_visited true cell)
    end ;
  let cell' := Cell.set_value mapped (weight_of mapped) cell in
  Returns (set_current_size (wrap (current_size_in_bytes s1 + Cell.size cell'))
             (set_cells (<[key := cell']> (cells s1)) s1)).

Definition set (insert_succeeds : bool) (key : Key) (mapped : option Mapped)
               (s : Policy) : result Policy :=
  s1 ← set_store insert_succeeds key mapped s ;
  removeOverflow s1.

(** *** Calls and reachable objects *)

Inductive call : Type :=
| CallSet (insert_succeeds : bool) (key : Key) (mapped : option Mapped)
| CallSetMaxCount (max_count_ : Z)
| CallSetMaxSizeInBytes (max_size_in_bytes_ : Z)
| CallRemove (key : Key)
| CallClear
| CallGet (key : Key)
| CallGetWithKey (key : Key).

Definition run_call (c : call) (s : Policy) : result Policy :=
  match c with
  | CallSet b key mapped => set b key mapped s
  | CallSetMaxCount n => setMaxCount n s
  | CallSetMaxSizeInBytes n => setMaxSizeInBytes n s
  | CallRemove key => remove key s
  | CallClear => Returns (clear s)
  | CallGet key => Returns (get key s).2
  | CallGetWithKey key => Returns (getWithKey key s).2
  end.

(** The calls that run the eviction scan, and the object on which each of
    them starts it: [set] after storing the value, the two setters after
    assigning the limit. *)
Definition runs_scan (c : call) : Prop :=
  match c with
  | CallSet _ _ _ | CallSetMaxCount _ | CallSetMaxSizeInBytes _ => True
  | _ => False
  end.

Definition before_scan (c : call) (s : Policy) : result Policy :=
  match c with
  | CallSet b key mapped => set_store b key mapped s
  | CallSetMaxCount n =>
      Returns (mkPolicy (queue s) (hand s) (cells s) (current_size_in_bytes s)
                 (max_size_in_bytes s) n (next_node s) (on_weight_loss_calls s))
  | CallSetMaxSizeInBytes n =>
      Returns (mkPolicy (queue s) (hand s) (cells s) (current_size_in_bytes s)
                 n (max_count s) (next_node s) (on_weight_loss_calls s))
  | _ => Returns s
  end.

(** The [size_t] arguments of a call are in range. *)
Definition call_well_typed (c : call) : Prop :=
  match c with
  | CallSetMaxCount n | CallSetMaxSizeInBytes n => is_size_t n
  | _ => True
  end.

Fixpoint run_calls (cs : list call) (s : Policy) : result Policy :=
  match cs with
  | [] => Returns s
  | c :: cs' => s' ← run_call c s; run_calls cs' s'
  end.

(** The objects a caller can hold: a freshly constructed one, and what a
    call that returned, or threw and was caught, leaves of a reachable one. *)
Inductive reachable : Policy → Prop :=
| reachable_init ms mc :
    is_size_t ms → is_size_t mc → reachable (init ms mc)
| reachable_returns c s s' :
    reachable s → call_well_typed c → run_call c s = Returns s' → reachable s'
| reachable_throws c s s' :
    reachable s → call_well_typed c → run_call c s = Throws s' → reachable s'.

(** *** Sums of weights *)

Definition sum_Z (l : list Z) : Z := foldr Z.add 0 l.

Definition total (m : gmap Key Z) : Z := sum_Z (map_to_list m).*2.

(** The sum of the [size] fields of the cells of a map. *)
Definition total_size (m : Cells) : Z := total (Cell.size <$> m).

(** The sum of the weights of the values of a dump. *)
Definition dump_weight (d : list (Key * option Mapped)) : Z :=
  sum_Z ((λ kv, weight_of kv.2) <$> d).

(** The cells of [before] whose key is no longer in [after]. *)
Definition evicted (before after : Cells) : Cells :=
  filter (λ kc, after !! kc.1 = None) before.

(** *** The data-model invariants of the four pieces of state *)

Definition hand_valid (s : Policy) : Prop :=
  valid_iterator (queue s) (hand s) = true.

Record consistent (s : Policy) : Prop := {
  nodes_distinct : NoDup (queue s).*1;
  queue_in_cells : ∀ n k, (n, k) ∈ queue s →
    ∃ c, cells s !! k = Some c ∧ Cell.queue_iterator c = It n;
  cells_in_queue : ∀ k c, cells s !! k = Some c →
    ∃ n, Cell.queue_iterator c = It n ∧ (n, k) ∈ queue s;
  cursor_valid : hand_valid s;
}.

(** Every node of the queue was handed out by the allocation counter. *)
Definition nodes_allocated (s : Policy) : Prop :=
  ∀ n k, (n, k) ∈ queue s → (n < next_node s)%nat.

(** The calls on which the cursor is safe: every call but a [remove] of
    the entry the cursor refers to. *)
Definition cursor_elsewhere (c : call) (s : Policy) : Prop :=
  match c with
  | CallRemove key =>
      ∀ cell, cells s !! key = Some cell → hand s ≠ Cell.queue_iterator cell
  | _ => True
  end.

(** A run of calls none of which is a [remove] of the entry under the
    cursor, each call being looked at on the object the run has reached. *)
Fixpoint cursor_elsewhere_all (cs : list call) (s : Policy) : Prop :=
  match cs with
  | [] => True
  | c :: cs' =>
      cursor_elsewhere c s
      ∧ ∀ s', run_call c s = Returns s' → cursor_elsewhere_all cs' s'
  end.

(** *** The scan, one iteration at a time *)

Implicit Types (s : SIEVECachePolicy Key Mapped) (cs : gmap Key (Cell.t Mapped)).

(** What one iteration does when it completes: it looks at one cell and
    either erases it (eviction) or clears its [visited] bit (demotion). *)
Inductive iteration s (lost qs : Z) s' (lost' qs' : Z) : Prop :=
| Evicts key cell :
    cells s !! key = Some cell →
    Cell.visited cell = false →
    cells s' = delete key (cells s) →
    current_size_in_bytes s' = wrap (current_size_in_bytes s - Cell.size cell) →
    lost' = wrap (lost + Cell.size cell) →
    qs' = qs - 1 →
    iteration s lost qs s' lost' qs'
| Demotes key cell :
    cells s !! key = Some cell →
    Cell.visited cell = true →
    cells s' = <[key := Cell.set_visited false cell]> (cells s) →
    current_size_in_bytes s' = current_size_in_bytes s →
    queue s' = queue s →
    lost' = lost →
    qs' = qs →
    iteration s lost qs s' lost' qs'.

(** *** Accounting *)

(** The running total is the sum of the stored sizes, in [size_t] arithmetic. *)
Definition accounted s : Prop :=
  current_size_in_bytes s = wrap (total_size (cells s)).

(** Every stored size is the weight of the stored value. *)
Definition sizes_are_weights s : Prop :=
  ∀ k c, cells s !! k = Some c → Cell.size c = weight_of (Cell.value c).

(** *** Capacity and exact accounting *)

Definition capacity s : Prop :=
  sizeInBytes s <= maxSizeInBytes s ∧ (0 < max_count s → count s <= max_count s).

(** No value weighs 2^63 bytes or more. *)
Definition weights_bounded : Prop := ∀ v, 0 <= weight_function v < 2 ^ 63.

(** The running total is the exact sum of the stored sizes. *)
Definition exact s : Prop := current_size_in_bytes s = total_size (cells s).

(** What holds inside a call: the sum may exceed 2^63 but has not wrapped. *)
Definition exact_in_call s : Prop :=
  sizes_are_weights s ∧ exact s ∧ total_size (cells s) < 2 ^ 64.

(** What holds between calls. *)
Definition exact_between_calls s : Prop :=
  sizes_are_weights s ∧ exact s ∧ total_size (cells s) <= 2 ^ 63
  ∧ 0 <= max_size_in_bytes s ∧ capacity s.

(** *** What the scan keeps *)

(** [cs'] holds some of the cells of [cs], with the sizes they had. *)
Definition kept (cs cs' : gmap Key (Cell.t Mapped)) : Prop :=
  ∀ k c', cs' !! k = Some c' →
    ∃ c, cs !! k = Some c
         ∧ Cell.value c' = Cell.value c
         ∧ Cell.size c' = Cell.size c
         ∧ Cell.queue_iterator c' = Cell.queue_iterator c
         ∧ (Cell.visited c' = true → Cell.visited c = true).

(** *** Objects on which every call returns *)

(** A call sets no byte limit above 2^63, the bound that [removeOverflow]
    enforces on the total. *)
Definition limit_bounded (c : call) : Prop :=
  match c with
  | CallSetMaxSizeInBytes n => n <= 2 ^ 63
  | _ => True
  end.

Definition healthy s : Prop :=
  consistent s ∧ nodes_allocated s ∧ exact_between_calls s
  ∧ max_size_in_bytes s <= 2 ^ 63.

(** *** What a call adds to the total before its scan *)

(** The [size] field stored for [key], 0 when there is none. *)
Definition stored_size (key : Key) s : Z :=
  match cells s !! key with
  | Some cell => Cell.size cell
  | None => 0
  end.

Definition stored_by (c : call) s : Z :=
  match c with
  | CallSet _ key mapped => weight_of mapped - stored_size key s
  | _ => 0
  end.

(** *** The entries the scan passes over *)

(** The cells of [ks] with their [visited] bits cleared. *)
Fixpoint demote (ks : list Key) (m : Cells) : Cells :=
  match ks with
  | [] => m
  | k :: ks' => demote ks' (alter (Cell.set_visited false) k m)
  end.

End SIEVE.

Global Arguments call : clear implicits.

(** ** Instances used in the examples *)

(** Modelled from the spec: [EqualWeightFunction] is declared in
    ICachePolicy.h, which is not among the sources; the spec's scenarios
    take it to weigh every value 1. *)
Definition EqualWeightFunction {Mapped : Type} (v : Mapped) : Z := 1.

(** A weight function that reads the weight off the value. *)
Definition stored_weight (v : Z) : Z := wrap v.

(** The object a run of calls returns ([d] when it does not return). *)
Definition returned {Key : Type} `{Countable Key} {Mapped : Type}
    (d : SIEVECachePolicy Key Mapped)
    (r : outcome (SIEVECachePolicy Key Mapped) (SIEVECachePolicy Key Mapped))
  : SIEVECachePolicy Key Mapped :=
  match r with
  | Returns s => s
  | _ => d
  end.

(** Two slots, keys 1 and 2 stored, key 1 read: the cache just before the
    third insertion of the two-slot scenario. *)
Definition two_slots_full : SIEVECachePolicy nat Z :=
  returned (init 100 2)
    (run_calls EqualWeightFunction
       [CallSet true 1%nat (Some 7); CallSet true 2%nat (Some 7); CallGet 1%nat]
       (init 100 2)).

(** ... and just after it. *)
Definition two_slots_after : SIEVECachePolicy nat Z :=
  returned two_slots_full
    (set EqualWeightFunction true 3%nat (Some 9) two_slots_full).

(** The two-slot cache inside the third insertion: key 3 is stored and the
    scan has not run yet. *)
Definition two_slots_overfull : SIEVECachePolicy nat Z :=
  returned two_slots_full
    (set_store EqualWeightFunction true 3%nat (Some 9) two_slots_full).

(** Two slots, keys 1 and 2 stored and both read. *)
Definition two_slots_read : SIEVECachePolicy nat Z :=
  returned (init 100 2)
    (run_calls EqualWeightFunction
       [CallSet true 1%nat (Some 7); CallSet true 2%nat (Some 7);
        CallGet 1%nat; CallGet 2%nat]
       (init 100 2)).

(** ... inside [setMaxCount(1)]: the limit is stored and the scan has not
    run yet. *)
Definition two_slots_read_shrinking : SIEVECachePolicy nat Z :=
  mkPolicy (queue two_slots_read) (hand two_slots_read) (cells two_slots_read)
           (current_size_in_bytes two_slots_read) (max_size_in_bytes two_slots_read)
           1 (next_node two_slots_read) (on_weight_loss_calls two_slots_read).

(** One slot; key 2 has replaced key 1 and has been removed while the
    cursor referred to its node. *)
Definition dangling : SIEVECachePolicy nat Z :=
  returned (init 100 1)
    (run_calls EqualWeightFunction
       [CallSet true 1%nat (Some 7); CallSet true 2%nat (Some 7); CallRemove 2%nat]
       (init 100 1)).

(** A weight function that reads the weight off the value, between 0 and
    2^62. *)
Definition capped_weight (v : Z) : Z := Z.max 0 (Z.min v (2 ^ 62)).

(** A cache holding key 1 with a null value. *)
Definition holds_null : SIEVECachePolicy nat Z :=
  returned (init 100 0)
    (set EqualWeightFunction true 1%nat None (init 100 0)).

(** ** Proof automation *)

(** Lookups in maps built from inserts and deletes with distinct keys. *)
Ltac lookup_insert :=
  repeat first [rewrite lookup_insert_eq
               |rewrite lookup_insert_ne by done
               |rewrite lookup_delete_eq
               |rewrite lookup_delete_ne by done
               |rewrite lookup_singleton_eq
               |rewrite lookup_singleton_ne by done
               |rewrite lookup_empty].

(** * Properties *)

(** ** Arithmetic modulo 2^64 *)

Lemma wrap_add_l a b : wrap (wrap a + b) = wrap (a + b).
Proof. unfold wrap, size_t_modulus. apply Z.add_mod_idemp_l. lia. Qed.

Lemma wrap_sub_l a b : wrap (wrap a - b) = wrap (a - b).
Proof. unfold wrap, size_t_modulus. apply Zminus_mod_idemp_l. Qed.

Lemma wrap_small z : is_size_t z → wrap z = z.
Proof. unfold wrap, is_size_t. intros Hz. apply Z.mod_small. exact Hz. Qed.

Lemma wrap_0 : wrap 0 = 0.
Proof. reflexivity. Qed.

Lemma wrap_add_r a b : wrap (a + wrap b) = wrap (a + b).
Proof. unfold wrap. by rewrite Zplus_mod_idemp_r. Qed.

Lemma wrap_range z : is_size_t (wrap z).
Proof. unfold is_size_t, wrap, size_t_modulus. apply Z.mod_pos_bound. lia. Qed.

(** ** Sums over the cells *)

Section Totals.
Context {Key : Type} `{Countable Key} {Mapped : Type}.
Implicit Types (m : gmap Key Z) (cs : gmap Key (Cell.t Mapped)).

Lemma sum_Z_perm (l l' : list Z) : l ≡ₚ l' → sum_Z l = sum_Z l'.
Proof.
  induction 1 as [|x l l' _ IH|x y l|l l' l'' _ IH1 _ IH2]; simpl; lia.
Qed.

Lemma total_empty : total (∅ : gmap Key Z) = 0.
Proof. unfold total. by rewrite map_to_list_empty. Qed.

Lemma total_insert m k z : m !! k = None → total (<[k:=z]> m) = z + total m.
Proof.
  intros Hk. unfold total.
  rewrite (sum_Z_perm _ (((k, z) :: map_to_list m).*2)); [done|].
  by rewrite map_to_list_insert.
Qed.

Lemma total_delete m k z : m !! k = Some z → total (delete k m) = total m - z.
Proof.
  intros Hk. rewrite <- (insert_delete_id m k z Hk) at 2.
  rewrite total_insert by apply lookup_delete_eq. lia.
Qed.

Lemma total_overwrite m k z z' :
  m !! k = Some z → total (<[k:=z']> m) = total m - z + z'.
Proof.
  intros Hk. rewrite <- insert_delete_eq.
  rewrite total_insert by apply lookup_delete_eq.
  rewrite (total_delete m k z Hk). lia.
Qed.

Lemma total_size_empty : total_size (∅ : gmap Key (Cell.t Mapped)) = 0.
Proof. unfold total_size. rewrite fmap_empty. apply total_empty. Qed.

Lemma wrap_total_size_empty : wrap (total_size (∅ : gmap Key (Cell.t Mapped))) = 0.
Proof. by rewrite total_size_empty. Qed.

Lemma total_size_insert cs k c :
  cs !! k = None → total_size (<[k:=c]> cs) = Cell.size c + total_size cs.
Proof.
  intros Hk. unfold total_size. rewrite fmap_insert.
  apply total_insert. by rewrite lookup_fmap, Hk.
Qed.

Lemma total_size_delete cs k c :
  cs !! k = Some c → total_size (delete k cs) = total_size cs - Cell.size c.
Proof.
  intros Hk. unfold total_size. rewrite fmap_delete.
  apply total_delete. by rewrite lookup_fmap, Hk.
Qed.

Lemma total_size_overwrite cs k c c' :
  cs !! k = Some c →
  total_size (<[k:=c']> cs) = total_size cs - Cell.size c + Cell.size c'.
Proof.
  intros Hk. unfold total_size. rewrite fmap_insert.
  apply total_overwrite. by rewrite lookup_fmap, Hk.
Qed.

Lemma total_size_set_visited cs k c b :
  cs !! k = Some c → total_size (<[k:=Cell.set_visited b c]> cs) = total_size cs.
Proof. intros Hk. rewrite (total_size_overwrite cs k c) by done. simpl. lia. Qed.

(** Sizes are weights of values, so nothing is negative. *)
Lemma total_nonneg m : (∀ k z, m !! k = Some z → 0 <= z) → 0 <= total m.
Proof.
  induction m as [|k z m Hk _ IH] using map_first_key_ind; intros Hm.
  - by rewrite total_empty.
  - rewrite total_insert by done.
    assert (0 <= z) by (apply (Hm k); apply lookup_insert_eq).
    assert (0 <= total m); [|lia].
    apply IH. intros k' z' Hk'. apply (Hm k').
    rewrite lookup_insert_ne; [done|]. intros ->. congruence.
Qed.

Lemma total_lookup_le m k z :
  (∀ k z, m !! k = Some z → 0 <= z) → m !! k = Some z → z <= total m.
Proof.
  intros Hm Hk. pose proof (total_delete m k z Hk) as Hd.
  assert (0 <= total (delete k m)); [|lia].
  apply total_nonneg. intros k' z' Hk'. apply (Hm k').
  apply lookup_delete_Some in Hk'. tauto.
Qed.
End Totals.

(** ** The eviction scan *)

Section Scan.
Context {Key : Type} `{Countable Key} {Mapped : Type}.
Implicit Types (s : SIEVECachePolicy Key Mapped) (cs : gmap Key (Cell.t Mapped)).

Lemma removeOverflow_body_inv s lost qs s' lost' qs' :
  removeOverflow_body s lost qs = Returns (s', lost', qs') →
  iteration s lost qs s' lost' qs'
  ∧ max_size_in_bytes s' = max_size_in_bytes s
  ∧ max_count s' = max_count s
  ∧ next_node s' = next_node s
  ∧ on_weight_loss_calls s' = on_weight_loss_calls s.
Proof.
  unfold removeOverflow_body.
  destruct (iterator_equal (queue s) (hand s) End) as [at_end| | | |]; try discriminate.
  cbn.
  destruct (dereference _ _) as [key| | | |]; try discriminate. cbn.
  destruct (cells s !! key) as [cell|] eqn:Hcell; try discriminate.
  destruct (Cell.visited cell) eqn:Hv; cbn.
  - destruct (increment _ _) as [h'| | | |]; try discriminate. cbn.
    intros [= <- <- <-]. split; [|done].
    by eapply Demotes.
  - destruct (erase _ _) as [[q' h']| | | |]; try discriminate. cbn.
    intros [= <- <- <-]. split; [|done].
    by eapply Evicts.
Qed.

(** Invariants of the loop are invariants of its iterations. *)
Lemma removeOverflow_loop_ind (P : SIEVECachePolicy Key Mapped → Z → Z → Prop) :
  (∀ s lost qs s' lost' qs',
      overflow s qs = true → P s lost qs →
      removeOverflow_body s lost qs = Returns (s', lost', qs') →
      P s' lost' qs') →
  ∀ fuel s lost qs s' lost',
    P s lost qs →
    removeOverflow_loop fuel s lost qs = Returns (s', lost') →
    ∃ qs', P s' lost' qs' ∧ overflow s' qs' = false.
Proof.
  intros Hstep fuel.
  induction fuel as [|fuel IH]; intros s lost qs s' lost' HP; simpl;
    destruct (overflow s qs) eqn:Hov; try discriminate.
  - intros [= <- <-]. eauto.
  - destruct (removeOverflow_body s lost qs) as [[[s1 lost1] qs1]| | | |] eqn:Hbody;
      try discriminate.
    cbn. intros Hloop. eapply IH; [|exact Hloop]. eauto.
  - intros [= <- <-]. eauto.
Qed.

(** *** Termination: the bound on the iterations is never reached *)

Lemma visited_count_delete cs k c :
  cs !! k = Some c →
  visited_count cs = ((if Cell.visited c then 1 else 0) + visited_count (delete k cs))%nat.
Proof.
  intros Hk. unfold visited_count.
  rewrite <- (map_to_list_delete cs k c Hk).
  rewrite filter_cons. simpl.
  destruct (Cell.visited c); by case_decide.
Qed.

Lemma scan_bound_evict cs k c :
  cs !! k = Some c → Cell.visited c = false →
  (scan_bound (delete k cs) < scan_bound cs)%nat.
Proof.
  intros Hk Hv. unfold scan_bound.
  rewrite (visited_count_delete cs k c Hk), Hv.
  rewrite map_size_delete_Some by eauto.
  assert (size cs ≠ 0%nat); [|lia].
  apply map_size_non_empty_iff. intros ->. by rewrite lookup_empty in Hk.
Qed.

Lemma scan_bound_demote cs k c :
  cs !! k = Some c → Cell.visited c = true →
  (scan_bound (<[k := Cell.set_visited false c]> cs) < scan_bound cs)%nat.
Proof.
  intros Hk Hv. unfold scan_bound.
  rewrite map_size_insert_Some by eauto.
  rewrite (visited_count_delete cs k c Hk), Hv.
  rewrite (visited_count_delete (<[k := Cell.set_visited false c]> cs) k
             (Cell.set_visited false c)) by apply lookup_insert_eq.
  rewrite delete_insert_eq. simpl. lia.
Qed.

Lemma iteration_scan_bound s lost qs s' lost' qs' :
  iteration s lost qs s' lost' qs' →
  qs = Z.of_nat (size (cells s)) →
  (scan_bound (cells s') < scan_bound (cells s))%nat
  ∧ qs' = Z.of_nat (size (cells s')).
Proof.
  intros [key cell Hc Hv -> _ _ ->|key cell Hc Hv -> _ _ _ ->] ->.
  - split; [by eapply scan_bound_evict|].
    rewrite map_size_delete_Some by eauto.
    assert (size (cells s) ≠ 0%nat); [|lia].
    apply map_size_non_empty_iff. intros Hm. by rewrite Hm, lookup_empty in Hc.
  - split; [by eapply scan_bound_demote|].
    by rewrite map_size_insert_Some by eauto.
Qed.

Lemma removeOverflow_body_fuel s lost qs :
  removeOverflow_body s lost qs ≠ OutOfFuel.
Proof.
  unfold removeOverflow_body, iterator_equal, dereference, increment, erase.
  repeat (case_match; cbn; try done).
Qed.

Lemma removeOverflow_loop_fuel fuel s lost qs :
  qs = Z.of_nat (size (cells s)) →
  (scan_bound (cells s) <= fuel)%nat →
  removeOverflow_loop fuel s lost qs ≠ OutOfFuel.
Proof.
  revert s lost qs. induction fuel as [|fuel IH]; intros s lost qs Hqs Hfuel; simpl;
    destruct (overflow s qs) eqn:Hov; try done.
  - exfalso. unfold overflow in Hov. apply andb_true_iff in Hov as [_ Hpos].
    apply Z.ltb_lt in Hpos. unfold scan_bound in Hfuel. lia.
  - destruct (removeOverflow_body s lost qs) as [[[s1 lost1] qs1]| | | |] eqn:Hbody;
      try done; [|by apply removeOverflow_body_fuel in Hbody].
    cbn. apply removeOverflow_body_inv in Hbody as [Hit _].
    destruct (iteration_scan_bound _ _ _ _ _ _ Hit Hqs) as [Hlt Hqs1].
    apply IH; [done|lia].
Qed.

(** [removeOverflow] itself never runs out of iterations. *)
Lemma removeOverflow_total s : removeOverflow s ≠ OutOfFuel.
Proof.
  unfold removeOverflow.
  pose proof (removeOverflow_loop_fuel (scan_bound (cells s)) s 0
                (Z.of_nat (size (cells s))) eq_refl (le_n _)) as Hfuel.
  destruct (removeOverflow_loop _ _ _ _) as [[s' lost]| | | |]; try done.
  cbn. by destruct (_ <? _).
Qed.
End Scan.

(** ** What the operations do to the object *)

Section Operations.
Context {Key : Type} `{Countable Key} {Mapped : Type}.
Variable weight_function : Mapped → Z.
Implicit Types (s : SIEVECachePolicy Key Mapped) (cs : gmap Key (Cell.t Mapped)).

(** The first half of [set], when it completes: a fresh key gets a new
    queue node and an unvisited cell; a stored key keeps its node and its
    cell is marked visited. *)
Lemma set_store_returns b key mapped s s1 :
  set_store weight_function b key mapped s = Returns s1 →
  (cells s !! key = None ∧ b = true ∧
   s1 = mkPolicy (queue s ++ [(next_node s, key)]) (hand s)
          (<[key := Cell.mk mapped (weight_of weight_function mapped) false
                      (It (next_node s))]> (cells s))
          (wrap (current_size_in_bytes s + weight_of weight_function mapped))
          (max_size_in_bytes s) (max_count s) (S (next_node s))
          (on_weight_loss_calls s))
  ∨ (∃ cell, cells s !! key = Some cell ∧
     s1 = mkPolicy (queue s) (hand s)
            (<[key := Cell.mk mapped (weight_of weight_function mapped) true
                        (Cell.queue_iterator cell)]> (cells s))
            (wrap (wrap (current_size_in_bytes s - Cell.size cell)
                   + weight_of weight_function mapped))
            (max_size_in_bytes s) (max_count s) (next_node s)
            (on_weight_loss_calls s)).
Proof.
  unfold set_store. destruct (cells s !! key) as [cell|] eqn:Hk; cbn.
  - intros [= <-]. right. exists cell. done.
  - destruct b; cbn; [|discriminate]. intros [= <-]. left.
    split; [done|]. split; [done|].
    unfold set_current_size, set_cells; cbn. f_equal. apply insert_insert_eq.
Qed.

(** [set] throws only when the queue node of a fresh key cannot be
    obtained, and then leaves the object as it found it. *)
Lemma set_store_throws b key mapped s s' :
  set_store weight_function b key mapped s = Throws s' →
  cells s !! key = None ∧ b = false ∧ s' = s.
Proof.
  unfold set_store. destruct (cells s !! key) as [cell|] eqn:Hk; cbn; [discriminate|].
  destruct b; cbn; [discriminate|]. intros [= <-].
  split; [done|]. split; [done|]. unfold set_cells; cbn.
  rewrite delete_insert_id by done. by destruct s.
Qed.

Lemma removeOverflow_returns s s' :
  removeOverflow s = Returns s' →
  ∃ s1 lost,
    removeOverflow_loop (scan_bound (cells s)) s 0 (Z.of_nat (size (cells s)))
      = Returns (s1, lost)
    ∧ s' = mkPolicy (queue s1) (hand s1) (cells s1) (current_size_in_bytes s1)
             (max_size_in_bytes s1) (max_count s1) (next_node s1)
             (on_weight_loss_calls s1 ++ [lost])
    ∧ current_size_in_bytes s1 <= 2 ^ 63.
Proof.
  unfold removeOverflow.
  destruct (removeOverflow_loop _ _ _ _) as [[s1 lost]| | | |]; try discriminate.
  cbn. destruct (2 ^ 63 <? current_size_in_bytes s1) eqn:Hchk; [discriminate|].
  intros [= <-]. exists s1, lost. split; [done|]. split; [done|].
  by apply Z.ltb_ge in Hchk.
Qed.

Lemma removeOverflow_body_never_throws s lost qs s' :
  removeOverflow_body s lost qs ≠ Throws s'.
Proof.
  unfold removeOverflow_body, iterator_equal, dereference, increment, erase.
  repeat (case_match; cbn; try done).
Qed.

Lemma removeOverflow_loop_never_throws fuel s lost qs s' :
  removeOverflow_loop fuel s lost qs ≠ Throws s'.
Proof.
  revert s lost qs. induction fuel as [|fuel IH]; intros s lost qs; simpl;
    destruct (overflow s qs); try done.
  destruct (removeOverflow_body s lost qs) as [[[s1 lost1] qs1]|s2| | |] eqn:Hbody;
    cbn; try done.
  by apply removeOverflow_body_never_throws in Hbody.
Qed.

Lemma removeOverflow_never_throws s s' : removeOverflow s ≠ Throws s'.
Proof.
  unfold removeOverflow.
  destruct (removeOverflow_loop _ _ _ _) as [[s1 lost]|s2| | |] eqn:Hloop; try done.
  - cbn. by destruct (_ <? _).
  - by apply removeOverflow_loop_never_throws in Hloop.
Qed.

Lemma set_returns b key mapped s s' :
  set weight_function b key mapped s = Returns s' →
  ∃ s1, set_store weight_function b key mapped s = Returns s1
        ∧ removeOverflow s1 = Returns s'.
Proof.
  unfold set. destruct (set_store _ _ _ _ _) as [s1| | | |]; try discriminate.
  cbn. eauto.
Qed.

Lemma set_throws b key mapped s s' :
  set weight_function b key mapped s = Throws s' →
  cells s !! key = None ∧ b = false ∧ s' = s.
Proof.
  unfold set. destruct (set_store _ _ _ _ _) as [s1| | | |] eqn:Hst; cbn; try discriminate.
  - intros Hro. by apply removeOverflow_never_throws in Hro.
  - intros [= <-]. by apply set_store_throws in Hst.
Qed.

(** [remove], when it returns, has erased the cell of the key and taken
    its size off the total. *)
Lemma remove_returns key s s' :
  remove key s = Returns s' →
  (cells s !! key = None ∧ s' = s)
  ∨ (∃ cell, cells s !! key = Some cell
     ∧ cells s' = delete key (cells s)
     ∧ current_size_in_bytes s' = wrap (current_size_in_bytes s - Cell.size cell)
     ∧ max_size_in_bytes s' = max_size_in_bytes s
     ∧ max_count s' = max_count s
     ∧ on_weight_loss_calls s' = on_weight_loss_calls s).
Proof.
  unfold remove. destruct (cells s !! key) as [cell|] eqn:Hk.
  - destruct (iterator_equal _ _ _) as [at_hand| | | |]; try discriminate. cbn.
    match goal with |- context [mbind _ ?m] => destruct m as [[h' it']| | | |] end;
      try discriminate.
    cbn. destruct (erase _ _) as [[q' ?]| | | |]; try discriminate. cbn.
    intros [= <-]. right. exists cell. done.
  - intros [= <-]. by left.
Qed.

Lemma remove_never_throws key s s' : remove key s ≠ Throws s'.
Proof.
  unfold remove, iterator_equal, increment, erase.
  repeat (case_match; cbn; try done).
Qed.

(** No call ever exhausts the bound on the scan: every call returns,
    throws, terminates the process or has undefined behaviour, as the
    source does. *)
Lemma run_call_total c s : run_call weight_function c s ≠ OutOfFuel.
Proof.
  destruct c as [b key mapped|n|n|key| |key|key]; simpl; try done.
  - unfold set.
    destruct (set_store weight_function b key mapped s) as [s1| | | |] eqn:Hst;
      cbn; try done.
    + apply removeOverflow_total.
    + revert Hst. unfold set_store. repeat (case_match; cbn; try done).
  - apply removeOverflow_total.
  - apply removeOverflow_total.
  - unfold remove, iterator_equal, increment, erase.
    repeat (case_match; cbn; try done).
Qed.
End Operations.

(** ** Accounting *)

Section Accounting.
Context {Key : Type} `{Countable Key} {Mapped : Type}.
Variable weight_function : Mapped → Z.
Implicit Types (s : SIEVECachePolicy Key Mapped) (cs : gmap Key (Cell.t Mapped)).

(** The scan leaves the limits, the allocator and the callback alone, and
    its local [queue_size] follows [cells.size()]. *)
Lemma removeOverflow_loop_exit fuel s lost s' lost' :
  removeOverflow_loop fuel s lost (Z.of_nat (size (cells s))) = Returns (s', lost') →
  overflow s' (Z.of_nat (size (cells s'))) = false
  ∧ max_size_in_bytes s' = max_size_in_bytes s
  ∧ max_count s' = max_count s
  ∧ next_node s' = next_node s
  ∧ on_weight_loss_calls s' = on_weight_loss_calls s.
Proof.
  intros Hloop.
  pose (P := λ (s1 : SIEVECachePolicy Key Mapped) (_ qs1 : Z),
               qs1 = Z.of_nat (size (cells s1))
               ∧ max_size_in_bytes s1 = max_size_in_bytes s
               ∧ max_count s1 = max_count s
               ∧ next_node s1 = next_node s
               ∧ on_weight_loss_calls s1 = on_weight_loss_calls s).
  assert (P s lost (Z.of_nat (size (cells s)))) as HP by done.
  destruct (removeOverflow_loop_ind P) with (2 := HP) (3 := Hloop)
    as (qs' & (-> & Hrest) & Hov); [|done].
  intros s1 lost1 qs1 s2 lost2 qs2 _ (Hqs & ? & ? & ? & ?) Hbody.
  apply removeOverflow_body_inv in Hbody as (Hit & ? & ? & ? & ?).
  apply iteration_scan_bound in Hit as [_ ?]; [|done].
  unfold P. repeat split; congruence.
Qed.

Lemma iteration_accounted s lost qs s' lost' qs' :
  iteration s lost qs s' lost' qs' → accounted s → accounted s'.
Proof.
  unfold accounted.
  intros [key cell Hc _ -> -> _ _|key cell Hc _ -> -> _ _ _] ->.
  - rewrite wrap_sub_l. by rewrite (total_size_delete _ _ _ Hc).
  - by rewrite (total_size_set_visited _ _ _ _ Hc).
Qed.

Lemma iteration_sizes_are_weights s lost qs s' lost' qs' :
  iteration s lost qs s' lost' qs' → sizes_are_weights weight_function s → sizes_are_weights weight_function s'.
Proof.
  unfold sizes_are_weights.
  intros [key cell Hc _ -> _ _ _|key cell Hc _ -> _ _ _ _] Hs k c.
  - intros [_ Hk]%lookup_delete_Some. eauto.
  - destruct (decide (key = k)) as [->|Hne].
    + rewrite lookup_insert_eq. intros [= <-]. simpl. eauto.
    + rewrite lookup_insert_ne by done. eauto.
Qed.

Lemma removeOverflow_loop_accounted fuel s lost qs s' lost' :
  removeOverflow_loop fuel s lost qs = Returns (s', lost') →
  accounted s ∧ sizes_are_weights weight_function s → accounted s' ∧ sizes_are_weights weight_function s'.
Proof.
  intros Hloop Hs.
  destruct (removeOverflow_loop_ind (λ s1 _ _, accounted s1 ∧ sizes_are_weights weight_function s1))
    with (2 := Hs) (3 := Hloop) as (_ & ? & _); [|done].
  intros s1 lost1 qs1 s2 lost2 qs2 _ [? ?] Hbody.
  apply removeOverflow_body_inv in Hbody as (Hit & _).
  eauto using iteration_accounted, iteration_sizes_are_weights.
Qed.

Lemma removeOverflow_accounted s s' :
  removeOverflow s = Returns s' →
  accounted s ∧ sizes_are_weights weight_function s → accounted s' ∧ sizes_are_weights weight_function s'.
Proof.
  intros (s1 & lost & Hloop & -> & _)%removeOverflow_returns Hs.
  by apply removeOverflow_loop_accounted in Hloop.
Qed.

Lemma set_store_accounted b key mapped s s1 :
  set_store weight_function b key mapped s = Returns s1 →
  accounted s ∧ sizes_are_weights weight_function s → accounted s1 ∧ sizes_are_weights weight_function s1.
Proof.
  unfold accounted, sizes_are_weights.
  intros [(Hk & _ & ->)|(cell & Hk & ->)]%set_store_returns [Hacc Hsz]; cbn; split.
  - rewrite total_size_insert by done. cbn.
    rewrite Hacc, wrap_add_l. f_equal. lia.
  - intros k c. destruct (decide (key = k)) as [->|Hne].
    + rewrite lookup_insert_eq. by intros [= <-].
    + rewrite lookup_insert_ne by done. eauto.
  - rewrite (total_size_overwrite _ _ _ _ Hk). cbn.
    rewrite Hacc, wrap_sub_l, wrap_add_l. done.
  - intros k c. destruct (decide (key = k)) as [->|Hne].
    + rewrite lookup_insert_eq. by intros [= <-].
    + rewrite lookup_insert_ne by done. eauto.
Qed.

Lemma remove_accounted key s s' :
  remove key s = Returns s' →
  accounted s ∧ sizes_are_weights weight_function s → accounted s' ∧ sizes_are_weights weight_function s'.
Proof.
  unfold accounted, sizes_are_weights.
  intros [[_ ->]|(cell & Hk & Hcells & Hsize & _)]%remove_returns [Hacc Hsz]; [done|].
  rewrite Hcells, Hsize. split.
  - rewrite Hacc, wrap_sub_l. by rewrite (total_size_delete _ _ _ Hk).
  - intros k c [_ ?]%lookup_delete_Some. eauto.
Qed.

Lemma get_accounted key s :
  accounted s ∧ sizes_are_weights weight_function s →
  accounted (get key s).2 ∧ sizes_are_weights weight_function (get key s).2.
Proof.
  unfold accounted, sizes_are_weights, get.
  destruct (cells s !! key) as [cell|] eqn:Hk; [|done]. cbn.
  intros [Hacc Hsz]. split.
  - by rewrite (total_size_set_visited _ _ _ _ Hk).
  - intros k c. destruct (decide (key = k)) as [->|Hne].
    + rewrite lookup_insert_eq. intros [= <-]. cbn. eauto.
    + rewrite lookup_insert_ne by done. eauto.
Qed.

Lemma getWithKey_state key s : (getWithKey key s).2 = (get key s).2.
Proof. unfold getWithKey, get. by destruct (cells s !! key). Qed.

Lemma run_call_accounted c s s' :
  run_call weight_function c s = Returns s' →
  accounted s ∧ sizes_are_weights weight_function s → accounted s' ∧ sizes_are_weights weight_function s'.
Proof.
  destruct c as [b key mapped|n|n|key| |key|key]; cbn.
  - intros (s1 & Hst & Hro)%set_returns Hs.
    eauto using removeOverflow_accounted, set_store_accounted.
  - intros Hro Hs. eapply removeOverflow_accounted; [exact Hro|exact Hs].
  - intros Hro Hs. eapply removeOverflow_accounted; [exact Hro|exact Hs].
  - apply remove_accounted.
  - intros [= <-] _. split; [|done].
    unfold accounted. cbn. symmetry. apply wrap_total_size_empty.
  - intros [= <-]. apply get_accounted.
  - intros [= <-]. rewrite getWithKey_state. apply get_accounted.
Qed.

Lemma run_call_throws c s s' :
  run_call weight_function c s = Throws s' → s' = s.
Proof.
  destruct c as [b key mapped|n|n|key| |key|key]; cbn; try discriminate.
  - by intros (_ & _ & ->)%set_throws.
  - intros Hro. by apply removeOverflow_never_throws in Hro.
  - intros Hro. by apply removeOverflow_never_throws in Hro.
  - intros Hrm. by apply remove_never_throws in Hrm.
Qed.

Lemma reachable_accounted s :
  reachable weight_function s → accounted s ∧ sizes_are_weights weight_function s.
Proof.
  induction 1 as [ms mc _ _|c s s' _ IH _ Hrun|c s s' _ IH _ Hrun].
  - split; [|done]. unfold accounted. cbn. symmetry. apply wrap_total_size_empty.
  - by eapply run_call_accounted.
  - by apply run_call_throws in Hrun as ->.
Qed.

(** The weights of the dumped values add up to the stored sizes. *)
Lemma dump_weight_total_size s :
  sizes_are_weights weight_function s → dump_weight weight_function (dump s) = total_size (cells s).
Proof.
  intros Hsz. unfold dump_weight, dump, total_size, total.
  rewrite map_to_list_fmap, <- !list_fmap_compose. f_equal.
  apply Forall_fmap_ext, Forall_forall.
  intros [k c] Hkc%elem_of_map_to_list. cbn. symmetry. eauto.
Qed.
End Accounting.

(** ** Capacity *)

Section Capacity.
Context {Key : Type} `{Countable Key} {Mapped : Type}.
Variable weight_function : Mapped → Z.
Implicit Types (s : SIEVECachePolicy Key Mapped) (cs : gmap Key (Cell.t Mapped)).

Hypothesis weight_bound : weights_bounded weight_function.

Lemma weight_of_bounded mapped : 0 <= weight_of weight_function mapped < 2 ^ 63.
Proof. destruct mapped as [v|]; cbn; [apply weight_bound|lia]. Qed.

Lemma sizes_nonneg s :
  sizes_are_weights weight_function s →
  ∀ k z, (Cell.size <$> cells s) !! k = Some z → 0 <= z.
Proof.
  intros Hsz k z. rewrite lookup_fmap.
  destruct (cells s !! k) as [c|] eqn:Hk; [|done]. cbn. intros [= <-].
  rewrite (Hsz k c Hk). apply weight_of_bounded.
Qed.

Lemma total_size_nonneg s :
  sizes_are_weights weight_function s → 0 <= total_size (cells s).
Proof. intros Hsz. apply total_nonneg. by apply sizes_nonneg. Qed.

Lemma cell_size_le_total s k c :
  sizes_are_weights weight_function s → cells s !! k = Some c →
  0 <= Cell.size c <= total_size (cells s).
Proof.
  intros Hsz Hk. split.
  - rewrite (Hsz k c Hk). apply weight_of_bounded.
  - apply (total_lookup_le _ k); [by apply sizes_nonneg|].
    by rewrite lookup_fmap, Hk.
Qed.

Lemma iteration_exact s lost qs s' lost' qs' :
  iteration s lost qs s' lost' qs' → exact_in_call weight_function s → exact_in_call weight_function s'.
Proof.
  intros Hit (Hsz & Hex & Hlt). split; [by eapply iteration_sizes_are_weights|].
  unfold exact in *.
  destruct Hit as [key cell Hc _ -> -> _ _|key cell Hc _ -> -> _ _ _].
  - pose proof (cell_size_le_total s key cell Hsz Hc).
    rewrite (total_size_delete _ _ _ Hc), Hex.
    rewrite wrap_small by (unfold is_size_t, size_t_modulus; lia). lia.
  - by rewrite (total_size_set_visited _ _ _ _ Hc).
Qed.

Lemma overflow_false_capacity s :
  overflow s (Z.of_nat (size (cells s))) = false →
  exact s → 0 <= max_size_in_bytes s → capacity s.
Proof.
  unfold overflow, capacity, exact, sizeInBytes, maxSizeInBytes, count.
  intros Hov Hex Hmax.
  destruct (0 <? Z.of_nat (size (cells s))) eqn:Hpos.
  - rewrite andb_true_r in Hov. apply orb_false_iff in Hov as [Hsize Hcount].
    apply Z.ltb_ge in Hsize. split; [done|]. intros Hmc.
    apply andb_false_iff in Hcount as [Hz|Hle].
    + apply negb_false_iff, Z.eqb_eq in Hz. lia.
    + by apply Z.ltb_ge in Hle.
  - apply Z.ltb_ge in Hpos.
    assert (cells s = ∅) as Hempty by (apply map_size_empty_iff; lia).
    rewrite Hex, Hempty, total_size_empty, map_size_empty. lia.
Qed.

Lemma removeOverflow_exact s s' :
  removeOverflow s = Returns s' →
  exact_in_call weight_function s → 0 <= max_size_in_bytes s → exact_between_calls weight_function s'.
Proof.
  intros (s1 & lost & Hloop & -> & Hchk)%removeOverflow_returns Hs Hmax.
  pose proof (removeOverflow_loop_exit _ _ _ _ _ Hloop) as (Hov & Hms & _).
  destruct (removeOverflow_loop_ind (λ s1 _ _, exact_in_call weight_function s1))
    with (2 := Hs) (3 := Hloop) as (_ & (Hsz & Hex & _) & _).
  { intros ? ? ? ? ? ? _ ? (Hit & _)%removeOverflow_body_inv.
    by eapply iteration_exact. }
  unfold exact_between_calls, exact, sizes_are_weights in *. cbn.
  split; [done|]. split; [done|]. split; [lia|]. split; [lia|].
  apply (overflow_false_capacity s1); [done|done|lia].
Qed.

Lemma set_store_exact b key mapped s s1 :
  set_store weight_function b key mapped s = Returns s1 →
  exact_between_calls weight_function s →
  exact_in_call weight_function s1 ∧ max_size_in_bytes s1 = max_size_in_bytes s.
Proof.
  intros Hst (Hsz & Hex & Hle & Hmax & _).
  pose proof (set_store_accounted _ _ _ _ _ _ Hst) as Hacc.
  pose proof (weight_of_bounded mapped) as Hw.
  pose proof (total_size_nonneg s Hsz) as Hpos.
  unfold exact_in_call, exact in *.
  apply set_store_returns in Hst as [(Hk & _ & ->)|(cell & Hk & ->)]; cbn.
  - split; [|done]. split.
    { apply Hacc. split; [|done]. unfold accounted. rewrite Hex.
      symmetry. apply wrap_small. unfold is_size_t, size_t_modulus. lia. }
    rewrite total_size_insert by done. cbn.
    rewrite Hex. rewrite wrap_small by (unfold is_size_t, size_t_modulus; lia). lia.
  - pose proof (cell_size_le_total s key cell Hsz Hk). split; [|done]. split.
    { apply Hacc. split; [|done]. unfold accounted. rewrite Hex.
      symmetry. apply wrap_small. unfold is_size_t, size_t_modulus. lia. }
    rewrite (total_size_overwrite _ _ _ _ Hk). cbn. rewrite Hex.
    rewrite (wrap_small (_ - _)) by (unfold is_size_t, size_t_modulus; lia).
    rewrite wrap_small by (unfold is_size_t, size_t_modulus; lia). lia.
Qed.

Lemma between_calls_in_call s : exact_between_calls weight_function s → exact_in_call weight_function s.
Proof. intros (? & ? & ? & _). repeat split; [done..|lia]. Qed.

Lemma remove_exact key s s' :
  remove key s = Returns s' → exact_between_calls weight_function s → exact_between_calls weight_function s'.
Proof.
  intros [[_ ->]|(cell & Hk & Hcells & Hsize & Hms & Hmc & _)]%remove_returns Hs;
    [done|].
  pose proof Hs as (Hsz & Hex & Hle & Hmax & Hsize_le & Hcount_le).
  pose proof (cell_size_le_total s key cell Hsz Hk).
  unfold exact_between_calls, capacity, exact, sizes_are_weights,
    sizeInBytes, maxSizeInBytes, count in *.
  rewrite Hcells, Hsize, Hms, Hmc, (total_size_delete _ _ _ Hk), Hex.
  rewrite wrap_small by (unfold is_size_t, size_t_modulus; lia).
  rewrite map_size_delete_Some by eauto.
  split; [intros k c [_ ?]%lookup_delete_Some; eauto|].
  repeat split; lia.
Qed.

Lemma get_exact key s :
  exact_between_calls weight_function s → exact_between_calls weight_function (get key s).2.
Proof.
  intros Hs. pose proof Hs as (Hsz & Hex & Hle & Hmax & Hsize_le & Hcount_le).
  pose proof (get_accounted weight_function key s) as Hget.
  unfold get in *. destruct (cells s !! key) as [cell|] eqn:Hk; [|done].
  unfold exact_between_calls, capacity, exact, sizeInBytes, maxSizeInBytes, count in *.
  cbn in *.
  rewrite (total_size_set_visited _ _ _ _ Hk), map_size_insert_Some by eauto.
  split; [|done]. apply Hget. split; [|done].
  unfold accounted. rewrite Hex. symmetry. apply wrap_small.
  pose proof (total_size_nonneg s Hsz).
  unfold is_size_t, size_t_modulus. lia.
Qed.

Lemma empty_exact s :
  cells s = ∅ → current_size_in_bytes s = 0 → 0 <= max_size_in_bytes s →
  exact_between_calls weight_function s.
Proof.
  intros Hcells Hsize Hmax.
  unfold exact_between_calls, capacity, exact, sizes_are_weights,
    sizeInBytes, maxSizeInBytes, count.
  pose proof (total_size_empty (Key:=Key) (Mapped:=Mapped)) as Hzero.
  rewrite Hcells, Hsize, map_size_empty.
  split; [intros k c; by rewrite lookup_empty|]. repeat split; lia.
Qed.

Lemma run_call_exact c s s' :
  call_well_typed c →
  run_call weight_function c s = Returns s' →
  exact_between_calls weight_function s → exact_between_calls weight_function s'.
Proof.
  destruct c as [b key mapped|n|n|key| |key|key]; cbn; intros Hty.
  - intros (s1 & Hst & Hro)%set_returns Hs.
    destruct (set_store_exact _ _ _ _ _ Hst Hs) as [Hs1 Hms].
    apply (removeOverflow_exact _ _ Hro Hs1). rewrite Hms. apply Hs.
  - intros Hro Hs. apply (removeOverflow_exact _ _ Hro).
    + apply between_calls_in_call in Hs. exact Hs.
    + apply Hs.
  - intros Hro Hs. apply (removeOverflow_exact _ _ Hro).
    + apply between_calls_in_call in Hs. exact Hs.
    + apply Hty.
  - apply remove_exact.
  - intros [= <-] (_ & _ & _ & Hmax & _). by apply empty_exact.
  - intros [= <-]. apply get_exact.
  - intros [= <-]. rewrite getWithKey_state. apply get_exact.
Qed.

Lemma reachable_exact s :
  reachable weight_function s → exact_between_calls weight_function s.
Proof.
  induction 1 as [ms mc Hms _|c s s' _ IH Hty Hrun|c s s' _ IH _ Hrun].
  - apply empty_exact; [done|done|apply Hms].
  - by eapply run_call_exact.
  - by apply run_call_throws in Hrun as ->.
Qed.
End Capacity.

(** ** What the scan evicts *)

Section Eviction.
Context {Key : Type} `{Countable Key} {Mapped : Type}.
Implicit Types (s : SIEVECachePolicy Key Mapped) (cs : gmap Key (Cell.t Mapped)).

Lemma kept_refl cs : kept cs cs.
Proof. intros k c Hk. exists c. done. Qed.

Lemma kept_trans cs1 cs2 cs3 : kept cs1 cs2 → kept cs2 cs3 → kept cs1 cs3.
Proof.
  intros H12 H23 k c3 Hk3.
  destruct (H23 k c3 Hk3) as (c2 & Hk2 & ? & ? & ? & ?).
  destruct (H12 k c2 Hk2) as (c1 & Hk1 & ? & ? & ? & ?).
  exists c1. repeat split; [done|congruence..|auto].
Qed.

Lemma iteration_kept s lost qs s' lost' qs' :
  iteration s lost qs s' lost' qs' → kept (cells s) (cells s').
Proof.
  intros [key cell Hc _ -> _ _ _|key cell Hc Hv -> _ _ _ _] k c'.
  - intros [_ Hk]%lookup_delete_Some. exists c'. done.
  - destruct (decide (key = k)) as [->|Hne].
    + rewrite lookup_insert_eq. intros [= <-]. exists cell. done.
    + rewrite lookup_insert_ne by done. intros Hk. exists c'. done.
Qed.

(** The sizes of the evicted cells are what is missing from the total. *)
Lemma total_size_evicted cs cs' :
  kept cs cs' → total_size (evicted cs cs') = total_size cs - total_size cs'.
Proof.
  unfold evicted.
  induction cs' as [|k c' cs' Hk IH] using map_ind; intros Hkept.
  - rewrite total_size_empty, map_filter_id; [lia|].
    intros i x _. apply lookup_empty.
  - destruct (Hkept k c') as (c & Hc & _ & Hsize & _); [apply lookup_insert_eq|].
    assert (kept cs cs') as Hkept'.
    { intros i x Hi. apply Hkept. rewrite lookup_insert_ne; [done|].
      intros ->. congruence. }
    specialize (IH Hkept').
    assert (filter (λ kc, <[k:=c']> cs' !! kc.1 = None) cs
            = delete k (filter (λ kc, cs' !! kc.1 = None) cs)) as ->.
    { apply map_eq. intros i. apply option_eq. intros x.
      rewrite lookup_delete_Some, !map_lookup_filter_Some. cbn.
      rewrite lookup_insert_None. tauto. }
    rewrite (total_size_delete _ k c), IH, total_size_insert by
      (try done; by apply map_lookup_filter_Some).
    lia.
Qed.

Lemma removeOverflow_loop_lost fuel s s' lost' qs :
  removeOverflow_loop fuel s 0 qs = Returns (s', lost') →
  kept (cells s) (cells s')
  ∧ lost' = wrap (total_size (evicted (cells s) (cells s'))).
Proof.
  intros Hloop.
  pose (P := λ (s1 : SIEVECachePolicy Key Mapped) (lost1 _ : Z),
               kept (cells s) (cells s1)
               ∧ lost1 = wrap (total_size (cells s) - total_size (cells s1))).
  assert (P s 0 qs) as HP.
  { split; [apply kept_refl|]. by rewrite Z.sub_diag. }
  destruct (removeOverflow_loop_ind P) with (2 := HP) (3 := Hloop)
    as (_ & [Hkept ->] & _).
  { intros s1 lost1 qs1 s2 lost2 qs2 _ [Hk1 ->] (Hit & _)%removeOverflow_body_inv.
    split; [eauto using kept_trans, iteration_kept|].
    destruct Hit as [key cell Hc _ -> _ -> _|key cell Hc _ -> _ _ -> _].
    - rewrite (total_size_delete _ _ _ Hc), wrap_add_l. f_equal. lia.
    - by rewrite (total_size_set_visited _ _ _ _ Hc). }
  split; [done|]. by rewrite total_size_evicted.
Qed.

(** The callback is invoked once, at the end, with the evicted total. *)
Lemma removeOverflow_calls_back s s' :
  removeOverflow s = Returns s' →
  kept (cells s) (cells s')
  ∧ on_weight_loss_calls s'
    = on_weight_loss_calls s ++ [wrap (total_size (evicted (cells s) (cells s')))].
Proof.
  intros (s1 & lost & Hloop & -> & _)%removeOverflow_returns. cbn.
  pose proof (removeOverflow_loop_exit _ _ _ _ _ Hloop) as (_ & _ & _ & _ & ->).
  by apply removeOverflow_loop_lost in Hloop as [? <-].
Qed.

(** The scan never sets a [visited] flag. *)
Lemma removeOverflow_unvisited s s' k c' :
  removeOverflow s = Returns s' →
  cells s' !! k = Some c' →
  ∃ c, cells s !! k = Some c ∧ (Cell.visited c = false → Cell.visited c' = false).
Proof.
  intros [Hkept _]%removeOverflow_calls_back Hk.
  destruct (Hkept k c' Hk) as (c & Hc & _ & _ & _ & Hv).
  exists c. split; [done|]. intros Hc'. destruct (Cell.visited c'); [|done].
  rewrite Hv in Hc'; done.
Qed.

(** Without overflow the scan does nothing but report a loss of 0. *)
Lemma removeOverflow_no_overflow s :
  overflow s (Z.of_nat (size (cells s))) = false →
  current_size_in_bytes s <= 2 ^ 63 →
  removeOverflow s
  = Returns (mkPolicy (queue s) (hand s) (cells s) (current_size_in_bytes s)
               (max_size_in_bytes s) (max_count s) (next_node s)
               (on_weight_loss_calls s ++ [0])).
Proof.
  intros Hov Hchk. unfold removeOverflow.
  assert (removeOverflow_loop (scan_bound (cells s)) s 0 (Z.of_nat (size (cells s)))
          = Returns (s, 0)) as ->.
  { destruct (scan_bound (cells s)); simpl; by rewrite Hov. }
  cbn. apply Z.ltb_ge in Hchk. by rewrite Hchk.
Qed.
End Eviction.

(** ** Running the scan by hand *)

Section Stepping.
Context {Key : Type} `{Countable Key} {Mapped : Type}.
Variable weight_function : Mapped → Z.
Implicit Types (s : SIEVECachePolicy Key Mapped) (cs : gmap Key (Cell.t Mapped)).

Lemma removeOverflow_loop_done fuel s lost qs :
  overflow s qs = false → removeOverflow_loop fuel s lost qs = Returns (s, lost).
Proof. intros Hov. destruct fuel; simpl; by rewrite Hov. Qed.

Lemma removeOverflow_loop_step fuel s lost qs s' lost' qs' :
  overflow s qs = true →
  removeOverflow_body s lost qs = Returns (s', lost', qs') →
  removeOverflow_loop (S fuel) s lost qs = removeOverflow_loop fuel s' lost' qs'.
Proof. intros Hov Hbody. simpl. by rewrite Hov, Hbody. Qed.

(** The result of the loop does not depend on the bound, once it suffices. *)
Lemma removeOverflow_loop_agree fuel fuel' s lost qs r :
  removeOverflow_loop fuel s lost qs = Returns r →
  removeOverflow_loop fuel' s lost qs ≠ OutOfFuel →
  removeOverflow_loop fuel' s lost qs = Returns r.
Proof.
  revert fuel' s lost qs.
  induction fuel as [|fuel IH]; intros fuel' s lost qs; simpl;
    destruct (overflow s qs) eqn:Hov; try discriminate.
  - intros [= <-] _. by apply removeOverflow_loop_done.
  - destruct (removeOverflow_body s lost qs) as [[[s1 lost1] qs1]| | | |] eqn:Hbody;
      try discriminate.
    cbn. intros Hloop. destruct fuel' as [|fuel']; simpl; rewrite Hov; [done|].
    rewrite Hbody. cbn. by apply IH.
  - intros [= <-] _. by apply removeOverflow_loop_done.
Qed.

(** So [removeOverflow] can be run with any bound that suffices. *)
Lemma removeOverflow_eval fuel s s1 lost :
  removeOverflow_loop fuel s 0 (Z.of_nat (size (cells s))) = Returns (s1, lost) →
  current_size_in_bytes s1 <= 2 ^ 63 →
  removeOverflow s
  = Returns (mkPolicy (queue s1) (hand s1) (cells s1) (current_size_in_bytes s1)
               (max_size_in_bytes s1) (max_count s1) (next_node s1)
               (on_weight_loss_calls s1 ++ [lost])).
Proof.
  intros Hloop Hchk. unfold removeOverflow.
  rewrite (removeOverflow_loop_agree _ _ _ _ _ _ Hloop)
    by (by apply removeOverflow_loop_fuel).
  cbn. apply Z.ltb_ge in Hchk. by rewrite Hchk.
Qed.

Lemma set_store_fresh key mapped s :
  cells s !! key = None →
  set_store weight_function true key mapped s
  = Returns (mkPolicy (queue s ++ [(next_node s, key)]) (hand s)
               (<[key := Cell.mk mapped (weight_of weight_function mapped) false
                           (It (next_node s))]> (cells s))
               (wrap (current_size_in_bytes s + weight_of weight_function mapped))
               (max_size_in_bytes s) (max_count s) (S (next_node s))
               (on_weight_loss_calls s)).
Proof.
  intros Hk. unfold set_store. rewrite Hk. cbn.
  unfold set_current_size, set_cells. cbn. by rewrite insert_insert_eq.
Qed.

Lemma set_store_overwrite b key mapped s cell :
  cells s !! key = Some cell →
  set_store weight_function b key mapped s
  = Returns (mkPolicy (queue s) (hand s)
               (<[key := Cell.mk mapped (weight_of weight_function mapped) true
                           (Cell.queue_iterator cell)]> (cells s))
               (wrap (wrap (current_size_in_bytes s - Cell.size cell)
                      + weight_of weight_function mapped))
               (max_size_in_bytes s) (max_count s) (next_node s)
               (on_weight_loss_calls s)).
Proof. intros Hk. unfold set_store. by rewrite Hk. Qed.

Lemma overflow_false s qs :
  current_size_in_bytes s <= max_size_in_bytes s →
  max_count s = 0 ∨ qs <= max_count s →
  overflow s qs = false.
Proof.
  intros Hsize Hcount. unfold overflow.
  apply andb_false_iff. left. apply orb_false_iff. split.
  - by apply Z.ltb_ge.
  - apply andb_false_iff. destruct Hcount as [->|Hle]; [by left|right].
    by apply Z.ltb_ge.
Qed.

Lemma overflow_true_count s qs :
  max_count s ≠ 0 → max_count s < qs → 0 < qs → overflow s qs = true.
Proof.
  intros Hmc Hlt Hpos. unfold overflow.
  apply andb_true_iff. split; [|by apply Z.ltb_lt].
  apply orb_true_iff. right. apply andb_true_iff. split.
  - apply negb_true_iff. by apply Z.eqb_neq.
  - by apply Z.ltb_lt.
Qed.

Lemma overflow_true_size s qs :
  max_size_in_bytes s < current_size_in_bytes s → 0 < qs → overflow s qs = true.
Proof.
  intros Hlt Hpos. unfold overflow.
  apply andb_true_iff. split; [|by apply Z.ltb_lt].
  apply orb_true_iff. left. by apply Z.ltb_lt.
Qed.
(** A fresh key whose value fits is stored without any eviction. *)
Lemma set_fresh_fits key mapped s :
  cells s !! key = None →
  0 <= current_size_in_bytes s →
  0 <= weight_of weight_function mapped →
  current_size_in_bytes s + weight_of weight_function mapped <= max_size_in_bytes s →
  current_size_in_bytes s + weight_of weight_function mapped <= 2 ^ 63 →
  max_count s = 0 ∨ Z.of_nat (size (cells s)) + 1 <= max_count s →
  set weight_function true key mapped s
  = Returns (mkPolicy (queue s ++ [(next_node s, key)]) (hand s)
               (<[key := Cell.mk mapped (weight_of weight_function mapped) false
                           (It (next_node s))]> (cells s))
               (current_size_in_bytes s + weight_of weight_function mapped)
               (max_size_in_bytes s) (max_count s) (S (next_node s))
               (on_weight_loss_calls s ++ [0])).
Proof.
  intros Hk Hsize Hw Hfit Hchk Hcount. unfold set.
  rewrite set_store_fresh by done. cbn.
  rewrite wrap_small by (unfold is_size_t, size_t_modulus; lia).
  rewrite removeOverflow_no_overflow; [done| |done].
  apply overflow_false; cbn; [done|].
  rewrite map_size_insert_None by done. lia.
Qed.
End Stepping.

(** ** The list model *)

Section ListFacts.
Context {Key : Type}.
Implicit Types (q : SIEVEQueue Key) (n m : nat) (k : Key) (it nx : iterator).

Lemma find_node_elem_of q n k nx : find_node q n = Some (k, nx) → (n, k) ∈ q.
Proof.
  induction q as [|[i j] q IH]; simpl; [done|].
  destruct (decide (i = n)) as [->|Hne].
  - intros [= -> _]. by left.
  - intros Hn. right. auto.
Qed.

Lemma find_node_is_Some q n : is_Some (find_node q n) ↔ n ∈ q.*1.
Proof.
  induction q as [|[i j] q IH]; simpl.
  - split; [by intros [? ?]|by intros ?%elem_of_nil].
  - destruct (decide (i = n)) as [->|Hne].
    + split; [intros _; by left|eauto].
    + rewrite IH, elem_of_cons. split; [by right|]. by intros [<-|?].
Qed.

Lemma elem_of_find_node q n k :
  NoDup q.*1 → (n, k) ∈ q → ∃ nx, find_node q n = Some (k, nx).
Proof.
  induction q as [|[i j] q IH]; simpl; [by intros _ ?%elem_of_nil|].
  intros [Hi Hq]%NoDup_cons [[= <- <-]|Hin]%elem_of_cons.
  - rewrite decide_True by done. eauto.
  - destruct (decide (i = n)) as [->|Hne]; [|auto].
    exfalso. apply Hi. apply list_elem_of_fmap. by exists (n, k).
Qed.

Lemma find_node_erase_ne q n m :
  n ≠ m → is_Some (find_node q n) → is_Some (find_node (erase_node q m) n).
Proof.
  intros Hne. induction q as [|[i k] q IH]; simpl; [done|].
  destruct (decide (i = n)) as [->|Hin].
  - intros _. rewrite decide_False by done. simpl. rewrite decide_True by done. eauto.
  - intros Hn. destruct (decide (i = m)) as [->|Him]; [done|].
    simpl. rewrite decide_False by done. auto.
Qed.

Lemma list_begin_valid q : valid_iterator q (list_begin q) = true.
Proof.
  destruct q as [|[i j] q]; simpl; [done|].
  apply bool_decide_eq_true_2. rewrite decide_True by done. eauto.
Qed.

Lemma valid_iterator_cons q i j it :
  valid_iterator q it = true → valid_iterator ((i, j) :: q) it = true.
Proof.
  destruct it as [n| |]; simpl; [|done..].
  intros Hn%bool_decide_eq_true_1. apply bool_decide_eq_true_2.
  destruct (decide (i = n)); eauto.
Qed.

(** Incrementing a valid iterator gives a valid iterator. *)
Lemma find_node_next_valid q n k nx :
  find_node q n = Some (k, nx) → valid_iterator q nx = true.
Proof.
  induction q as [|[i j] q IH]; simpl; [done|].
  destruct (decide (i = n)) as [->|Hne].
  - intros [= _ <-]. apply valid_iterator_cons, list_begin_valid.
  - intros Hn. apply valid_iterator_cons. eauto.
Qed.

Lemma elem_of_erase_node q n m k :
  NoDup q.*1 → (m, k) ∈ erase_node q n ↔ (m, k) ∈ q ∧ m ≠ n.
Proof.
  induction q as [|[i j] q IH]; simpl.
  - intros _. split; [by intros ?%elem_of_nil|by intros [?%elem_of_nil _]].
  - intros [Hi Hq]%NoDup_cons. destruct (decide (i = n)) as [->|Hne].
    + rewrite elem_of_cons. split.
      * intros Hin. split; [by right|]. intros ->. apply Hi.
        apply list_elem_of_fmap. by exists (n, k).
      * intros [[[= -> ->]|Hin] Hne]; done.
    + rewrite !elem_of_cons, (IH Hq). split.
      * intros [[= -> ->]|[Hin Hm]]; [split; [by left|done]|split; [by right|done]].
      * intros [[[= -> ->]|Hin] Hm]; [by left|by right].
Qed.

Lemma erase_node_fst_subset q n m : m ∈ (erase_node q n).*1 → m ∈ q.*1.
Proof.
  induction q as [|[i j] q IH]; simpl; [done|].
  destruct (decide (i = n)) as [->|Hne]; simpl.
  - intros Hin. by right.
  - intros [->|Hin]%elem_of_cons; [by left|right; auto].
Qed.

Lemma erase_node_NoDup q n : NoDup q.*1 → NoDup (erase_node q n).*1.
Proof.
  induction q as [|[i j] q IH]; simpl; [done|].
  intros [Hi Hq]%NoDup_cons. destruct (decide (i = n)) as [->|Hne]; [done|].
  simpl. apply NoDup_cons. split; [|auto].
  intros Hin. apply Hi. by eapply erase_node_fst_subset.
Qed.

(** Erasing a node leaves the iterator that followed it valid. *)
Lemma erase_node_next_valid q n k nx :
  NoDup q.*1 → find_node q n = Some (k, nx) →
  valid_iterator (erase_node q n) nx = true.
Proof.
  induction q as [|[i j] q IH]; simpl; [done|].
  intros [Hi Hq]%NoDup_cons. destruct (decide (i = n)) as [->|Hne].
  - intros [= _ <-]. apply list_begin_valid.
  - intros Hn. apply valid_iterator_cons. auto.
Qed.

Lemma erase_node_other_valid q n it :
  it ≠ It n → valid_iterator q it = true → valid_iterator (erase_node q n) it = true.
Proof.
  destruct it as [m| |]; simpl; [|done..].
  intros Hne Hm%bool_decide_eq_true_1. apply bool_decide_eq_true_2.
  apply find_node_erase_ne; [congruence|done].
Qed.

Lemma find_node_app_l q q' n :
  is_Some (find_node q n) → is_Some (find_node (q ++ q') n).
Proof.
  induction q as [|[i j] q IH]; simpl; [by intros [? ?]|].
  destruct (decide (i = n)); eauto.
Qed.

Lemma valid_iterator_app q q' it :
  valid_iterator q it = true → valid_iterator (q ++ q') it = true.
Proof.
  destruct it as [n| |]; simpl; [|done..].
  intros Hn%bool_decide_eq_true_1. apply bool_decide_eq_true_2.
  by apply find_node_app_l.
Qed.
Lemma find_node_erase_eq q n : NoDup q.*1 → find_node (erase_node q n) n = None.
Proof.
  induction q as [|[i j] q IH]; simpl; [done|].
  intros [Hi Hq]%NoDup_cons. destruct (decide (i = n)) as [->|Hne].
  - destruct (find_node q n) as [[k nx]|] eqn:Hn; [|done].
    exfalso. apply Hi. apply find_node_is_Some. eauto.
  - simpl. rewrite decide_False by done. auto.
Qed.

Lemma find_node_next_ne q n k m :
  NoDup q.*1 → find_node q n = Some (k, It m) → m ≠ n.
Proof.
  induction q as [|[i j] q IH]; simpl; [done|].
  intros [Hi Hq]%NoDup_cons. destruct (decide (i = n)) as [->|Hne]; [|auto].
  intros [= _ Hb] ->. apply Hi. destruct q as [|[i' j'] q]; [done|].
  simpl in *. injection Hb as ->. by left.
Qed.
End ListFacts.

(** ** Removal and the cursor *)

Section Removal.
Context {Key : Type} `{Countable Key} {Mapped : Type}.
Implicit Types (s : SIEVECachePolicy Key Mapped) (q : SIEVEQueue Key).

(** When the cursor does not refer to the entry being removed, [remove]
    erases the entry's own node and the cursor stays where it was, valid. *)
Lemma remove_keeps_other_cursor key s cell n :
  cells s !! key = Some cell →
  Cell.queue_iterator cell = It n →
  is_Some (find_node (queue s) n) →
  hand_valid s →
  hand s ≠ It n →
  ∃ s', remove key s = Returns s'
        ∧ queue s' = erase_node (queue s) n
        ∧ cells s' = delete key (cells s)
        ∧ hand s' = hand s
        ∧ hand_valid s'.
Proof.
  intros Hk Hit Hn Hhand Hne. unfold remove, iterator_equal, erase.
  rewrite Hk, Hit. unfold hand_valid in Hhand. rewrite Hhand. simpl.
  rewrite bool_decide_eq_true_2 by done. simpl.
  rewrite bool_decide_eq_false_2 by done. simpl.
  destruct Hn as [[k nx] Hn]. rewrite Hn. simpl.
  eexists. split; [done|]. simpl. repeat split.
  unfold hand_valid. simpl. destruct (hand s) as [m| |] eqn:Hh; [|done|done].
  simpl in *. apply bool_decide_eq_true_2.
  apply bool_decide_eq_true_1 in Hhand.
  apply find_node_erase_ne; [congruence|done].
Qed.
(** When the cursor refers to the entry being removed and another node
    follows it, [remove] erases that other node: the cursor is left on the
    erased node and the removed key stays in the queue. *)
Lemma remove_at_cursor_not_last key s cell n m :
  consistent s →
  cells s !! key = Some cell →
  Cell.queue_iterator cell = It n →
  hand s = It n →
  find_node (queue s) n = Some (key, It m) →
  ∃ s', remove key s = Returns s'
        ∧ queue s' = erase_node (queue s) m
        ∧ cells s' = delete key (cells s)
        ∧ hand s' = It m
        ∧ ¬ hand_valid s'
        ∧ (n, key) ∈ queue s'.
Proof.
  intros [Hnd Hqc Hcq Hvalid] Hk Hit Hh Hn.
  unfold hand_valid in Hvalid.
  pose proof (find_node_next_valid _ _ _ _ Hn) as Hm. simpl in Hm.
  apply bool_decide_eq_true_1 in Hm as [[k' nx'] Hm].
  unfold remove, iterator_equal, increment, erase.
  rewrite Hk, Hit, <- Hh, Hvalid. simpl. rewrite bool_decide_eq_true_2 by done.
  rewrite Hh, Hn. simpl. rewrite Hm. simpl.
  eexists. split; [done|]. simpl. repeat split.
  - unfold hand_valid. simpl. rewrite find_node_erase_eq by done.
    rewrite bool_decide_eq_false_2; [done|]. by intros [? ?].
  - apply elem_of_erase_node; [done|]. split; [by eapply find_node_elem_of|].
    intros ->. by eapply find_node_next_ne.
Qed.

(** When the cursor refers to the only entry, [remove] leaves it on the
    erased node instead of the sentinel. *)
Lemma remove_at_cursor_only_entry key s n :
  consistent s →
  queue s = [(n, key)] →
  hand s = It n →
  ∃ s', remove key s = Returns s'
        ∧ queue s' = []
        ∧ hand s' = It n
        ∧ ¬ hand_valid s'.
Proof.
  intros [Hnd Hqc Hcq Hvalid] Hq Hh.
  destruct (Hqc n key) as (cell & Hk & Hit); [rewrite Hq; by left|].
  unfold remove, iterator_equal, increment, erase.
  rewrite Hk, Hit, Hh, Hq. simpl. rewrite !decide_True by done. simpl.
  rewrite bool_decide_eq_true_2 by done. simpl.
  rewrite !decide_True by done. simpl.
  eexists. split; [done|]. simpl. repeat split.
  unfold hand_valid. simpl. discriminate.
Qed.
(** The one case in which [remove] moves the cursor as intended: the
    cursor refers to the entry being removed, that entry is the last of the
    queue, and it is not the first; the cursor wraps to the head. *)
Lemma remove_at_cursor_last key s cell n :
  consistent s →
  cells s !! key = Some cell →
  Cell.queue_iterator cell = It n →
  hand s = It n →
  find_node (queue s) n = Some (key, End) →
  list_begin (queue s) ≠ It n →
  ∃ s', remove key s = Returns s'
        ∧ queue s' = erase_node (queue s) n
        ∧ cells s' = delete key (cells s)
        ∧ hand s' = list_begin (queue s)
        ∧ hand_valid s'.
Proof.
  intros [Hnd Hqc Hcq Hvalid] Hk Hit Hh Hn Hfirst.
  unfold hand_valid in Hvalid.
  unfold remove, iterator_equal, increment, erase.
  rewrite Hk, Hit, <- Hh, Hvalid. simpl. rewrite bool_decide_eq_true_2 by done.
  rewrite Hh, Hn. simpl. rewrite Hn. simpl.
  eexists. split; [done|]. simpl. repeat split.
  unfold hand_valid. simpl.
  apply erase_node_other_valid; [done|apply list_begin_valid].
Qed.
End Removal.

(** ** Safety of the scan on consistent objects *)

Section Safety.
Context {Key : Type} `{Countable Key} {Mapped : Type}.
Variable weight_function : Mapped → Z.
Implicit Types (s : SIEVECachePolicy Key Mapped) (cs : gmap Key (Cell.t Mapped)).

(** A node has one key. *)
Lemma consistent_node_key s n k k' :
  consistent s → (n, k) ∈ queue s → (n, k') ∈ queue s → k = k'.
Proof.
  intros [Hnd _ _ _] Hk Hk'.
  destruct (elem_of_find_node _ _ _ Hnd Hk) as [nx Hn].
  destruct (elem_of_find_node _ _ _ Hnd Hk') as [nx' Hn'].
  congruence.
Qed.

(** On a consistent object that holds an entry, an iteration of the scan
    completes, without undefined behaviour and without [std::terminate],
    and leaves the object consistent. *)
Lemma removeOverflow_body_safe s lost qs :
  consistent s → cells s ≠ ∅ →
  ∃ s' lost' qs',
    removeOverflow_body s lost qs = Returns (s', lost', qs')
    ∧ consistent s'
    ∧ next_node s' = next_node s
    ∧ (∀ n k, (n, k) ∈ queue s' → (n, k) ∈ queue s).
Proof.
  intros Hs Hne. pose proof Hs as [Hnd Hqc Hcq Hhand].
  apply map_choose in Hne as (k0 & c0 & Hk0).
  destruct (Hcq k0 c0 Hk0) as (n0 & _ & Hn0).
  unfold hand_valid in Hhand.
  assert (∃ n k nx, (if bool_decide (hand s = End) then list_begin (queue s) else hand s)
                    = It n ∧ find_node (queue s) n = Some (k, nx))
    as (n & k & nx & Hh & Hn).
  { destruct (hand s) as [m| |] eqn:Hm; simpl in *.
    - apply bool_decide_eq_true_1 in Hhand as [[k nx] Hfind]. eauto.
    - destruct (queue s) as [|[i j] q]; [by apply elem_of_nil in Hn0|].
      simpl. exists i, j, (list_begin q). by rewrite decide_True.
    - done. }
  pose proof (find_node_elem_of _ _ _ _ Hn) as Hin.
  destruct (Hqc n k Hin) as (c & Hc & Hit).
  unfold removeOverflow_body, iterator_equal. rewrite Hhand. simpl.
  rewrite Hh. simpl. rewrite Hn. simpl. rewrite Hc.
  destruct (Cell.visited c) eqn:Hv; simpl.
  - (* demotion *)
    do 3 eexists. split; [done|]. split; [|done]. constructor; simpl.
    + done.
    + intros m k' Hm. destruct (Hqc m k' Hm) as (c' & Hc' & Hit').
      destruct (decide (k = k')) as [<-|Hkk].
      * rewrite lookup_insert_eq. eexists. split; [done|]. simpl. congruence.
      * rewrite lookup_insert_ne by done. eauto.
    + intros k' c'. destruct (decide (k = k')) as [<-|Hkk].
      * rewrite lookup_insert_eq. intros [= <-]. simpl. eauto.
      * rewrite lookup_insert_ne by done. auto.
    + unfold hand_valid. simpl. by eapply find_node_next_valid.
  - (* eviction *)
    do 3 eexists. split; [done|]. split; [|split; [done|]].
    + constructor; simpl.
      * by apply erase_node_NoDup.
      * intros m k' [Hm Hmn]%elem_of_erase_node; [|done].
        destruct (Hqc m k' Hm) as (c' & Hc' & Hit').
        exists c'. split; [|done]. rewrite lookup_delete_ne; [done|].
        intros <-. congruence.
      * intros k' c' [Hkk Hc']%lookup_delete_Some.
        destruct (Hcq k' c' Hc') as (m & Hit' & Hm).
        exists m. split; [done|]. apply elem_of_erase_node; [done|].
        split; [done|]. intros ->. apply Hkk.
        by apply (consistent_node_key s n).
      * unfold hand_valid. simpl. by eapply erase_node_next_valid.
    + simpl. intros m k' [Hm _]%elem_of_erase_node; done.
Qed.

(** The whole loop completes on a consistent object. *)
Lemma removeOverflow_loop_safe fuel s lost qs :
  consistent s →
  qs = Z.of_nat (size (cells s)) →
  (scan_bound (cells s) <= fuel)%nat →
  ∃ s' lost',
    removeOverflow_loop fuel s lost qs = Returns (s', lost')
    ∧ consistent s'
    ∧ next_node s' = next_node s
    ∧ (∀ n k, (n, k) ∈ queue s' → (n, k) ∈ queue s).
Proof.
  revert s lost qs. induction fuel as [|fuel IH]; intros s lost qs Hs Hqs Hfuel; simpl;
    destruct (overflow s qs) eqn:Hov; eauto 10.
  - exfalso. unfold overflow in Hov. apply andb_true_iff in Hov as [_ Hpos].
    apply Z.ltb_lt in Hpos. unfold scan_bound in Hfuel. lia.
  - assert (cells s ≠ ∅) as Hne.
    { intros Hempty. unfold overflow in Hov. apply andb_true_iff in Hov as [_ Hpos].
      apply Z.ltb_lt in Hpos. rewrite Hqs, Hempty, map_size_empty in Hpos. lia. }
    destruct (removeOverflow_body_safe s lost qs Hs Hne)
      as (s1 & lost1 & qs1 & Hbody & Hs1 & Hnn & Hsub).
    rewrite Hbody. cbn.
    apply removeOverflow_body_inv in Hbody as [Hit _].
    destruct (iteration_scan_bound _ _ _ _ _ _ Hit Hqs) as [Hlt Hqs1].
    destruct (IH s1 lost1 qs1 Hs1 Hqs1) as (s' & lost' & Hloop & Hs' & Hnn' & Hsub');
      [lia|].
    exists s', lost'. split; [done|]. split; [done|]. split; [congruence|]. auto.
Qed.

(** [removeOverflow] on a consistent object returns a consistent object,
    unless the total it ends with exceeds 2^63, when it calls
    [std::terminate]. *)
Lemma removeOverflow_safe s :
  consistent s → nodes_allocated s →
  (∃ s', removeOverflow s = Returns s' ∧ consistent s' ∧ nodes_allocated s')
  ∨ removeOverflow s = Terminates.
Proof.
  intros Hs Hal. unfold removeOverflow.
  destruct (removeOverflow_loop_safe (scan_bound (cells s)) s 0
              (Z.of_nat (size (cells s))) Hs eq_refl (le_n _))
    as (s1 & lost & -> & Hs1 & Hnn & Hsub).
  cbn. destruct (2 ^ 63 <? current_size_in_bytes s1); [by right|left].
  eexists. split; [done|]. split.
  - destruct Hs1. by constructor.
  - intros n k Hn. simpl in *. rewrite Hnn. apply (Hal n k). auto.
Qed.
End Safety.

(** ** Safety of the calls on consistent objects *)

Section CallSafety.
Context {Key : Type} `{Countable Key} {Mapped : Type}.
Variable weight_function : Mapped → Z.
Implicit Types (s : SIEVECachePolicy Key Mapped) (cs : gmap Key (Cell.t Mapped)).

Lemma init_consistent ms mc :
  consistent (init (Key:=Key) (Mapped:=Mapped) ms mc)
  ∧ nodes_allocated (init (Key:=Key) (Mapped:=Mapped) ms mc).
Proof.
  split.
  - constructor; simpl.
    + apply NoDup_nil_2.
    + by intros n k ?%elem_of_nil.
    + intros k c. by rewrite lookup_empty.
    + done.
  - by intros n k ?%elem_of_nil.
Qed.

Lemma clear_consistent s : consistent (clear s) ∧ nodes_allocated (clear s).
Proof.
  split.
  - constructor; simpl.
    + apply NoDup_nil_2.
    + by intros n k ?%elem_of_nil.
    + intros k c. by rewrite lookup_empty.
    + done.
  - by intros n k ?%elem_of_nil.
Qed.

Lemma get_consistent key s :
  consistent s → nodes_allocated s →
  consistent (get key s).2 ∧ nodes_allocated (get key s).2.
Proof.
  intros [Hnd Hqc Hcq Hhand] Hal. unfold get.
  destruct (cells s !! key) as [cell|] eqn:Hk; simpl; [|by split].
  split; [|done]. constructor; simpl; [done| | |done].
  - intros m k' Hm. destruct (Hqc m k' Hm) as (c' & Hc' & Hit').
    destruct (decide (key = k')) as [<-|Hkk].
    + rewrite lookup_insert_eq. eexists. split; [done|]. simpl. congruence.
    + rewrite lookup_insert_ne by done. eauto.
  - intros k' c'. destruct (decide (key = k')) as [<-|Hkk].
    + rewrite lookup_insert_eq. intros [= <-]. simpl. eauto.
    + rewrite lookup_insert_ne by done. auto.
Qed.

Lemma set_store_consistent b key mapped s s1 :
  consistent s → nodes_allocated s →
  set_store weight_function b key mapped s = Returns s1 →
  consistent s1 ∧ nodes_allocated s1.
Proof.
  intros [Hnd Hqc Hcq Hhand] Hal
    [(Hk & _ & ->)|(cell & Hk & ->)]%set_store_returns.
  - split.
    + constructor; simpl.
      * rewrite fmap_app. apply NoDup_app. split; [done|]. split.
        -- intros n [[n' k'] [Heq Hn]]%list_elem_of_fmap Hnew.
           simpl in *. apply list_elem_of_singleton in Hnew.
           apply Hal in Hn. lia.
        -- apply NoDup_singleton.
      * intros n k' [Hn|[= -> ->]%list_elem_of_singleton]%elem_of_app.
        -- destruct (Hqc n k' Hn) as (c' & Hc' & Hit').
           exists c'. split; [|done]. rewrite lookup_insert_ne; [done|].
           intros <-. congruence.
        -- rewrite lookup_insert_eq. eauto.
      * intros k' c'. destruct (decide (key = k')) as [<-|Hkk].
        -- rewrite lookup_insert_eq. intros [= <-]. simpl.
           eexists. split; [done|]. apply elem_of_app. right.
           by apply list_elem_of_singleton.
        -- rewrite lookup_insert_ne by done. intros Hc'.
           destruct (Hcq k' c' Hc') as (n & Hit' & Hn).
           exists n. split; [done|]. apply elem_of_app. by left.
      * by apply valid_iterator_app.
    + intros n k' [Hn|[= -> ->]%list_elem_of_singleton]%elem_of_app; simpl.
      * apply Hal in Hn. lia.
      * lia.
  - split; [|done]. constructor; simpl; [done| | |done].
    + intros m k' Hm. destruct (Hqc m k' Hm) as (c' & Hc' & Hit').
      destruct (decide (key = k')) as [<-|Hkk].
      * rewrite lookup_insert_eq. eexists. split; [done|]. simpl. congruence.
      * rewrite lookup_insert_ne by done. eauto.
    + intros k' c'. destruct (decide (key = k')) as [<-|Hkk].
      * rewrite lookup_insert_eq. intros [= <-]. simpl. eauto.
      * rewrite lookup_insert_ne by done. auto.
Qed.

Lemma remove_consistent key s :
  consistent s → nodes_allocated s →
  (∀ cell, cells s !! key = Some cell → hand s ≠ Cell.queue_iterator cell) →
  ∃ s', remove key s = Returns s' ∧ consistent s' ∧ nodes_allocated s'.
Proof.
  intros Hs Hal Hhand. pose proof Hs as [Hnd Hqc Hcq Hvalid].
  destruct (cells s !! key) as [cell|] eqn:Hk.
  - destruct (Hcq key cell Hk) as (n & Hit & Hn).
    destruct (elem_of_find_node _ _ _ Hnd Hn) as [nx Hfind].
    destruct (remove_keeps_other_cursor key s cell n Hk Hit)
      as (s' & Hrm & Hq' & Hc' & Hh' & Hv'); [eauto|done|..].
    { rewrite <- Hit. by apply Hhand. }
    exists s'. split; [done|]. split.
    + constructor.
      * rewrite Hq'. by apply erase_node_NoDup.
      * rewrite Hq', Hc'. intros m k' [Hm Hmn]%elem_of_erase_node; [|done].
        destruct (Hqc m k' Hm) as (c' & Hck' & Hit').
        exists c'. split; [|done]. rewrite lookup_delete_ne; [done|].
        intros <-. congruence.
      * rewrite Hq', Hc'. intros k' c' [Hkk Hck']%lookup_delete_Some.
        destruct (Hcq k' c' Hck') as (m & Hit' & Hm).
        exists m. split; [done|]. apply elem_of_erase_node; [done|].
        split; [done|]. intros ->. apply Hkk.
        by apply (consistent_node_key s n).
      * done.
    + intros m k'. rewrite Hq'. intros [Hm _]%elem_of_erase_node; [|done].
      assert (next_node s' = next_node s) as ->; [|by apply (Hal m k')].
      revert Hrm. unfold remove. rewrite Hk.
      destruct (iterator_equal _ _ _) as [at_hand| | | |]; try discriminate. cbn.
      match goal with |- context [mbind _ ?x] => destruct x as [[h' it']| | | |] end;
        try discriminate.
      cbn. destruct (erase _ _) as [[q' ?]| | | |]; try discriminate. cbn.
      by intros [= <-].
  - exists s. unfold remove. by rewrite Hk.
Qed.

(** On a consistent object such a call has no undefined behaviour and
    never reaches the [std::terminate] of the scan's defensive lookup: it
    returns a consistent object, or throws leaving the object as it was, or
    ends in the [std::terminate] that guards the size total. *)
Theorem run_call_safe c s :
  consistent s → nodes_allocated s → cursor_elsewhere c s →
  match run_call weight_function c s with
  | Returns s' => consistent s' ∧ nodes_allocated s'
  | Throws s' => s' = s
  | Terminates => True
  | Undefined | OutOfFuel => False
  end.
Proof.
  intros Hs Hal Hc.
  assert (∀ s0, consistent s0 → nodes_allocated s0 →
            match removeOverflow s0 with
            | Returns s' => consistent s' ∧ nodes_allocated s'
            | Terminates => True
            | _ => False
            end) as Hscan.
  { intros s0 Hs0 Hal0.
    by destruct (removeOverflow_safe s0 Hs0 Hal0) as [(s' & -> & ? & ?)| ->]. }
  destruct c as [b key mapped|n|n|key| |key|key]; simpl.
  - unfold set.
    destruct (set_store weight_function b key mapped s) as [s1|s1| | |] eqn:Hst; cbn.
    + destruct (set_store_consistent _ _ _ _ _ Hs Hal Hst) as [Hs1 Hal1].
      specialize (Hscan s1 Hs1 Hal1). by destruct (removeOverflow s1).
    + by apply set_store_throws in Hst as (_ & _ & ->).
    + revert Hst. unfold set_store. repeat (case_match; cbn; try done).
    + revert Hst. unfold set_store. repeat (case_match; cbn; try done).
    + revert Hst. unfold set_store. repeat (case_match; cbn; try done).
  - unfold setMaxCount.
    match goal with |- context [removeOverflow ?s0] =>
      specialize (Hscan s0); destruct (removeOverflow s0); try done;
      (first [apply Hscan|exfalso; apply Hscan]; [by destruct Hs|done])
    end.
  - unfold setMaxSizeInBytes.
    match goal with |- context [removeOverflow ?s0] =>
      specialize (Hscan s0); destruct (removeOverflow s0); try done;
      (first [apply Hscan|exfalso; apply Hscan]; [by destruct Hs|done])
    end.
  - by destruct (remove_consistent key s Hs Hal Hc) as (s' & -> & ? & ?).
  - apply clear_consistent.
  - by apply get_consistent.
  - rewrite getWithKey_state. by apply get_consistent.
Qed.
End CallSafety.

(** ** The properties the specification states *)

Section Specification.
Context {Key : Type} `{Countable Key} {Mapped : Type}.
Variable weight_function : Mapped → Z.
Implicit Types (s : SIEVECachePolicy Key Mapped) (cs : gmap Key (Cell.t Mapped)).

(** C1 (as amended).  When no value weighs 2^63 bytes or more, every object
    a caller can hold, that is the constructed object and the object after
    each public call that returned (or threw and was caught), satisfies
    [sizeInBytes() <= maxSizeInBytes()] and, when [max_count > 0],
    [count() <= max_count]. *)
Theorem capacity_invariant s :
  weights_bounded weight_function →
  reachable weight_function s →
  sizeInBytes s <= maxSizeInBytes s ∧ (0 < max_count s → count s <= max_count s).
Proof.
  intros Hw Hs. by apply (reachable_exact weight_function Hw) in Hs as (_ & _ & _ & _ & Hcap).
Qed.

(** C2.  With [max_count = 2] and a byte limit that the three values fit
    under, on a fresh cache and for distinct keys [A], [B], [C]:
    [set(A); set(B); get(A)] leaves [A] visited and [B] unvisited, and
    [set(C)] then runs the scan, which demotes [A] (its entry stays, with
    [visited] cleared), evicts [B] (reporting the weight of [B]'s value to
    the callback) and stops with the cursor on the node of [C]; [dump()]
    holds exactly the entries of [A] and [C]. *)
Theorem scenario_demote_then_evict (A B C : Key) (vA vB vC : option Mapped) (ms : Z) :
  A ≠ B → A ≠ C → B ≠ C →
  0 <= weight_of weight_function vA →
  0 <= weight_of weight_function vB →
  0 <= weight_of weight_function vC →
  weight_of weight_function vA + weight_of weight_function vB
    + weight_of weight_function vC <= ms →
  weight_of weight_function vA + weight_of weight_function vB
    + weight_of weight_function vC <= 2 ^ 63 →
  ∃ s3 s,
    run_calls weight_function [CallSet true A vA; CallSet true B vB; CallGet A]
      (init ms 2) = Returns s3
    ∧ Cell.visited <$> cells s3 !! A = Some true
    ∧ Cell.visited <$> cells s3 !! B = Some false
    ∧ set weight_function true C vC s3 = Returns s
    ∧ cells s = <[A := Cell.mk vA (weight_of weight_function vA) false (It 0)]>
                  {[C := Cell.mk vC (weight_of weight_function vC) false (It 2)]}
    ∧ dump s ≡ₚ [(A, vA); (C, vC)]
    ∧ queue s = [(0%nat, A); (2%nat, C)]
    ∧ hand s = It 2
    ∧ on_weight_loss_calls s = [0; 0; weight_of weight_function vB].
Proof.
  intros HAB HAC HBC HwA HwB HwC Hfit Hchk.
  set (wA := weight_of weight_function vA) in *.
  set (wB := weight_of weight_function vB) in *.
  set (wC := weight_of weight_function vC) in *.
  eexists. eexists. split.
  { simpl run_calls. unfold run_call.
    rewrite set_fresh_fits; cbn; fold wA;
      [|apply lookup_empty|lia..|rewrite map_size_empty; lia].
    rewrite set_fresh_fits; cbn; fold wB;
      [|by rewrite lookup_insert_ne, lookup_empty|lia..|
       rewrite map_size_insert_None, map_size_empty by apply lookup_empty; lia].
    unfold get. cbn. rewrite lookup_insert_ne, lookup_insert_eq by done. cbn.
    reflexivity. }
  unfold set_cells. simpl.
  split; [by lookup_insert|].
  split; [by lookup_insert|].
  unfold set. rewrite set_store_fresh by (simpl; by lookup_insert).
  simpl. fold wC.
  rewrite wrap_small by (unfold is_size_t, size_t_modulus; lia).
  split.
  { eapply (removeOverflow_eval 2).
    - simpl cells.
      rewrite map_size_insert_None by (by lookup_insert).
      rewrite map_size_insert_Some by (lookup_insert; eauto).
      rewrite map_size_insert_None by (by lookup_insert).
      rewrite map_size_insert_None by (by lookup_insert).
      rewrite map_size_empty.
      erewrite removeOverflow_loop_step; [|by apply overflow_true_count|].
      2:{ unfold removeOverflow_body. simpl. lookup_insert. simpl. reflexivity. }
      erewrite removeOverflow_loop_step; [|by apply overflow_true_count|].
      2:{ unfold removeOverflow_body. simpl. lookup_insert. simpl. reflexivity. }
      apply removeOverflow_loop_done. apply overflow_false; simpl; [|lia].
      rewrite wrap_small by (unfold is_size_t, size_t_modulus; lia). lia.
    - simpl. rewrite wrap_small by (unfold is_size_t, size_t_modulus; lia). lia. }
  simpl.
  match goal with |- ?L = ?R ∧ _ => assert (L = R) as Hcells end.
  { apply map_eq. intros k.
    destruct (decide (k = B)) as [->|]; [by lookup_insert|].
    destruct (decide (k = A)) as [->|]; [by lookup_insert|].
    destruct (decide (k = C)) as [->|]; [by lookup_insert|].
    by lookup_insert. }
  split; [exact Hcells|]. split.
  { unfold dump. simpl. rewrite Hcells.
    rewrite map_to_list_insert by (by lookup_insert).
    by rewrite map_to_list_singleton. }
  split; [done|]. split; [done|].
  f_equal. by rewrite wrap_small by (unfold is_size_t, size_t_modulus; lia).
Qed.

(** C3, the failing call.  A cache constructed with
    [max_size_in_bytes = 0] keeps an entry whose value is null: the entry
    weighs 0, so the total never exceeds the limit and nothing is evicted. *)
Theorem zero_capacity_accepts_null_value (key : Key) (mc : Z) :
  0 <= mc →
  ∃ s,
    set weight_function true key None (init 0 mc) = Returns s
    ∧ maxSizeInBytes s = 0
    ∧ count s = 1
    ∧ dump s = [(key, None)].
Proof.
  intros Hmc. eexists. split.
  - apply set_fresh_fits; simpl; try done.
    rewrite map_size_empty. destruct (decide (mc = 0)); [by left|right; lia].
  - split; [done|]. unfold count, dump. simpl.
    rewrite insert_empty, map_size_singleton, map_to_list_singleton. done.
Qed.

(** What such a cache does reject: on the empty cache, a value of positive
    weight is stored and evicted by the same call, which reports its weight
    to the callback and leaves the cache empty. *)
Lemma zero_capacity_rejects_weighted (key : Key) (v : Mapped) s :
  cells s = ∅ → queue s = [] → hand s = End →
  current_size_in_bytes s = 0 → max_size_in_bytes s = 0 →
  0 < weight_function v < 2 ^ 64 →
  set weight_function true key (Some v) s
  = Returns (mkPolicy [] End ∅ 0 0 (max_count s) (S (next_node s))
               (on_weight_loss_calls s ++ [weight_function v])).
Proof.
  destruct s as [q h cs sz ms mc nn log]. simpl.
  intros -> -> -> -> -> Hw. unfold set.
  rewrite set_store_fresh by apply lookup_empty. simpl.
  rewrite wrap_small by (unfold is_size_t, size_t_modulus; lia).
  rewrite (removeOverflow_eval 1 _ (mkPolicy [] End ∅ 0 0 mc (S nn) log)
             (weight_function v)); [done| |simpl; lia].
  simpl cells. rewrite insert_empty, map_size_singleton.
  erewrite removeOverflow_loop_step; [|apply overflow_true_size; simpl; lia|].
  2:{ unfold removeOverflow_body. simpl. rewrite !decide_True by done. simpl.
      lookup_insert. simpl. reflexivity. }
  rewrite removeOverflow_loop_done.
  - rewrite delete_singleton_eq.
    replace (0 + weight_function v - weight_function v) with 0 by lia.
    rewrite wrap_0.
    by rewrite wrap_small by (unfold is_size_t, size_t_modulus; lia).
  - unfold overflow. simpl. apply andb_false_r.
Qed.

(** C4 (as amended).  The [visited] flag of the entry of [key] is true
    right after a [get] or [getWithKey] that hits it.  A [set] that
    freshly inserts [key] stores the entry unvisited, and the entry is
    still unvisited when [set] returns, if the scan did not evict it.  A
    [set] that overwrites the entry of [key] marks it visited before the
    scan; it is still visited when [set] returns if the scan found nothing
    to do. *)
Theorem visited_after_get_and_set key :
  (∀ s cell, cells s !! key = Some cell →
     ∃ cell', cells (get key s).2 !! key = Some cell'
              ∧ cells (getWithKey key s).2 !! key = Some cell'
              ∧ Cell.visited cell' = true)
  ∧ (∀ b mapped s s' cell',
       cells s !! key = None →
       set weight_function b key mapped s = Returns s' →
       cells s' !! key = Some cell' →
       Cell.visited cell' = false)
  ∧ (∀ b mapped s s' cell,
       cells s !! key = Some cell →
       set weight_function b key mapped s = Returns s' →
       ∃ s1 cell1,
         set_store weight_function b key mapped s = Returns s1
         ∧ cells s1 !! key = Some cell1
         ∧ Cell.visited cell1 = true
         ∧ (overflow s1 (Z.of_nat (size (cells s1))) = false →
            cells s' !! key = Some cell1)).
Proof.
  repeat split.
  - intros s cell Hk. exists (Cell.set_visited true cell).
    rewrite getWithKey_state. unfold get. rewrite Hk. cbn.
    by rewrite lookup_insert_eq.
  - intros b mapped s s' cell' Hk (s1 & Hst & Hro)%set_returns Hk'.
    destruct (removeOverflow_unvisited _ _ _ _ Hro Hk') as (c & Hc & Hv).
    apply Hv.
    apply set_store_returns in Hst as [(_ & _ & ->)|(cell & Hsome & _)];
      [|congruence].
    cbn in Hc. rewrite lookup_insert_eq in Hc. by injection Hc as <-.
  - intros b mapped s s' cell Hk (s1 & Hst & Hro)%set_returns.
    exists s1. pose proof Hst as Hst'.
    apply set_store_returns in Hst' as [(Hnone & _)|(cell0 & Hsome & ->)];
      [congruence|].
    eexists. split; [done|]. cbn. rewrite lookup_insert_eq.
    split; [done|]. split; [done|].
    intros Hov. revert Hro. unfold removeOverflow.
    rewrite (removeOverflow_loop_done _ _ _ _ Hov). cbn.
    destruct (_ <? _); [discriminate|]. intros [= <-]. cbn.
    apply lookup_insert_eq.
Qed.

(** C6 (as amended).  In every reachable object [sizeInBytes()] equals the
    sum of the weights of the entries returned by [dump()] (weight function
    on the stored value, 0 for a null value) reduced modulo 2^64, the width
    of [size_t]; every stored [size] field is that weight; and
    [sizeInBytes()] equals the sum itself whenever no value weighs 2^63
    bytes or more. *)
Theorem sizeInBytes_is_dump_weight s :
  reachable weight_function s →
  sizeInBytes s = wrap (dump_weight weight_function (dump s))
  ∧ (∀ k c, cells s !! k = Some c →
       Cell.size c = weight_of weight_function (Cell.value c))
  ∧ (weights_bounded weight_function →
       sizeInBytes s = dump_weight weight_function (dump s)).
Proof.
  intros Hs. pose proof (reachable_accounted weight_function s Hs) as [Hacc Hsz].
  rewrite (dump_weight_total_size weight_function s Hsz).
  split; [exact Hacc|]. split; [exact Hsz|].
  intros Hw. by apply (reachable_exact weight_function Hw) in Hs as (_ & Hex & _).
Qed.

Lemma run_call_scans c s :
  runs_scan c →
  run_call weight_function c s = (s1 ← before_scan weight_function c s; removeOverflow s1).
Proof. by destruct c. Qed.

Lemma before_scan_calls c s s1 :
  before_scan weight_function c s = Returns s1 →
  on_weight_loss_calls s1 = on_weight_loss_calls s.
Proof.
  destruct c as [b key mapped|n|n|key| |key|key]; cbn; try by intros [= <-].
  by intros [(_ & _ & ->)|(cell & _ & ->)]%set_store_returns.
Qed.

Lemma before_scan_exact c s s1 :
  weights_bounded weight_function →
  before_scan weight_function c s = Returns s1 →
  exact_between_calls weight_function s → exact_in_call weight_function s1.
Proof.
  intros Hw Hbefore Hs.
  destruct c as [b key mapped|n|n|key| |key|key]; cbn in Hbefore;
    try (injection Hbefore as <-; by apply between_calls_in_call in Hs).
  by apply (set_store_exact weight_function Hw _ _ _ _ _ Hbefore) in Hs as [? _].
Qed.

(** With bounded weights the evicted total does not wrap. *)
Lemma evicted_total_exact s s' :
  weights_bounded weight_function →
  exact_in_call weight_function s →
  kept (cells s) (cells s') →
  wrap (total_size (evicted (cells s) (cells s')))
  = total_size (evicted (cells s) (cells s')).
Proof.
  intros Hw (Hsz & _ & Hlt) Hkept.
  pose proof (sizes_nonneg weight_function Hw s Hsz) as Hpos.
  assert (0 <= total_size (evicted (cells s) (cells s'))) as Hev.
  { apply total_nonneg. intros k z. rewrite lookup_fmap.
    destruct (evicted (cells s) (cells s') !! k) as [c|] eqn:Hk; [|done].
    cbn. intros [= <-]. apply map_lookup_filter_Some in Hk as [Hk _].
    apply (Hpos k). by rewrite lookup_fmap, Hk. }
  assert (0 <= total_size (cells s')) as Hrest.
  { apply total_nonneg. intros k z. rewrite lookup_fmap.
    destruct (cells s' !! k) as [c'|] eqn:Hk; [|done].
    cbn. intros [= <-]. destruct (Hkept k c' Hk) as (c & Hc & _ & -> & _).
    apply (Hpos k). by rewrite lookup_fmap, Hc. }
  rewrite (total_size_evicted _ _ Hkept) in *.
  apply wrap_small. unfold is_size_t, size_t_modulus. lia.
Qed.

(** C7 (as amended).  Every call of [set], [setMaxCount] or
    [setMaxSizeInBytes] that returns has invoked the weight-loss callback
    exactly once, and the argument is the total, reduced modulo 2^64, of
    the [size] fields of the entries its scan evicted: the cells that were
    in the map when the scan started and are gone when it ends.  The
    argument is 0 when nothing was evicted, and it is the total itself when
    the call is made on a reachable object and no value weighs 2^63 bytes
    or more. *)
Theorem weight_loss_callback_once c s s' :
  runs_scan c →
  run_call weight_function c s = Returns s' →
  ∃ s1,
    before_scan weight_function c s = Returns s1
    ∧ removeOverflow s1 = Returns s'
    ∧ kept (cells s1) (cells s')
    ∧ on_weight_loss_calls s'
      = on_weight_loss_calls s ++ [wrap (total_size (evicted (cells s1) (cells s')))]
    ∧ (evicted (cells s1) (cells s') = ∅ →
       on_weight_loss_calls s' = on_weight_loss_calls s ++ [0])
    ∧ (weights_bounded weight_function → reachable weight_function s →
       on_weight_loss_calls s'
       = on_weight_loss_calls s ++ [total_size (evicted (cells s1) (cells s'))]).
Proof.
  intros Hc Hrun. rewrite (run_call_scans c s Hc) in Hrun.
  destruct (before_scan weight_function c s) as [s1| | | |] eqn:Hbefore;
    try discriminate.
  cbn in Hrun. exists s1. split; [done|]. split; [done|].
  pose proof (removeOverflow_calls_back _ _ Hrun) as [Hkept Hcalls].
  rewrite (before_scan_calls _ _ _ Hbefore) in Hcalls.
  split; [done|]. split; [done|]. split.
  - intros Hnone. rewrite Hcalls, Hnone. by rewrite wrap_total_size_empty.
  - intros Hw Hs. rewrite Hcalls. do 2 f_equal.
    apply (evicted_total_exact _ _ Hw); [|done].
    apply (before_scan_exact c s s1 Hw Hbefore).
    by apply reachable_exact.
Qed.

(** C8.  When [set] is called for a key that is not in the cache and
    appending the key to the queue throws, the exception propagates and the
    object it leaves is the object before the call: the map entry created
    by [emplace] has been erased, and queue, cursor and size total were
    never touched. *)
Theorem set_rolls_back_on_throw key mapped s :
  cells s !! key = None →
  set weight_function false key mapped s = Throws s.
Proof.
  intros Hk. unfold set, set_store. rewrite Hk. cbn.
  unfold set_cells. cbn. rewrite delete_insert_id by done. by destruct s.
Qed.

(** C9.  [get] and [getWithKey] change nothing but the [visited] flag of
    the entry they hit, which they set: the map afterwards is the map
    before with that one flag altered (unchanged on a miss), and [count()],
    [sizeInBytes()], the queue, the cursor and the limits are as before. *)
Theorem get_only_marks_visited key s :
  (get key s).2 = set_cells (alter (Cell.set_visited true) key (cells s)) s
  ∧ (getWithKey key s).2 = (get key s).2
  ∧ count (get key s).2 = count s
  ∧ sizeInBytes (get key s).2 = sizeInBytes s
  ∧ queue (get key s).2 = queue s
  ∧ hand (get key s).2 = hand s
  ∧ (cells s !! key = None → (get key s).2 = s).
Proof.
  split; [|split; [apply getWithKey_state|]].
  - unfold get. destruct (cells s !! key) as [cell|] eqn:Hk; cbn.
    + f_equal. apply map_eq. intros k. destruct (decide (key = k)) as [->|Hne].
      * by rewrite lookup_insert_eq, lookup_alter_eq, Hk.
      * by rewrite lookup_insert_ne, lookup_alter_ne by done.
    + unfold set_cells. rewrite alter_id by (intros c; congruence). by destruct s.
  - unfold get, count. destruct (cells s !! key) as [cell|] eqn:Hk; cbn.
    + rewrite map_size_insert_Some by eauto. done.
    + done.
Qed.

(** C10.  An entry stored with a null value cannot be told from a missing
    entry through [get]: both calls return the null handle.  [getWithKey]
    does tell them apart: it returns the pair of the key and the null
    value for the stored entry and nothing for the missing one.  The stored
    entry weighs 0. *)
Theorem null_value_hit_looks_like_miss s key cell absent :
  reachable weight_function s →
  cells s !! key = Some cell →
  Cell.value cell = None →
  cells s !! absent = None →
  (get key s).1 = (get absent s).1
  ∧ (getWithKey key s).1 = Some (key, None)
  ∧ (getWithKey absent s).1 = None
  ∧ Cell.size cell = 0.
Proof.
  intros Hs Hk Hnull Habsent.
  apply (reachable_accounted weight_function) in Hs as [_ Hsz].
  unfold get, getWithKey. rewrite Hk, Habsent. cbn. rewrite Hnull.
  repeat split; try done. by rewrite (Hsz key cell Hk), Hnull.
Qed.
End Specification.

(** ** What the calls leave alone *)

Section Frames.
Context {Key : Type} `{Countable Key} {Mapped : Type}.
Variable weight_function : Mapped → Z.
Implicit Types (s : SIEVECachePolicy Key Mapped) (cs : gmap Key (Cell.t Mapped)).

(** Runs of the loop that do not exhaust their bound agree. *)
Lemma removeOverflow_loop_fuel_irrelevant fuel fuel' s lost qs :
  removeOverflow_loop fuel s lost qs ≠ OutOfFuel →
  removeOverflow_loop fuel' s lost qs ≠ OutOfFuel →
  removeOverflow_loop fuel s lost qs = removeOverflow_loop fuel' s lost qs.
Proof.
  revert fuel' s lost qs. induction fuel as [|fuel IH]; intros [|fuel'] s lost qs; simpl;
    destruct (overflow s qs); try done.
  destruct (removeOverflow_body s lost qs) as [[[s1 lost1] qs1]| | | |]; cbn; try done.
  apply IH.
Qed.

(** The scan leaves the limits and the allocation counter alone and
    invokes the callback once. *)
Lemma removeOverflow_frame s s' :
  removeOverflow s = Returns s' →
  max_size_in_bytes s' = max_size_in_bytes s
  ∧ max_count s' = max_count s
  ∧ next_node s' = next_node s
  ∧ length (on_weight_loss_calls s') = S (length (on_weight_loss_calls s)).
Proof.
  intros (s1 & lost & Hloop & -> & _)%removeOverflow_returns.
  apply removeOverflow_loop_exit in Hloop as (_ & ? & ? & ? & Hcalls). simpl.
  rewrite length_app, Hcalls. simpl. repeat split; [done..|lia].
Qed.

Lemma set_store_frame b key mapped s s1 :
  set_store weight_function b key mapped s = Returns s1 →
  max_size_in_bytes s1 = max_size_in_bytes s
  ∧ max_count s1 = max_count s
  ∧ on_weight_loss_calls s1 = on_weight_loss_calls s.
Proof. by intros [(_ & _ & ->)|(cell & _ & ->)]%set_store_returns. Qed.

Lemma get_frame key s :
  max_size_in_bytes (get key s).2 = max_size_in_bytes s
  ∧ max_count (get key s).2 = max_count s
  ∧ on_weight_loss_calls (get key s).2 = on_weight_loss_calls s.
Proof. unfold get. by destruct (cells s !! key). Qed.

(** The limits after a call that returns. *)
Lemma run_call_limits c s s' :
  run_call weight_function c s = Returns s' →
  max_size_in_bytes s'
  = match c with CallSetMaxSizeInBytes n => n | _ => max_size_in_bytes s end
  ∧ max_count s'
    = match c with CallSetMaxCount n => n | _ => max_count s end.
Proof.
  destruct c as [b key mapped|n|n|key| |key|key]; simpl.
  - intros (s1 & Hst & Hro)%set_returns.
    apply set_store_frame in Hst as (Hms & Hmc & _).
    apply removeOverflow_frame in Hro as (? & ? & _). split; congruence.
  - by intros (? & ? & _)%removeOverflow_frame.
  - by intros (? & ? & _)%removeOverflow_frame.
  - intros [[_ ->]|(cell & _ & _ & _ & ? & ? & _)]%remove_returns; by split.
  - by intros [= <-].
  - intros [= <-]. by destruct (get_frame key s) as (? & ? & _).
  - intros [= <-]. rewrite getWithKey_state. by destruct (get_frame key s) as (? & ? & _).
Qed.

(** X1.  The [while] loop of [removeOverflow] ends, by exit or by a stop,
    within [count()] plus the number of entries whose [visited] bit is set
    iterations, whatever the object: every iteration erases an entry or
    clears a bit.  Allowing it more iterations changes nothing. *)
Theorem scan_iterations_bounded fuel s lost :
  (scan_bound (cells s) <= fuel)%nat →
  removeOverflow_loop fuel s lost (Z.of_nat (size (cells s))) ≠ OutOfFuel
  ∧ removeOverflow_loop fuel s lost (Z.of_nat (size (cells s)))
    = removeOverflow_loop (scan_bound (cells s)) s lost (Z.of_nat (size (cells s))).
Proof.
  intros Hfuel.
  assert (removeOverflow_loop fuel s lost (Z.of_nat (size (cells s))) ≠ OutOfFuel)
    as Hrun by (by apply removeOverflow_loop_fuel).
  split; [done|].
  apply removeOverflow_loop_fuel_irrelevant; [done|].
  by apply removeOverflow_loop_fuel.
Qed.

(** X2.  The weight-loss callback is invoked by the eviction scan only:
    [remove], [clear], [get] and [getWithKey] never invoke it, so the
    weight that [remove] and [clear] drop is not reported. *)
Theorem only_the_scan_calls_back c s s' :
  ¬ runs_scan c →
  run_call weight_function c s = Returns s' →
  on_weight_loss_calls s' = on_weight_loss_calls s.
Proof.
  destruct c as [b key mapped|n|n|key| |key|key]; simpl; intros Hc; try by destruct Hc.
  - by intros [[_ ->]|(cell & _ & _ & _ & _ & _ & ?)]%remove_returns.
  - by intros [= <-].
  - intros [= <-]. by destruct (get_frame key s) as (_ & _ & ?).
  - intros [= <-]. rewrite getWithKey_state. by destruct (get_frame key s) as (_ & _ & ?).
Qed.

(** X3.  [maxSizeInBytes()] and the count limit change through their
    setters only: after [setMaxSizeInBytes(n)] returns,
    [maxSizeInBytes()] is [n]; after [setMaxCount(n)] returns, the count
    limit is [n]; every other call that returns leaves both as they were. *)
Theorem limits_change_through_setters_only c s s' :
  run_call weight_function c s = Returns s' →
  maxSizeInBytes s'
  = match c with CallSetMaxSizeInBytes n => n | _ => maxSizeInBytes s end
  ∧ max_count s'
    = match c with CallSetMaxCount n => n | _ => max_count s end.
Proof. apply run_call_limits. Qed.

(** X4.  [dump()] lists the entries of the cache, each once: a pair
    [(k, v)] is in the dump exactly when [getWithKey(k)] returns
    [(k, v)], the dump has [count()] elements, and no key occurs twice. *)
Theorem dump_lists_every_entry_once s :
  (∀ k v, (k, v) ∈ dump s ↔ (getWithKey k s).1 = Some (k, v))
  ∧ Z.of_nat (length (dump s)) = count s
  ∧ NoDup (dump s).*1.
Proof.
  unfold dump, count, getWithKey. split; [|split].
  - intros k v. rewrite list_elem_of_fmap. split.
    + intros ([k' c] & [= -> ->] & Hin%elem_of_map_to_list). simpl in *.
      by rewrite Hin.
    + destruct (cells s !! k) as [c|] eqn:Hk; [|done]. simpl. intros [= <-].
      exists (k, c). split; [done|]. by apply elem_of_map_to_list.
  - by rewrite length_fmap, length_map_to_list.
  - rewrite <- list_fmap_compose. apply (NoDup_fst_map_to_list (cells s)).
Qed.

End Frames.

(** ** What [set] stores, and when *)

Section Storing.
Context {Key : Type} `{Countable Key} {Mapped : Type}.
Variable weight_function : Mapped → Z.
Implicit Types (s : SIEVECachePolicy Key Mapped) (cs : gmap Key (Cell.t Mapped)).

(** The total with which a scanning call enters its scan. *)
Lemma before_scan_size c s s1 :
  before_scan weight_function c s = Returns s1 →
  wrap (current_size_in_bytes s1)
  = wrap (current_size_in_bytes s + stored_by weight_function c s).
Proof.
  destruct c as [b key mapped|n|n|key| |key|key]; cbn;
    try (intros [= <-]; cbn; f_equal; lia).
  unfold stored_size.
  intros [(Hk & _ & ->)|(cell & Hk & ->)]%set_store_returns; rewrite Hk; cbn.
  - unfold wrap. rewrite Zmod_mod. f_equal. lia.
  - unfold wrap at 1 2. rewrite Zmod_mod. fold (wrap (current_size_in_bytes s - Cell.size cell)).
    fold (wrap (wrap (current_size_in_bytes s - Cell.size cell)
                + weight_of weight_function mapped)).
    rewrite wrap_add_l. f_equal. lia.
Qed.

(** The loop moves weight from the total to the local it reports. *)
Lemma removeOverflow_loop_conserves fuel s lost qs s' lost' :
  removeOverflow_loop fuel s lost qs = Returns (s', lost') →
  is_size_t lost →
  wrap (current_size_in_bytes s' + lost') = wrap (current_size_in_bytes s + lost)
  ∧ is_size_t lost'.
Proof.
  intros Hloop Hlost.
  pose (P := λ (s1 : SIEVECachePolicy Key Mapped) (l1 _ : Z),
          wrap (current_size_in_bytes s1 + l1) = wrap (current_size_in_bytes s + lost)
          ∧ is_size_t l1).
  assert (P s lost qs) as HP by done.
  destruct (removeOverflow_loop_ind P) with (2 := HP) (3 := Hloop) as (? & ? & _);
    [|done].
  intros s1 l1 q1 s2 l2 q2 _ [Heq Hl1] (Hit & _)%removeOverflow_body_inv.
  unfold P.
  destruct Hit as [key cell _ _ _ Hcur Hl _|key cell _ _ _ Hcur _ Hl _];
    rewrite Hcur, Hl; [|done].
  split; [|apply wrap_range].
  rewrite wrap_add_l, wrap_add_r, <- Heq. f_equal. lia.
Qed.

Lemma removeOverflow_conserves s s' :
  removeOverflow s = Returns s' →
  on_weight_loss_calls s'
  = on_weight_loss_calls s
    ++ [wrap (current_size_in_bytes s - current_size_in_bytes s')].
Proof.
  intros (s1 & lost & Hloop & -> & _)%removeOverflow_returns.
  pose proof (removeOverflow_loop_exit _ _ _ _ _ Hloop) as (_ & _ & _ & _ & Hcalls).
  apply removeOverflow_loop_conserves in Hloop as [Heq Hlost];
    [|unfold is_size_t, size_t_modulus; lia].
  simpl. rewrite Hcalls. do 2 f_equal.
  rewrite <- (wrap_small lost Hlost), <- wrap_sub_l.
  rewrite Z.add_0_r in Heq. rewrite <- Heq, wrap_sub_l. f_equal. lia.
Qed.

(** X5.  What a scanning call reports to the callback is the amount by
    which the call's scan has lowered [sizeInBytes()], modulo 2^64, on
    every object: for the two setters the drop of [sizeInBytes()] over the
    call, for [set] that drop corrected by the weight stored and the size
    replaced.  On a reachable object with weights below 2^63 no reduction
    takes place. *)
Theorem callback_reports_the_drop_of_sizeInBytes c s s' :
  runs_scan c →
  run_call weight_function c s = Returns s' →
  on_weight_loss_calls s'
  = on_weight_loss_calls s
    ++ [wrap (sizeInBytes s + stored_by weight_function c s - sizeInBytes s')]
  ∧ (weights_bounded weight_function → reachable weight_function s →
     call_well_typed c →
     on_weight_loss_calls s'
     = on_weight_loss_calls s
       ++ [sizeInBytes s + stored_by weight_function c s - sizeInBytes s']).
Proof.
  intros Hc Hrun. pose proof Hrun as Hcall.
  rewrite (run_call_scans _ c s Hc) in Hrun.
  destruct (before_scan weight_function c s) as [s1| | | |] eqn:Hbefore;
    try discriminate.
  cbn in Hrun. unfold sizeInBytes.
  pose proof (removeOverflow_conserves _ _ Hrun) as Hcalls.
  rewrite (before_scan_calls _ _ _ _ Hbefore) in Hcalls.
  pose proof (before_scan_size _ _ _ Hbefore) as Hsize.
  assert (wrap (current_size_in_bytes s1 - current_size_in_bytes s')
          = wrap (current_size_in_bytes s + stored_by weight_function c s
                  - current_size_in_bytes s')) as Hmod.
  { by rewrite <- wrap_sub_l, Hsize, wrap_sub_l. }
  split; [by rewrite Hcalls, Hmod|].
  intros Hw Hs Hty. rewrite Hcalls. do 2 f_equal. rewrite Hmod.
  pose proof (reachable_exact _ Hw _ Hs) as Hex.
  pose proof (before_scan_exact _ c s s1 Hw Hbefore Hex) as Hs1.
  pose proof (removeOverflow_calls_back _ _ Hrun) as [Hkept _].
  pose proof (evicted_total_exact _ s1 s' Hw Hs1 Hkept) as Hev.
  rewrite (total_size_evicted _ _ Hkept) in Hev.
  pose proof (reachable_exact _ Hw _ (reachable_returns _ c s s' Hs Hty Hcall))
    as (_ & Hex' & _).
  destruct Hs1 as (Hsz1 & Hex1 & Hlt1). unfold exact in *.
  rewrite <- Hex1, <- Hex' in Hev.
  assert (current_size_in_bytes s1
          = current_size_in_bytes s + stored_by weight_function c s) as <-; [|done].
  destruct Hex as (Hsz & Hexs & Hle & _). unfold exact in Hexs.
  pose proof (total_size_nonneg _ Hw s Hsz) as Hpos.
  pose proof (total_size_nonneg _ Hw s1 Hsz1) as Hpos1.
  rewrite <- (wrap_small (current_size_in_bytes s1)), Hsize
    by (unfold is_size_t, size_t_modulus; lia).
  apply wrap_small. unfold is_size_t, size_t_modulus.
  destruct c as [b key mapped|n|n|key| |key|key]; cbn; try lia.
  pose proof (weight_of_bounded _ Hw mapped). unfold stored_size.
  destruct (cells s !! key) as [cell|] eqn:Hk; [|lia].
  pose proof (cell_size_le_total _ Hw s key cell Hsz Hk). lia.
Qed.

(** What the first half of [set] leaves in the map. *)
Lemma set_store_lookup b key mapped s s1 :
  set_store weight_function b key mapped s = Returns s1 →
  (∃ c, cells s1 !! key = Some c
        ∧ Cell.value c = mapped
        ∧ Cell.size c = weight_of weight_function mapped)
  ∧ (∀ k, k ≠ key → cells s1 !! k = cells s !! k).
Proof.
  intros [(_ & _ & ->)|(cell & _ & ->)]%set_store_returns; simpl;
    (split; [rewrite lookup_insert_eq; eauto|by intros; rewrite lookup_insert_ne]).
Qed.

(** X6.  After [set(key, mapped)] returns, a lookup of [key] finds
    [mapped] or misses (the entry was evicted by the same call), and a
    lookup of any other key finds what it found before the call or misses:
    [set] never changes the value of another key and never brings an entry
    back. *)
Theorem set_then_lookup b key mapped s s' :
  set weight_function b key mapped s = Returns s' →
  ((getWithKey key s').1 = Some (key, mapped) ∨ (getWithKey key s').1 = None)
  ∧ (∀ k, k ≠ key →
       (getWithKey k s').1 = (getWithKey k s).1 ∨ (getWithKey k s').1 = None).
Proof.
  intros (s1 & Hst & Hro)%set_returns.
  apply removeOverflow_calls_back in Hro as [Hkept _].
  apply set_store_lookup in Hst as [(c0 & Hkey & Hval0 & _) Hother].
  unfold getWithKey. split.
  - destruct (cells s' !! key) as [c'|] eqn:Hc'; [left|by right].
    destruct (Hkept key c' Hc') as (c & Hc & Hval & _). simpl. rewrite Hval.
    rewrite Hkey in Hc. injection Hc as <-. by rewrite Hval0.
  - intros k Hk.
    destruct (cells s' !! k) as [c'|] eqn:Hc'; [left|by right].
    destruct (Hkept k c' Hc') as (c & Hc & Hval & _).
    rewrite (Hother k Hk) in Hc. rewrite Hc. simpl. by rewrite Hval.
Qed.

(** X7.  A [set] that leaves the cache within its limits stores the value
    and evicts nothing: when the total with the new weight in place of the
    old one is at most [maxSizeInBytes()] (and at most 2^63), and the count
    limit has room for the key if it is new, [set] returns; the key then
    maps to the value, every other entry is as it was, a new key is at the
    tail of the queue and an old one stays where it was, the cursor has not
    moved, and the callback has received 0. *)
Theorem set_within_limits_stores b key mapped s :
  b = true ∨ is_Some (cells s !! key) →
  0 <= stored_size key s <= sizeInBytes s →
  0 <= weight_of weight_function mapped →
  sizeInBytes s - stored_size key s + weight_of weight_function mapped
    <= maxSizeInBytes s →
  sizeInBytes s - stored_size key s + weight_of weight_function mapped <= 2 ^ 63 →
  max_count s = 0
  ∨ count s + (match cells s !! key with Some _ => 0 | None => 1 end) <= max_count s →
  ∃ s',
    set weight_function b key mapped s = Returns s'
    ∧ (getWithKey key s').1 = Some (key, mapped)
    ∧ (∀ k, k ≠ key → cells s' !! k = cells s !! k)
    ∧ sizeInBytes s'
      = sizeInBytes s - stored_size key s + weight_of weight_function mapped
    ∧ count s' = count s + (match cells s !! key with Some _ => 0 | None => 1 end)
    ∧ queue s'
      = (match cells s !! key with
         | Some _ => queue s
         | None => queue s ++ [(next_node s, key)]
         end)
    ∧ hand s' = hand s
    ∧ on_weight_loss_calls s' = on_weight_loss_calls s ++ [0].
Proof.
  unfold stored_size, sizeInBytes, maxSizeInBytes, count, getWithKey, set.
  intros Hb Hold Hw Hfit Hchk Hroom.
  destruct (cells s !! key) as [cell|] eqn:Hk.
  - rewrite (set_store_overwrite _ _ _ _ _ cell Hk). cbn.
    rewrite (wrap_small (_ - _)) by (unfold is_size_t, size_t_modulus; lia).
    rewrite wrap_small by (unfold is_size_t, size_t_modulus; lia).
    rewrite removeOverflow_no_overflow; simpl; [|apply overflow_false; simpl|lia].
    + eexists. split; [done|]. simpl. rewrite lookup_insert_eq. simpl.
      split; [done|]. split; [by intros; rewrite lookup_insert_ne|].
      split; [done|]. rewrite map_size_insert_Some by eauto.
      repeat split; lia.
    + lia.
    + rewrite map_size_insert_Some by eauto. lia.
  - destruct Hb as [->|[? [=]]].
    rewrite set_store_fresh by done. cbn.
    rewrite wrap_small by (unfold is_size_t, size_t_modulus; lia).
    rewrite removeOverflow_no_overflow; simpl; [|apply overflow_false; simpl|lia].
    + eexists. split; [done|]. simpl. rewrite lookup_insert_eq. simpl.
      split; [done|]. split; [by intros; rewrite lookup_insert_ne|].
      split; [lia|]. rewrite map_size_insert_None by done.
      repeat split; lia.
    + lia.
    + rewrite map_size_insert_None by done. lia.
Qed.

(** X8.  The total may not exceed 2^63: a [set] of a new key that keeps
    the cache within both of its limits, and so evicts nothing, but brings
    the total above 2^63, ends in [std::terminate()]. *)
Theorem set_terminates_when_total_exceeds_2_63 key mapped s :
  cells s !! key = None →
  0 <= sizeInBytes s →
  0 <= weight_of weight_function mapped →
  2 ^ 63 < sizeInBytes s + weight_of weight_function mapped < 2 ^ 64 →
  sizeInBytes s + weight_of weight_function mapped <= maxSizeInBytes s →
  max_count s = 0 ∨ count s + 1 <= max_count s →
  set weight_function true key mapped s = Terminates.
Proof.
  unfold sizeInBytes, maxSizeInBytes, count, set.
  intros Hk Hpos Hw Hbig Hfit Hroom.
  rewrite set_store_fresh by done. cbn.
  rewrite wrap_small by (unfold is_size_t, size_t_modulus; lia).
  unfold removeOverflow.
  rewrite removeOverflow_loop_done.
  - cbn. by rewrite (proj2 (Z.ltb_lt _ _)) by lia.
  - apply overflow_false; simpl; [lia|].
    rewrite map_size_insert_None by done. lia.
Qed.

(** X9.  A value heavier than the byte limit is never kept: on a
    reachable cache whose weights are below 2^63, after [set(key, v)]
    returns with the weight of [v] above [maxSizeInBytes()], a lookup of
    [key] misses, whether the key was new or not. *)
Theorem value_heavier_than_the_limit_is_not_kept b key v s s' :
  weights_bounded weight_function →
  reachable weight_function s →
  maxSizeInBytes s < weight_function v →
  set weight_function b key (Some v) s = Returns s' →
  (getWithKey key s').1 = None ∧ (get key s').1 = None.
Proof.
  intros Hw Hs Hheavy Hset.
  assert (reachable weight_function s') as Hs'.
  { by apply (reachable_returns _ (CallSet b key (Some v)) s s'). }
  apply (reachable_exact _ Hw) in Hs' as (Hsz & Hex & _ & _ & Hcap & _).
  pose proof (run_call_limits weight_function (CallSet b key (Some v)) s s' Hset)
    as [Hms _].
  unfold getWithKey, get.
  destruct (cells s' !! key) as [c'|] eqn:Hc'; [exfalso|done].
  pose proof (cell_size_le_total _ Hw s' key c' Hsz Hc') as [_ Hle].
  apply set_returns in Hset as (s1 & Hst & Hro).
  apply removeOverflow_calls_back in Hro as [Hkept _].
  destruct (Hkept key c' Hc') as (c & Hc & _ & Hsize & _).
  apply set_store_lookup in Hst as [(c0 & Hkey & _ & Hsize0) _].
  rewrite Hkey in Hc. injection Hc as <-. simpl in Hsize0.
  unfold exact, sizeInBytes, maxSizeInBytes in *. simpl in Hms. lia.
Qed.

End Storing.

(** ** Runs of calls on consistent objects *)

Section Runs.
Context {Key : Type} `{Countable Key} {Mapped : Type}.
Variable weight_function : Mapped → Z.
Implicit Types (s : SIEVECachePolicy Key Mapped) (cs : gmap Key (Cell.t Mapped)).

Lemma run_calls_safe (calls : list (call Key Mapped)) s :
  consistent s → nodes_allocated s →
  cursor_elsewhere_all weight_function calls s →
  match run_calls weight_function calls s with
  | Returns s' | Throws s' => consistent s' ∧ nodes_allocated s'
  | Terminates => True
  | Undefined | OutOfFuel => False
  end.
Proof.
  revert s. induction calls as [|c calls IH]; intros s Hs Hal; simpl; [done|].
  intros [Hc Hrest].
  pose proof (run_call_safe weight_function c s Hs Hal Hc) as Hcall.
  destruct (run_call weight_function c s) as [s1|s1| | |]; cbn; try done.
  - destruct Hcall. by apply IH; [..|apply Hrest].
  - by subst.
Qed.


(** X11.  [clear()] makes any object usable again, also one whose cursor
    a [remove] has left dangling: whatever the object, a run of calls that
    starts with [clear()] and then stays away from the cursor has no
    undefined behaviour. *)
Theorem clear_makes_the_object_usable (calls : list (call Key Mapped)) s :
  cursor_elsewhere_all weight_function calls (clear s) →
  match run_calls weight_function (CallClear :: calls) s with
  | Returns s' | Throws s' => consistent s' ∧ nodes_allocated s'
  | Terminates => True
  | Undefined | OutOfFuel => False
  end.
Proof.
  intros Hcalls. simpl.
  change (match run_calls weight_function calls (clear s) with
          | Returns s' | Throws s' => consistent s' ∧ nodes_allocated s'
          | Terminates => True
          | Undefined | OutOfFuel => False
          end).
  destruct (clear_consistent s). by apply run_calls_safe.
Qed.

(** On a consistent, exactly accounted object whose byte limit is at most
    2^63 the scan returns. *)
Lemma removeOverflow_returns_bounded s :
  weights_bounded weight_function →
  consistent s → nodes_allocated s →
  exact_in_call weight_function s →
  0 <= max_size_in_bytes s <= 2 ^ 63 →
  ∃ s', removeOverflow s = Returns s'
        ∧ consistent s' ∧ nodes_allocated s'
        ∧ exact_between_calls weight_function s'.
Proof.
  intros Hw Hs Hal Hex Hmax.
  destruct (removeOverflow_safe s Hs Hal) as [(s' & Hro & Hs' & Hal')|Hterm].
  { exists s'. split; [done|]. split; [done|]. split; [done|].
    apply (removeOverflow_exact _ Hw _ _ Hro Hex). lia. }
  exfalso. revert Hterm. unfold removeOverflow.
  destruct (removeOverflow_loop_safe (scan_bound (cells s)) s 0
              (Z.of_nat (size (cells s))) Hs eq_refl (le_n _))
    as (s1 & lost & Hloop & _). rewrite Hloop. cbn.
  pose proof (removeOverflow_loop_exit _ _ _ _ _ Hloop) as (Hov & Hms & _).
  destruct (removeOverflow_loop_ind (λ s1 _ _, exact_in_call weight_function s1))
    with (2 := Hex) (3 := Hloop) as (? & (Hsz & Hex1 & _) & _).
  { intros ? ? ? ? ? ? _ ? (Hit & _)%removeOverflow_body_inv.
    by eapply iteration_exact. }
  destruct (overflow_false_capacity s1 Hov Hex1) as [Hcap _]; [lia|].
  unfold sizeInBytes, maxSizeInBytes in Hcap.
  by rewrite (proj2 (Z.ltb_ge _ _)) by lia.
Qed.

Lemma init_healthy ms mc :
  0 <= ms <= 2 ^ 63 →
  healthy weight_function (init (Key:=Key) (Mapped:=Mapped) ms mc).
Proof.
  intros Hms. destruct (init_consistent (Key:=Key) (Mapped:=Mapped) ms mc).
  split; [done|]. split; [done|]. split; [|simpl; lia].
  apply empty_exact; simpl; [done|done|lia].
Qed.

(** X12.  On a healthy object (consistent, the total the exact sum of the
    stored weights, byte limit at most 2^63; a new cache with such a limit
    is one) and with weights below 2^63, every call that sets no byte limit
    above 2^63 and is not a [remove] of the entry under the cursor returns,
    and the object is healthy again; the one exception is a [set] of a new
    key whose node allocation fails, which throws and leaves the object as
    it was.  Such calls never end in [std::terminate()]. *)
Theorem healthy_calls_return c s :
  weights_bounded weight_function →
  healthy weight_function s →
  call_well_typed c → limit_bounded c → cursor_elsewhere c s →
  (∃ s', run_call weight_function c s = Returns s' ∧ healthy weight_function s')
  ∨ (run_call weight_function c s = Throws s
     ∧ ∃ key mapped, c = CallSet false key mapped ∧ cells s !! key = None).
Proof.
  intros Hw (Hs & Hal & Hex & Hmax) Hty Hlim Hc.
  assert (0 <= max_size_in_bytes s) as Hmin by apply Hex.
  assert (∀ s', run_call weight_function c s = Returns s' →
            healthy weight_function s') as Hkeep.
  { intros s' Hrun.
    pose proof (run_call_safe weight_function c s Hs Hal Hc) as Hsafe.
    rewrite Hrun in Hsafe. destruct Hsafe as [Hs' Hal'].
    pose proof (run_call_exact _ Hw c s s' Hty Hrun Hex) as Hex'.
    pose proof (run_call_limits _ c s s' Hrun) as [Hms _].
    split; [done|]. split; [done|]. split; [done|].
    rewrite Hms. by destruct c. }
  assert (∀ s0, consistent s0 → nodes_allocated s0 →
            exact_in_call weight_function s0 →
            0 <= max_size_in_bytes s0 <= 2 ^ 63 →
            ∃ s', removeOverflow s0 = Returns s') as Hscan.
  { intros s0 ? ? ? ?.
    destruct (removeOverflow_returns_bounded s0) as (s' & ? & _); eauto. }
  pose proof (between_calls_in_call _ s Hex) as Hin.
  destruct c as [b key mapped|n|n|key| |key|key]; simpl in *.
  - unfold set in *.
    destruct (set_store weight_function b key mapped s) as [s1|s1| | |] eqn:Hst; cbn in *.
    + left. destruct (set_store_consistent _ _ _ _ _ _ Hs Hal Hst) as [Hs1 Hal1].
      destruct (set_store_exact _ Hw _ _ _ _ _ Hst Hex) as [Hex1 Hms].
      destruct (Hscan s1) as [s' Hro]; [done..|lia|]. eauto.
    + right. apply set_store_throws in Hst as (? & -> & ->). eauto.
    + revert Hst. unfold set_store. repeat (case_match; cbn; try done).
    + revert Hst. unfold set_store. repeat (case_match; cbn; try done).
    + revert Hst. unfold set_store. repeat (case_match; cbn; try done).
  - left. unfold setMaxCount in *.
    match goal with |- context [removeOverflow ?s0] =>
      destruct (Hscan s0) as [s' Hro];
        [by destruct Hs|done|exact Hin|simpl; lia|]
    end.
    eauto.
  - left. unfold setMaxSizeInBytes in *.
    match goal with |- context [removeOverflow ?s0] =>
      destruct (Hscan s0) as [s' Hro];
        [by destruct Hs|done|exact Hin
        |simpl; split; [apply Hty|done]|]
    end.
    eauto.
  - left. destruct (remove_consistent key s Hs Hal Hc) as (s' & Hrm & _). eauto.
  - left. eauto.
  - left. eauto.
  - left. eauto.
Qed.

End Runs.

(** ** [remove] where it works *)

Section Removing.
Context {Key : Type} `{Countable Key} {Mapped : Type}.
Implicit Types (s : SIEVECachePolicy Key Mapped) (q : SIEVEQueue Key).

Lemma erase_node_absent q n : n ∉ q.*1 → erase_node q n = q.
Proof.
  induction q as [|[m k] q IH]; simpl; [done|]. intros Hn.
  apply not_elem_of_cons in Hn as [Hnm Hn].
  rewrite decide_False by done. by rewrite IH.
Qed.

Lemma filter_all {A} (P : A → Prop) `{∀ x, Decision (P x)} (l : list A) :
  (∀ x, x ∈ l → P x) → filter P l = l.
Proof.
  induction l as [|x l IH]; [done|]. intros Hall.
  rewrite filter_cons_True by (apply Hall; left).
  rewrite IH; [done|]. intros y Hy. apply Hall. by right.
Qed.

(** Erasing the node of a key that has one node takes the key out of the
    queue and keeps the others in their order. *)
Lemma erase_node_filter_key q n key :
  NoDup q.*1 →
  (∀ m k, (m, k) ∈ q → k = key ↔ m = n) →
  erase_node q n = filter (λ nk, nk.2 ≠ key) q.
Proof.
  induction q as [|[m k] q IH]; [done|].
  intros Hnd Hkey. rewrite fmap_cons in Hnd. apply NoDup_cons in Hnd as [Hm Hnd].
  cbn [erase_node]. destruct (decide (m = n)) as [->|Hmn].
  - assert (k = key) as ->.
    { apply (Hkey n k); [left|done]. }
    rewrite (filter_cons_False (λ nk : nat * Key, nk.2 ≠ key))
      by (simpl; intros Hne; by apply Hne).
    symmetry. apply filter_all. intros [m k] Hin. simpl. intros ->.
    apply Hm. apply list_elem_of_fmap. exists (m, key). split; [|done]. simpl.
    symmetry. apply (Hkey m key); [by right|done].
  - rewrite (filter_cons_True (λ nk : nat * Key, nk.2 ≠ key)).
    + f_equal. apply IH; [done|]. intros m' k' Hin. apply Hkey. by right.
    + simpl. intros ->. apply Hmn. apply (Hkey m key); [left|done].
Qed.

Lemma find_node_last q n key :
  n ∉ q.*1 → find_node (q ++ [(n, key)]) n = Some (key, End).
Proof.
  induction q as [|[m k] q IH]; simpl.
  - intros _. by rewrite decide_True.
  - intros [Hnm Hn]%not_elem_of_cons. rewrite decide_False by done. by apply IH.
Qed.

Lemma erase_node_last q n key : n ∉ q.*1 → erase_node (q ++ [(n, key)]) n = q.
Proof.
  induction q as [|[m k] q IH]; simpl.
  - intros _. by rewrite decide_True.
  - intros [Hnm Hn]%not_elem_of_cons. rewrite decide_False by done. by rewrite IH.
Qed.

Lemma list_begin_app q q' : q ≠ [] → list_begin (q ++ q') = list_begin q.
Proof. by destruct q as [|[m k] q]. Qed.

(** What [remove] never touches. *)
Lemma remove_next_node key s s' :
  remove key s = Returns s' → next_node s' = next_node s.
Proof.
  unfold remove. destruct (cells s !! key) as [cell|]; [|by intros [= <-]].
  destruct (iterator_equal _ _ _) as [at_hand| | | |]; try discriminate. cbn.
  match goal with |- context [mbind _ ?x] => destruct x as [[h' it']| | | |] end;
    try discriminate.
  cbn. destruct (erase _ _) as [[q' ?]| | | |]; try discriminate. cbn.
  by intros [= <-].
Qed.

(** The object without the entry of [key] and without its node. *)
Lemma erased_consistent key s s' cell n :
  consistent s →
  cells s !! key = Some cell →
  Cell.queue_iterator cell = It n →
  queue s' = erase_node (queue s) n →
  cells s' = delete key (cells s) →
  hand_valid s' →
  consistent s'.
Proof.
  intros Hs Hk Hit Hq' Hc' Hv'. pose proof Hs as [Hnd Hqc Hcq _].
  destruct (Hcq key cell Hk) as (n' & Hit' & Hn).
  assert (n' = n) as -> by congruence.
  constructor.
  - rewrite Hq'. by apply erase_node_NoDup.
  - rewrite Hq', Hc'. intros m k' [Hm Hmn]%elem_of_erase_node; [|done].
    destruct (Hqc m k' Hm) as (c' & Hck' & Hitc).
    exists c'. split; [|done]. rewrite lookup_delete_ne; [done|].
    intros <-. congruence.
  - rewrite Hq', Hc'. intros k' c' [Hkk Hck']%lookup_delete_Some.
    destruct (Hcq k' c' Hck') as (m & Hitc & Hm).
    exists m. split; [done|]. apply elem_of_erase_node; [done|].
    split; [done|]. intros ->. apply Hkk.
    by apply (consistent_node_key s n).
  - done.
Qed.

(** X13.  [remove(key)] of an entry that the cursor does not refer to, on
    a consistent object: the call returns a consistent object without the
    entry; the other entries and their order in the queue are as before,
    the cursor has not moved, [count()] is one less, [sizeInBytes()] is
    less by the size of the entry, and a lookup of [key] misses. *)
Theorem remove_away_from_the_cursor key s cell :
  consistent s → nodes_allocated s →
  cells s !! key = Some cell →
  hand s ≠ Cell.queue_iterator cell →
  ∃ s',
    remove key s = Returns s'
    ∧ consistent s' ∧ nodes_allocated s'
    ∧ cells s' = delete key (cells s)
    ∧ queue s' = filter (λ nk, nk.2 ≠ key) (queue s)
    ∧ hand s' = hand s
    ∧ count s' = count s - 1
    ∧ sizeInBytes s' = wrap (sizeInBytes s - Cell.size cell)
    ∧ (get key s').1 = None.
Proof.
  intros Hs Hal Hk Hhand. pose proof Hs as [Hnd Hqc Hcq Hvalid].
  destruct (Hcq key cell Hk) as (n & Hit & Hn).
  destruct (elem_of_find_node _ _ _ Hnd Hn) as [nx Hfind].
  destruct (remove_keeps_other_cursor key s cell n Hk Hit)
    as (s' & Hrm & Hq' & Hc' & Hh' & Hv'); [eauto|done|congruence|].
  exists s'. split; [done|].
  split; [by apply (erased_consistent key s s' cell n)|].
  split.
  { intros m k'. rewrite Hq', (remove_next_node _ _ _ Hrm).
    intros [Hm _]%elem_of_erase_node; [|done]. by apply (Hal m k'). }
  split; [done|]. split.
  { rewrite Hq'. apply erase_node_filter_key; [done|].
    intros m k Hm. split.
    - intros ->. destruct (Hqc m key Hm) as (c & Hc & Hitc). congruence.
    - intros ->. by apply (consistent_node_key s n). }
  split; [done|].
  apply remove_returns in Hrm as [[Hnone _]|(cell' & Hk' & _ & Hsize & _)];
    [congruence|].
  assert (cell' = cell) as -> by congruence.
  unfold count, sizeInBytes, get. rewrite Hc', lookup_delete_eq.
  rewrite map_size_delete_Some by eauto.
  assert (size (cells s) ≠ 0%nat).
  { intros Hz%map_size_empty_iff. by rewrite Hz, lookup_empty in Hk. }
  split; [lia|]. by split.
Qed.

(** X14.  The one [remove] under the cursor that the code handles: when the
    cursor refers to the last node of a queue of two or more and that
    node's entry is removed, the cursor goes to the first node; the call
    returns a consistent object whose queue is the old one without its
    last node. *)
Theorem remove_last_entry_under_the_cursor key s q0 n :
  consistent s → nodes_allocated s →
  queue s = q0 ++ [(n, key)] → q0 ≠ [] → hand s = It n →
  ∃ s',
    remove key s = Returns s'
    ∧ consistent s' ∧ nodes_allocated s'
    ∧ queue s' = q0
    ∧ hand s' = list_begin q0
    ∧ cells s' = delete key (cells s).
Proof.
  intros Hs Hal Hq Hq0 Hhand. pose proof Hs as [Hnd Hqc Hcq Hvalid].
  assert (n ∉ q0.*1) as Hn.
  { rewrite Hq, fmap_app in Hnd. apply NoDup_app in Hnd as (_ & Hdisj & _).
    intros Hin. apply (Hdisj n Hin). simpl. left. }
  assert ((n, key) ∈ queue s) as Hin.
  { rewrite Hq. apply elem_of_app. right. left. }
  destruct (Hqc n key Hin) as (cell & Hk & Hit).
  destruct (remove_at_cursor_last key s cell n Hs Hk Hit Hhand)
    as (s' & Hrm & Hq' & Hc' & Hh' & Hv').
  { rewrite Hq. by apply find_node_last. }
  { rewrite Hq, list_begin_app by done.
    destruct q0 as [|[m k] q0]; [done|]. simpl. intros [= ->].
    apply Hn. simpl. left. }
  exists s'. split; [done|].
  split; [by apply (erased_consistent key s s' cell n)|].
  rewrite Hq, erase_node_last in Hq' by done.
  rewrite Hq, list_begin_app in Hh' by done.
  split; [|done].
  intros m k'. rewrite Hq', (remove_next_node _ _ _ Hrm). intros Hm.
  apply (Hal m k'). rewrite Hq. apply elem_of_app. by left.
Qed.

End Removing.

(** ** Lowering the count limit *)

Section Shrinking.
Context {Key : Type} `{Countable Key} {Mapped : Type}.
Variable weight_function : Mapped → Z.
Implicit Types (s : SIEVECachePolicy Key Mapped) (cs : gmap Key (Cell.t Mapped)).

(** X15.  [setMaxCount(n)] with [0 < n <= count()] on a healthy object
    evicts down to the limit and no further: the call returns, [count()]
    is then exactly [n], and [sizeInBytes()] has not grown. *)
Theorem setMaxCount_leaves_exactly n s :
  weights_bounded weight_function →
  healthy weight_function s →
  0 < n <= count s →
  ∃ s',
    setMaxCount n s = Returns s'
    ∧ count s' = n
    ∧ sizeInBytes s' <= sizeInBytes s
    ∧ healthy weight_function s'.
Proof.
  intros Hw (Hs & Hal & Hex & Hmax) Hn. unfold setMaxCount.
  set (s0 := mkPolicy (queue s) (hand s) (cells s) (current_size_in_bytes s)
               (max_size_in_bytes s) n (next_node s) (on_weight_loss_calls s)).
  pose proof (between_calls_in_call _ s Hex) as Hin.
  assert (0 <= max_size_in_bytes s) as Hmin by apply Hex.
  assert (sizeInBytes s <= maxSizeInBytes s) as Hcap by apply Hex.
  destruct (removeOverflow_returns_bounded weight_function s0)
    as (s' & Hro & Hs' & Hal' & Hex'); [done|by destruct Hs|done|exact Hin|simpl; lia|].
  exists s'. split; [done|].
  pose proof (removeOverflow_frame _ _ Hro) as (Hms' & _).
  pose proof Hro as (s1 & lost & Hloop & -> & _)%removeOverflow_returns.
  pose (P := λ (s1 : SIEVECachePolicy Key Mapped) (_ qs : Z),
          exact_in_call weight_function s1
          ∧ qs = Z.of_nat (size (cells s1))
          ∧ n <= qs
          ∧ current_size_in_bytes s1 <= current_size_in_bytes s
          ∧ max_count s1 = n
          ∧ max_size_in_bytes s1 = max_size_in_bytes s).
  assert (P s0 0 (Z.of_nat (size (cells s0)))) as HP.
  { unfold P, count in *. simpl. repeat split; try apply Hin; lia. }
  destruct (removeOverflow_loop_ind P) with (2 := HP) (3 := Hloop)
    as (qs & (Hex1 & -> & Hge & Hle & Hmc & Hms) & Hov).
  { intros s2 l2 q2 s3 l3 q3 Hov (Hex2 & Hq2 & Hge & Hle & Hmc & Hms)
      (Hit & Hms3 & Hmc3 & _)%removeOverflow_body_inv.
    pose proof (iteration_exact _ Hw _ _ _ _ _ _ Hit Hex2) as Hex3.
    pose proof (iteration_scan_bound _ _ _ _ _ _ Hit Hq2) as [_ Hq3].
    unfold P. split; [done|]. split; [done|].
    split; [|split; [|split; congruence]].
    - unfold overflow in Hov. apply andb_true_iff in Hov as [Hov _].
      apply orb_true_iff in Hov as [Hsize|Hcount].
      + apply Z.ltb_lt in Hsize. unfold sizeInBytes, maxSizeInBytes in Hcap. lia.
      + apply andb_true_iff in Hcount as [_ Hlt%Z.ltb_lt].
        destruct Hit as [key cell _ _ _ _ _ ->|key cell _ _ _ _ _ _ ->]; lia.
    - destruct Hex2 as (Hsz2 & Hcur2 & _). destruct Hex3 as (_ & Hcur3 & _).
      unfold exact in *.
      destruct Hit as [key cell Hc _ Hcells _ _ _|key cell Hc _ Hcells Hcur _ _ _];
        [|lia].
      pose proof (cell_size_le_total _ Hw s2 key cell Hsz2 Hc).
      rewrite Hcur3, Hcells, (total_size_delete _ _ _ Hc). lia. }
  unfold count, sizeInBytes. simpl. split; [|split; [done|]].
  - unfold overflow in Hov. rewrite Hmc, Hms in Hov.
    rewrite (proj2 (Z.ltb_lt 0 _)) in Hov by lia.
    rewrite andb_true_r in Hov. apply orb_false_iff in Hov as [_ Hcount].
    apply andb_false_iff in Hcount as [Hz|Hle'].
    + apply negb_false_iff, Z.eqb_eq in Hz. lia.
    + apply Z.ltb_ge in Hle'. lia.
  - split; [done|]. split; [done|]. split; [done|]. simpl in Hms'. simpl. lia.
Qed.

End Shrinking.

(** ** The victim of the scan *)

Section Victim.
Context {Key : Type} `{Countable Key} {Mapped : Type}.
Implicit Types (s : SIEVECachePolicy Key Mapped) (q : SIEVEQueue Key).

Lemma find_node_middle q q' n key :
  n ∉ q.*1 → find_node (q ++ (n, key) :: q') n = Some (key, list_begin q').
Proof.
  induction q as [|[m k] q IH]; simpl.
  - intros _. by rewrite decide_True.
  - intros [Hnm Hn]%not_elem_of_cons. rewrite decide_False by done. by apply IH.
Qed.

(** The node the scan looks at, and the cursor after it: the queue read
    from the cursor on, and round to the cursor again, loses its head. *)
Lemma cursor_head q pre suf h m k order :
  NoDup q.*1 →
  q = pre ++ suf → h = list_begin suf →
  suf ++ pre = (m, k) :: order →
  (if bool_decide (h = End) then list_begin q else h) = It m
  ∧ ∃ pre' suf',
      q = pre' ++ suf'
      ∧ find_node q m = Some (k, list_begin suf')
      ∧ suf' ++ pre' = order ++ [(m, k)].
Proof.
  intros Hnd -> -> Horder. destruct suf as [|[m' k'] suf]; simpl in *.
  - subst pre. split; [done|]. exists [(m, k)], order. simpl.
    rewrite app_nil_r, decide_True by done. done.
  - injection Horder as -> -> <-. split; [done|].
    exists (pre ++ [(m, k)]), suf. rewrite <- !app_assoc. simpl.
    split; [done|]. split; [|done]. apply find_node_middle.
    rewrite fmap_app in Hnd. apply NoDup_app in Hnd as (_ & Hdisj & _).
    intros Hin. apply (Hdisj m Hin). simpl. left.
Qed.

Lemma removeOverflow_body_demotes s lost qs m k nx c :
  hand_valid s →
  (if bool_decide (hand s = End) then list_begin (queue s) else hand s) = It m →
  find_node (queue s) m = Some (k, nx) →
  cells s !! k = Some c → Cell.visited c = true →
  removeOverflow_body s lost qs
  = Returns (mkPolicy (queue s) nx (<[k := Cell.set_visited false c]> (cells s))
               (current_size_in_bytes s) (max_size_in_bytes s) (max_count s)
               (next_node s) (on_weight_loss_calls s),
             lost, qs).
Proof.
  unfold hand_valid, removeOverflow_body, iterator_equal.
  intros -> Hh Hfind Hc Hv. simpl. rewrite Hh. simpl.
  rewrite Hfind. simpl. by rewrite Hc, Hv.
Qed.

Lemma removeOverflow_body_evicts s lost qs m k nx c :
  hand_valid s →
  (if bool_decide (hand s = End) then list_begin (queue s) else hand s) = It m →
  find_node (queue s) m = Some (k, nx) →
  cells s !! k = Some c → Cell.visited c = false →
  removeOverflow_body s lost qs
  = Returns (mkPolicy (erase_node (queue s) m) nx (delete k (cells s))
               (wrap (current_size_in_bytes s - Cell.size c))
               (max_size_in_bytes s) (max_count s)
               (next_node s) (on_weight_loss_calls s),
             wrap (lost + Cell.size c), qs - 1).
Proof.
  unfold hand_valid, removeOverflow_body, iterator_equal.
  intros -> Hh Hfind Hc Hv. simpl. rewrite Hh. simpl.
  rewrite Hfind. simpl. by rewrite Hc, Hv.
Qed.

Lemma insert_set_visited (cs : gmap Key (Cell.t Mapped)) k c b :
  cs !! k = Some c →
  <[k := Cell.set_visited b c]> cs = alter (Cell.set_visited b) k cs.
Proof.
  intros Hk. apply map_eq. intros i. destruct (decide (i = k)) as [->|Hik].
  - by rewrite lookup_insert_eq, lookup_alter_eq, Hk.
  - by rewrite lookup_insert_ne, lookup_alter_ne.
Qed.

(** The scan from the cursor: it clears the bits of the visited entries
    [vis] that come first and evicts the unvisited entry that follows. *)
Lemma removeOverflow_loop_victim vis :
  ∀ pre suf rest s lost qs n key cell,
    consistent s →
    queue s = pre ++ suf → hand s = list_begin suf →
    suf ++ pre = vis ++ (n, key) :: rest →
    NoDup vis.*2 → key ∉ vis.*2 →
    (∀ k, k ∈ vis.*2 → ∃ c, cells s !! k = Some c ∧ Cell.visited c = true) →
    cells s !! key = Some cell → Cell.visited cell = false →
    overflow s qs = true →
    overflow (set_current_size (wrap (current_size_in_bytes s - Cell.size cell)) s)
             (qs - 1) = false →
    ∃ nx,
      find_node (queue s) n = Some (key, nx)
      ∧ removeOverflow_loop (S (length vis)) s lost qs
        = Returns (mkPolicy (erase_node (queue s) n) nx
                     (delete key (demote vis.*2 (cells s)))
                     (wrap (current_size_in_bytes s - Cell.size cell))
                     (max_size_in_bytes s) (max_count s)
                     (next_node s) (on_weight_loss_calls s),
                   wrap (lost + Cell.size cell)).
Proof.
  induction vis as [|[m k] vis IH];
    intros pre suf rest s lost qs n key cell Hs Hq Hh Horder Hnd Hkey Hvis Hc Hv
      Hov Hafter;
    pose proof Hs as [Hnodes _ _ Hvalid].
  - destruct (cursor_head (queue s) pre suf (hand s) n key rest Hnodes Hq Hh Horder)
      as (Hhead & pre' & suf' & _ & Hfind & _).
    exists (list_begin suf'). split; [done|].
    erewrite removeOverflow_loop_step;
      [|done|by apply removeOverflow_body_evicts].
    by rewrite removeOverflow_loop_done.
  - simpl in Horder.
    destruct (cursor_head (queue s) pre suf (hand s) m k _ Hnodes Hq Hh Horder)
      as (Hhead & pre' & suf' & Hq' & Hfind & Horder').
    rewrite fmap_cons in Hnd, Hkey, Hvis. simpl in Hnd, Hkey, Hvis.
    apply NoDup_cons in Hnd as [Hk Hnd].
    apply not_elem_of_cons in Hkey as [Hkk Hkey].
    destruct (Hvis k) as (c & Hck & Hcv); [left|].
    pose proof (removeOverflow_body_demotes s lost qs m k _ c Hvalid Hhead Hfind Hck Hcv)
      as Hbody.
    assert (cells s ≠ ∅) as Hne by (intros Hempty; by rewrite Hempty in Hc).
    destruct (removeOverflow_body_safe s lost qs Hs Hne)
      as (s2 & lost2 & qs2 & Hbody' & Hs2 & _).
    rewrite Hbody in Hbody'. injection Hbody' as <- <- <-.
    match type of Hs2 with consistent ?s2 =>
      destruct (IH pre' suf' (rest ++ [(m, k)]) s2 lost qs n key cell)
        as (nx & Hfind_n & Hloop)
    end.
    { exact Hs2. }
    { exact Hq'. }
    { reflexivity. }
    { rewrite Horder', <- app_assoc. done. }
    { done. }
    { done. }
    { intros k' Hk'. destruct (Hvis k') as (c' & Hc' & Hv'); [by right|].
      exists c'. split; [|done]. simpl. rewrite lookup_insert_ne; [done|].
      by intros ->. }
    { simpl. by rewrite lookup_insert_ne. }
    { done. }
    { exact Hov. }
    { exact Hafter. }
    exists nx. split; [done|].
    erewrite removeOverflow_loop_step; [|done|exact Hbody].
    change (length ((m, k) :: vis)) with (S (length vis)).
    rewrite Hloop. simpl.
    by rewrite (insert_set_visited _ _ _ _ Hck).
Qed.

Lemma keys_distinct q :
  NoDup q.*1 →
  (∀ n1 n2 k, (n1, k) ∈ q → (n2, k) ∈ q → n1 = n2) →
  NoDup q.*2.
Proof.
  induction q as [|[m k] q IH]; [intros; apply NoDup_nil_2|].
  rewrite !fmap_cons. simpl. intros [Hm Hnd]%NoDup_cons Hinj.
  apply NoDup_cons. split.
  - intros ([m' k'] & Heq & Hin)%list_elem_of_fmap. simpl in Heq. subst k'.
    apply Hm. apply list_elem_of_fmap. exists (m', k). split; [|done]. simpl.
    apply (Hinj m m' k); [left|by right].
  - apply IH; [done|]. intros n1 n2 k' H1 H2. apply (Hinj n1 n2 k'); by right.
Qed.

(** On a consistent object a key has one node. *)
Lemma queue_keys_distinct s : consistent s → NoDup (queue s).*2.
Proof.
  intros [Hnd Hqc _ _]. apply keys_distinct; [done|].
  intros n1 n2 k H1 H2.
  destruct (Hqc n1 k H1) as (c1 & Hc1 & Hit1).
  destruct (Hqc n2 k H2) as (c2 & Hc2 & Hit2). congruence.
Qed.

(** The scan that has one entry to evict. *)
Lemma removeOverflow_victim pre suf vis n key rest cell s :
  consistent s →
  queue s = pre ++ suf → hand s = list_begin suf →
  suf ++ pre = vis ++ (n, key) :: rest →
  (∀ k, k ∈ vis.*2 → ∃ c, cells s !! k = Some c ∧ Cell.visited c = true) →
  cells s !! key = Some cell → Cell.visited cell = false →
  overflow s (count s) = true →
  overflow (set_current_size (wrap (sizeInBytes s - Cell.size cell)) s)
           (count s - 1) = false →
  wrap (sizeInBytes s - Cell.size cell) <= 2 ^ 63 →
  ∃ nx,
    find_node (queue s) n = Some (key, nx)
    ∧ removeOverflow s
      = Returns (mkPolicy (erase_node (queue s) n) nx
                   (delete key (demote vis.*2 (cells s)))
                   (wrap (sizeInBytes s - Cell.size cell))
                   (max_size_in_bytes s) (max_count s) (next_node s)
                   (on_weight_loss_calls s ++ [wrap (Cell.size cell)])).
Proof.
  unfold count, sizeInBytes.
  intros Hs Hq Hh Horder Hvis Hc Hv Hov Hafter Hchk.
  pose proof (queue_keys_distinct s Hs) as Hkeys.
  assert (queue s ≡ₚ vis ++ (n, key) :: rest) as Hperm.
  { rewrite Hq, <- Horder. apply Permutation_app_comm. }
  rewrite Hperm, fmap_app, fmap_cons in Hkeys. simpl in Hkeys.
  apply NoDup_app in Hkeys as (Hnd & Hdisj & _).
  destruct (removeOverflow_loop_victim vis pre suf rest s 0
              (Z.of_nat (size (cells s))) n key cell)
    as (nx & Hfind & Hloop); try done.
  { intros Hin. apply (Hdisj key Hin). left. }
  exists nx. split; [done|].
  rewrite (removeOverflow_eval _ _ _ _ Hloop); [|done]. simpl.
  by rewrite Z.add_0_l.
Qed.

(** X16.  The victim of the scan.  Read the queue from the cursor to its
    end and on from its first node to the cursor: [vis], entries whose
    [visited] bit is set, then an entry [key] whose bit is clear, then the
    rest.  When the cache is over a limit and is within both limits once
    [key] is gone, [removeOverflow] clears the bits of [vis], erases [key]
    and its node, leaves the cursor on the node that followed, and reports
    the size of [key]'s entry to the callback; nothing else changes. *)
Theorem scan_evicts_the_first_unvisited_entry pre suf vis n key rest cell s :
  consistent s →
  queue s = pre ++ suf → hand s = list_begin suf →
  suf ++ pre = vis ++ (n, key) :: rest →
  (∀ k, k ∈ vis.*2 → ∃ c, cells s !! k = Some c ∧ Cell.visited c = true) →
  cells s !! key = Some cell → Cell.visited cell = false →
  overflow s (count s) = true →
  overflow (set_current_size (wrap (sizeInBytes s - Cell.size cell)) s)
           (count s - 1) = false →
  wrap (sizeInBytes s - Cell.size cell) <= 2 ^ 63 →
  ∃ nx,
    find_node (queue s) n = Some (key, nx)
    ∧ removeOverflow s
      = Returns (mkPolicy (erase_node (queue s) n) nx
                   (delete key (demote vis.*2 (cells s)))
                   (wrap (sizeInBytes s - Cell.size cell))
                   (max_size_in_bytes s) (max_count s) (next_node s)
                   (on_weight_loss_calls s ++ [wrap (Cell.size cell)])).
Proof. apply removeOverflow_victim. Qed.

(** Erasing a key makes what was stored for it irrelevant. *)
Lemma delete_demote_insert ks (cs : gmap Key (Cell.t Mapped)) key c :
  key ∉ ks →
  delete key (demote ks (<[key := c]> cs)) = delete key (demote ks cs).
Proof.
  revert cs. induction ks as [|k ks IH]; intros cs Hkey; simpl.
  - by rewrite delete_insert_eq.
  - apply not_elem_of_cons in Hkey as [Hk Hkey].
    rewrite alter_insert_ne by done. by apply IH.
Qed.

(** X17.  When every entry has its [visited] bit set the scan degenerates
    to first-in-first-out from the cursor: if the cache is over a limit and
    is within both once the entry under the cursor is gone, [removeOverflow]
    goes once round the queue clearing every bit, comes back to the entry
    it started at and evicts it; the cursor is left on the node that
    followed, and the callback receives that entry's size. *)
Theorem scan_of_visited_entries_evicts_under_the_cursor pre suf n key rest cell s :
  consistent s →
  queue s = pre ++ suf → hand s = list_begin suf →
  suf ++ pre = (n, key) :: rest →
  (∀ k, k ∈ ((n, key) :: rest).*2 →
        ∃ c, cells s !! k = Some c ∧ Cell.visited c = true) →
  cells s !! key = Some cell →
  overflow s (count s) = true →
  overflow (set_current_size (wrap (sizeInBytes s - Cell.size cell)) s)
           (count s - 1) = false →
  wrap (sizeInBytes s - Cell.size cell) <= 2 ^ 63 →
  ∃ nx,
    find_node (queue s) n = Some (key, nx)
    ∧ removeOverflow s
      = Returns (mkPolicy (erase_node (queue s) n) nx
                   (delete key (demote rest.*2 (cells s)))
                   (wrap (sizeInBytes s - Cell.size cell))
                   (max_size_in_bytes s) (max_count s) (next_node s)
                   (on_weight_loss_calls s ++ [wrap (Cell.size cell)])).
Proof.
  unfold count, sizeInBytes.
  intros Hs Hq Hh Horder Hvis Hc Hov Hafter Hchk.
  pose proof Hs as [Hnodes _ _ Hvalid].
  pose proof (queue_keys_distinct s Hs) as Hkeys.
  assert (queue s ≡ₚ (n, key) :: rest) as Hperm.
  { rewrite Hq, <- Horder. apply Permutation_app_comm. }
  rewrite Hperm, fmap_cons in Hkeys. simpl in Hkeys.
  apply NoDup_cons in Hkeys as [Hkey Hnd].
  destruct (cursor_head (queue s) pre suf (hand s) n key rest Hnodes Hq Hh Horder)
    as (Hhead & pre' & suf' & Hq' & Hfind & Horder').
  destruct (Hvis key) as (c & Hc' & Hv); [left|].
  assert (c = cell) as -> by congruence.
  pose proof (removeOverflow_body_demotes s 0 (Z.of_nat (size (cells s))) n key _ cell
                Hvalid Hhead Hfind Hc Hv) as Hbody.
  assert (cells s ≠ ∅) as Hne by (intros Hempty; by rewrite Hempty in Hc).
  destruct (removeOverflow_body_safe s 0 (Z.of_nat (size (cells s))) Hs Hne)
    as (s2 & lost2 & qs2 & Hbody' & Hs2 & _).
  rewrite Hbody in Hbody'. injection Hbody' as <- <- <-.
  match type of Hs2 with consistent ?x =>
    destruct (removeOverflow_loop_victim rest pre' suf' [] x 0
                (Z.of_nat (size (cells s))) n key (Cell.set_visited false cell))
      as (nx & Hfind_n & Hloop)
  end.
  { exact Hs2. }
  { exact Hq'. }
  { reflexivity. }
  { exact Horder'. }
  { done. }
  { done. }
  { intros k Hk. destruct (Hvis k) as (c' & Hck & Hcv); [by right|].
    exists c'. split; [|done]. simpl. rewrite lookup_insert_ne; [done|].
    by intros ->. }
  { simpl. by rewrite lookup_insert_eq. }
  { done. }
  { exact Hov. }
  { exact Hafter. }
  simpl in Hfind_n. exists nx. split; [done|].
  erewrite (removeOverflow_eval (S (S (length rest))) s);
    [|erewrite removeOverflow_loop_step; [exact Hloop|done|exact Hbody]|].
  - simpl. rewrite Z.add_0_l. by rewrite delete_demote_insert.
  - exact Hchk.
Qed.

(** Clearing bits and storing or erasing another key do not interfere. *)
Lemma demote_insert_delete ks (cs : gmap Key (Cell.t Mapped)) key c :
  key ∉ ks → cs !! key = None →
  delete key (demote ks (<[key := c]> cs)) = demote ks cs.
Proof.
  revert cs. induction ks as [|k ks IH]; intros cs Hkey Hnone; simpl.
  - by rewrite delete_insert_eq, delete_id.
  - apply not_elem_of_cons in Hkey as [Hk Hkey].
    rewrite alter_insert_ne by done. apply IH; [done|].
    by rewrite lookup_alter_ne.
Qed.

(** X18.  A [set] that does not stick.  On a cache that is at its count
    limit, when every entry from the cursor to the tail of the queue (every
    entry, when the cursor is at the end) has its [visited] bit set, a
    [set] of a new key clears those bits and evicts the entry it has just
    inserted: the call returns, the key is not in the cache, the old
    entries are all there, the cursor is at the end, and the callback has
    received the weight of the new value. *)
Theorem set_on_a_full_cache_may_evict_the_new_entry
    (weight_function : Mapped → Z) key mapped pre suf s :
  consistent s → nodes_allocated s →
  queue s = pre ++ suf → hand s = list_begin suf →
  (∀ k, k ∈ (match suf with [] => pre | _ => suf end).*2 →
        ∃ c, cells s !! k = Some c ∧ Cell.visited c = true) →
  cells s !! key = None →
  max_count s ≠ 0 → count s = max_count s →
  0 <= weight_of weight_function mapped →
  0 <= sizeInBytes s <= maxSizeInBytes s →
  sizeInBytes s <= 2 ^ 63 →
  sizeInBytes s + weight_of weight_function mapped < 2 ^ 64 →
  set weight_function true key mapped s
  = Returns (mkPolicy (queue s) End
               (demote (match suf with [] => pre | _ => suf end).*2 (cells s))
               (sizeInBytes s) (max_size_in_bytes s) (max_count s)
               (S (next_node s))
               (on_weight_loss_calls s ++ [weight_of weight_function mapped])).
Proof.
  unfold count, sizeInBytes, maxSizeInBytes.
  intros Hs Hal Hq Hh Hvis Hnone Hmc Hfull Hw Hcur Hchk Hsum.
  set (vis := match suf with [] => pre | _ => suf end) in *.
  set (w := weight_of weight_function mapped) in *.
  set (new := Cell.mk mapped w false (It (next_node s))).
  pose proof (set_store_fresh weight_function key mapped s Hnone) as Hst.
  destruct (set_store_consistent weight_function _ _ _ _ _ Hs Hal Hst) as [Hs1 _].
  unfold set. rewrite Hst. cbn. fold w. fold new.
  assert (next_node s ∉ (queue s).*1) as Hfresh.
  { intros ([m k] & Heq & Hin)%list_elem_of_fmap. apply Hal in Hin. simpl in Heq. lia. }
  assert (wrap (wrap (current_size_in_bytes s + w) - w) = current_size_in_bytes s)
    as Hback.
  { rewrite wrap_sub_l. replace (current_size_in_bytes s + w - w)
      with (current_size_in_bytes s) by lia.
    apply wrap_small. unfold is_size_t, size_t_modulus. lia. }
  match goal with |- removeOverflow ?s1 = _ =>
    destruct (removeOverflow_victim
                (match suf with [] => pre ++ [(next_node s, key)] | _ => pre end)
                (match suf with [] => [] | _ => suf ++ [(next_node s, key)] end)
                vis (next_node s) key
                (match suf with [] => [] | _ => pre end) new s1)
      as (nx & Hfind & Hro)
  end.
  { done. }
  { simpl. rewrite Hq. destruct suf; [by rewrite !app_nil_r|by rewrite <- app_assoc]. }
  { simpl. rewrite Hh. by destruct suf as [|[m k] suf]. }
  { subst vis. destruct suf; [done|]. by rewrite <- app_assoc. }
  { intros k Hk. destruct (Hvis k Hk) as (c & Hc & Hv).
    exists c. split; [|done]. simpl. rewrite lookup_insert_ne; [done|]. congruence. }
  { simpl. by rewrite lookup_insert_eq. }
  { done. }
  { apply overflow_true_count; [exact Hmc|..]; unfold count; cbn [cells max_count];
      rewrite map_size_insert_None by done; lia. }
  { unfold sizeInBytes, new. cbn [current_size_in_bytes Cell.size]. rewrite Hback.
    apply overflow_false; unfold count;
      cbn [set_current_size current_size_in_bytes
           max_size_in_bytes max_count cells]; [lia|].
    rewrite map_size_insert_None by done. lia. }
  { unfold sizeInBytes, new. cbn [current_size_in_bytes Cell.size]. rewrite Hback. lia. }
  rewrite Hro. unfold sizeInBytes, new.
  cbn [queue cells current_size_in_bytes max_size_in_bytes max_count next_node
       on_weight_loss_calls Cell.size] in *.
  rewrite find_node_last in Hfind by done.
  injection Hfind as <-.
  rewrite erase_node_last by done. rewrite Hback.
  rewrite demote_insert_delete; [|..|done].
  - by rewrite wrap_small by (unfold is_size_t, size_t_modulus; lia).
  - intros Hin. destruct (Hvis key Hin) as (c & Hc & _). congruence.
Qed.

End Victim.

(** ** The queue and the map *)

Section Agreement.
Context {Key : Type} `{Countable Key} {Mapped : Type}.
Variable weight_function : Mapped → Z.
Implicit Types (s : SIEVECachePolicy Key Mapped) (q : SIEVEQueue Key).

Lemma consistent_queue_keys s :
  consistent s →
  NoDup (queue s).*2
  ∧ (∀ k, k ∈ (queue s).*2 ↔ is_Some (cells s !! k))
  ∧ Z.of_nat (length (queue s)) = count s.
Proof.
  intros Hs. pose proof (queue_keys_distinct s Hs) as Hnd.
  destruct Hs as [_ Hqc Hcq _].
  assert (∀ k, k ∈ (queue s).*2 ↔ is_Some (cells s !! k)) as Hiff.
  { intros k. split.
    - intros ([n k'] & -> & Hin)%list_elem_of_fmap.
      destruct (Hqc n k' Hin) as (c & Hc & _). eauto.
    - intros [c Hc]. destruct (Hcq k c Hc) as (n & _ & Hin).
      apply list_elem_of_fmap. by exists (n, k). }
  split; [done|]. split; [done|].
  assert ((queue s).*2 ≡ₚ (map_to_list (cells s)).*1) as Hperm.
  { apply NoDup_Permutation; [done|apply NoDup_fst_map_to_list|].
    intros k. rewrite Hiff. split.
    - intros [c Hc]. apply list_elem_of_fmap. exists (k, c).
      split; [done|]. by apply elem_of_map_to_list.
    - intros ([k' c] & -> & Hin%elem_of_map_to_list)%list_elem_of_fmap. eauto. }
  apply Permutation_length in Hperm. rewrite !length_fmap, length_map_to_list in Hperm.
  unfold count. by rewrite Hperm.
Qed.

(** X19.  The queue and the map agree after every run of calls that
    stays away from the cursor: the queue holds the keys of the map, each
    once, so its length is [count()], the value from which the scan
    initialises its local [queue_size]. *)
Theorem queue_holds_the_keys_of_the_map (calls : list (call Key Mapped)) s s' :
  consistent s → nodes_allocated s →
  cursor_elsewhere_all weight_function calls s →
  run_calls weight_function calls s = Returns s' →
  NoDup (queue s').*2
  ∧ (∀ k, k ∈ (queue s').*2 ↔ (getWithKey k s').1 ≠ None)
  ∧ Z.of_nat (length (queue s')) = count s'.
Proof.
  intros Hs Hal Hcalls Hrun.
  pose proof (run_calls_safe weight_function calls s Hs Hal Hcalls) as Hsafe.
  rewrite Hrun in Hsafe. destruct Hsafe as [Hs' _].
  destruct (consistent_queue_keys s' Hs') as (Hnd & Hiff & Hlen).
  split; [done|]. split; [|done].
  intros k. rewrite Hiff. unfold getWithKey.
  destruct (cells s' !! k); simpl; split; try done; eauto.
Qed.

End Agreement.

(** ** The second chance *)

Section SecondChance.
Context {Key : Type} `{Countable Key} {Mapped : Type}.
Variable weight_function : Mapped → Z.
Implicit Types (s : SIEVECachePolicy Key Mapped) (q : SIEVEQueue Key)
               (cs : gmap Key (Cell.t Mapped)).

(** Clearing bits changes no value. *)
Lemma demote_values ks cs : Cell.value <$> demote ks cs = Cell.value <$> cs.
Proof.
  revert cs. induction ks as [|k ks IH]; intros cs; simpl; [done|].
  rewrite IH. apply map_eq. intros i. rewrite !lookup_fmap.
  destruct (decide (i = k)) as [->|Hik].
  - rewrite lookup_alter_eq. by destruct (cs !! k).
  - by rewrite lookup_alter_ne.
Qed.

Lemma getWithKey_lookup k s :
  (getWithKey k s).1 = (λ c, (k, Cell.value c)) <$> cells s !! k.
Proof. unfold getWithKey. by destruct (cells s !! k). Qed.

(** The queue splits at the cursor. *)
Lemma hand_splits s :
  hand_valid s → ∃ pre suf, queue s = pre ++ suf ∧ hand s = list_begin suf.
Proof.
  unfold hand_valid. destruct (hand s) as [m| |] eqn:Hm; simpl; [| |done].
  - intros [[k nx] Hfind%find_node_elem_of]%bool_decide_eq_true_1.
    apply list_elem_of_split in Hfind as (pre & suf & ->).
    by exists pre, ((m, k) :: suf).
  - intros _. exists (queue s), []. by rewrite app_nil_r.
Qed.

(** The first entry of a list of nodes whose bit is clear. *)
Lemma first_unvisited cs q :
  (∀ n k, (n, k) ∈ q → is_Some (cs !! k)) →
  (∃ n k c, (n, k) ∈ q ∧ cs !! k = Some c ∧ Cell.visited c = false) →
  ∃ vis n key cell rest,
    q = vis ++ (n, key) :: rest
    ∧ (∀ k, k ∈ vis.*2 → ∃ c, cs !! k = Some c ∧ Cell.visited c = true)
    ∧ cs !! key = Some cell ∧ Cell.visited cell = false.
Proof.
  induction q as [|[m k] q IH]; intros Hall (n0 & k0 & c0 & Hin & Hc0 & Hv0).
  - by apply elem_of_nil in Hin.
  - destruct (Hall m k) as [c Hc]; [left|].
    destruct (Cell.visited c) eqn:Hv.
    + destruct IH as (vis & n & key & cell & rest & -> & Hvis & Hcell & Hcv).
      { intros n' k' Hin'. apply (Hall n' k'). by right. }
      { apply elem_of_cons in Hin as [[= -> ->]|Hin]; [congruence|].
        by exists n0, k0, c0. }
      exists ((m, k) :: vis), n, key, cell, rest. split; [done|].
      split; [|done]. intros k'. rewrite fmap_cons. simpl.
      intros [->|Hk']%elem_of_cons; eauto.
    + exists [], m, k, c, q. split; [done|]. split; [|done].
      intros k' Hk'. by apply elem_of_nil in Hk'.
Qed.

(** An insertion into a full cache evicts one entry, whose bit is clear. *)
Lemma insertion_evicts_one_unvisited key mapped s :
  weights_bounded weight_function →
  healthy weight_function s →
  cells s !! key = None →
  max_count s ≠ 0 → count s = max_count s →
  sizeInBytes s + weight_of weight_function mapped <= maxSizeInBytes s →
  ∃ s' victim,
    set weight_function true key mapped s = Returns s'
    ∧ count s' = count s
    ∧ (victim = key ∨ ∃ c, cells s !! victim = Some c ∧ Cell.visited c = false)
    ∧ (getWithKey victim s').1 = None
    ∧ (victim ≠ key → (getWithKey key s').1 = Some (key, mapped))
    ∧ (∀ k, k ≠ victim → k ≠ key → (getWithKey k s').1 = (getWithKey k s).1).
Proof.
  unfold count, sizeInBytes, maxSizeInBytes.
  intros Hw (Hs & Hal & Hex & Hmax) Hnone Hmc Hfull Hfit.
  set (w := weight_of weight_function mapped) in *.
  set (new := Cell.mk mapped w false (It (next_node s))).
  pose proof (weight_of_bounded _ Hw mapped) as Hwb. fold w in Hwb.
  pose proof (set_store_fresh weight_function key mapped s Hnone) as Hst.
  destruct (set_store_consistent weight_function _ _ _ _ _ Hs Hal Hst) as [Hs1 _].
  destruct (set_store_exact _ Hw _ _ _ _ _ Hst Hex) as [(Hsz1 & Hex1 & _) _].
  unfold set. rewrite Hst. cbn.
  assert (0 <= current_size_in_bytes s) as Hpos.
  { destruct Hex as (Hsz & Hexs & _). unfold exact in Hexs. rewrite Hexs.
    by apply (total_size_nonneg _ Hw). }
  match type of Hs1 with consistent ?x => remember x as s1 eqn:Hdef end.
  assert (cells s1 = <[key := new]> (cells s)) as Hcells1 by (by rewrite Hdef).
  assert (queue s1 = queue s ++ [(next_node s, key)]) as Hqueue1 by (by rewrite Hdef).
  assert (max_count s1 = max_count s) as Hmc1 by (by rewrite Hdef).
  assert (max_size_in_bytes s1 = max_size_in_bytes s) as Hms1 by (by rewrite Hdef).
  assert (current_size_in_bytes s1 = current_size_in_bytes s + w) as Hcur1.
  { rewrite Hdef. simpl. fold w.
    apply wrap_small. unfold is_size_t, size_t_modulus. lia. }
  assert (size (cells s1) = S (size (cells s))) as Hsize1.
  { rewrite Hcells1. by rewrite map_size_insert_None. }
  destruct (hand_splits s1) as (pre & suf & Hq & Hh); [apply Hs1|].
  destruct (first_unvisited (cells s1) (suf ++ pre))
    as (vis & n & victim & cell & rest & Horder & Hvis & Hcell & Hcv).
  { intros m k Hin. destruct Hs1 as [_ Hqc _ _].
    destruct (Hqc m k) as (c & Hc & _); [|eauto].
    rewrite Hq. apply elem_of_app. apply elem_of_app in Hin. tauto. }
  { exists (next_node s), key, new. split; [|split; [|done]].
    - assert ((next_node s, key) ∈ queue s1) as Hin.
      { rewrite Hqueue1. apply elem_of_app. right. left. }
      rewrite Hq in Hin. apply elem_of_app. apply elem_of_app in Hin. tauto.
    - rewrite Hcells1. by rewrite lookup_insert_eq. }
  pose proof (cell_size_le_total _ Hw s1 victim cell Hsz1 Hcell) as Hcs.
  unfold exact in Hex1. rewrite <- Hex1, Hcur1 in Hcs.
  assert (wrap (current_size_in_bytes s1 - Cell.size cell)
          = current_size_in_bytes s + w - Cell.size cell) as Hafter.
  { rewrite Hcur1. apply wrap_small. unfold is_size_t, size_t_modulus. lia. }
  destruct (removeOverflow_victim pre suf vis n victim rest cell s1)
    as (nx & _ & Hro); try done.
  { apply overflow_true_count; unfold count; rewrite ?Hsize1, ?Hmc1; [done|lia..]. }
  { unfold sizeInBytes. rewrite Hafter.
    apply overflow_false; unfold count; rewrite ?Hsize1;
      cbn [set_current_size current_size_in_bytes max_size_in_bytes max_count];
      rewrite ?Hmc1, ?Hms1; lia. }
  { unfold sizeInBytes. rewrite Hafter. lia. }
  rewrite Hro. eexists. exists victim. split; [done|]. simpl.
  assert (∀ k, Cell.value <$> demote vis.*2 (cells s1) !! k
               = Cell.value <$> cells s1 !! k) as Hvalues.
  { intros k. by rewrite <- !lookup_fmap, demote_values. }
  assert (size (demote vis.*2 (cells s1)) = size (cells s1)) as Hsame.
  { by rewrite <- (map_size_fmap Cell.value), demote_values, map_size_fmap. }
  split.
  { rewrite map_size_delete_Some, Hsame, Hsize1; [lia|].
    specialize (Hvalues victim). rewrite Hcell in Hvalues.
    by destruct (demote vis.*2 (cells s1) !! victim). }
  split.
  { destruct (decide (victim = key)) as [->|Hne]; [by left|right].
    exists cell. split; [|done]. rewrite Hcells1 in Hcell.
    by rewrite lookup_insert_ne in Hcell. }
  split.
  { rewrite getWithKey_lookup. cbn [cells]. by rewrite lookup_delete_eq. }
  split.
  { intros Hne. rewrite getWithKey_lookup. cbn [cells].
    rewrite lookup_delete_ne by done.
    specialize (Hvalues key). rewrite Hcells1, lookup_insert_eq in Hvalues.
    rewrite <- Hcells1 in Hvalues.
    destruct (demote vis.*2 (cells s1) !! key) as [c'|]; [|done].
    simpl in *. by injection Hvalues as ->. }
  intros k Hk Hkey. rewrite !getWithKey_lookup. cbn [cells].
  rewrite lookup_delete_ne by done.
  specialize (Hvalues k). rewrite Hcells1, lookup_insert_ne in Hvalues by done.
  rewrite <- Hcells1 in Hvalues.
  destruct (demote vis.*2 (cells s1) !! k) as [c'|], (cells s !! k) as [c|];
    simpl in *; try done.
  by injection Hvalues as ->.
Qed.

(** X20.  The second chance.  On a healthy cache at its count limit whose
    byte limit has room for the new value, a [set] of a new key evicts
    exactly one entry, and never one whose [visited] bit was set: the victim
    is the new entry itself or an entry whose bit was clear.  Every other
    entry is found with its value after the call, so an entry that was read
    since the scan last passed it survives the insertion. *)
Theorem read_entries_survive_an_insertion key mapped s :
  weights_bounded weight_function →
  healthy weight_function s →
  cells s !! key = None →
  max_count s ≠ 0 → count s = max_count s →
  sizeInBytes s + weight_of weight_function mapped <= maxSizeInBytes s →
  ∃ s' victim,
    set weight_function true key mapped s = Returns s'
    ∧ count s' = count s
    ∧ (victim = key ∨ ∃ c, cells s !! victim = Some c ∧ Cell.visited c = false)
    ∧ (getWithKey victim s').1 = None
    ∧ (victim ≠ key → (getWithKey key s').1 = Some (key, mapped))
    ∧ (∀ k, k ≠ victim → k ≠ key → (getWithKey k s').1 = (getWithKey k s).1).
Proof. apply insertion_evicts_one_unvisited. Qed.

Lemma get_healthy k s :
  weights_bounded weight_function →
  healthy weight_function s → healthy weight_function (get k s).2.
Proof.
  intros Hw (Hs & Hal & Hex & Hmax).
  destruct (get_consistent k s Hs Hal) as [Hs' Hal'].
  split; [done|]. split; [done|]. split; [by apply get_exact|].
  by destruct (get_frame k s) as (-> & _).
Qed.

(** X21.  An entry that has just been read survives the next insertion:
    on a healthy cache at its count limit whose byte limit has room for the
    new value, after [get(k)] hits, a [set] of a new key returns and
    [get(k)] still finds the value; [count()] is unchanged. *)
Theorem an_entry_just_read_survives_the_next_insertion k key mapped s c :
  weights_bounded weight_function →
  healthy weight_function s →
  cells s !! k = Some c →
  cells s !! key = None →
  max_count s ≠ 0 → count s = max_count s →
  sizeInBytes s + weight_of weight_function mapped <= maxSizeInBytes s →
  ∃ s',
    set weight_function true key mapped (get k s).2 = Returns s'
    ∧ (getWithKey k s').1 = Some (k, Cell.value c)
    ∧ (get k s').1 = Cell.value c
    ∧ count s' = count s.
Proof.
  intros Hw Hs Hk Hnone Hmc Hfull Hfit.
  assert (k ≠ key) as Hne by congruence.
  assert (cells (get k s).2 = <[k := Cell.set_visited true c]> (cells s)) as Hcells.
  { unfold get. by rewrite Hk. }
  assert (count (get k s).2 = count s) as Hcount.
  { unfold count. rewrite Hcells. by rewrite map_size_insert_Some by eauto. }
  assert (sizeInBytes (get k s).2 = sizeInBytes s) as Hsize.
  { unfold get, sizeInBytes. by rewrite Hk. }
  destruct (get_frame k s) as (Hms & Hmc' & _).
  destruct (insertion_evicts_one_unvisited key mapped (get k s).2)
    as (s' & victim & Hset & Hcount' & Hvictim & _ & _ & Hrest).
  { done. }
  { by apply get_healthy. }
  { rewrite Hcells. by rewrite lookup_insert_ne. }
  { by rewrite Hmc'. }
  { by rewrite Hcount, Hmc'. }
  { unfold maxSizeInBytes. rewrite Hsize, Hms. exact Hfit. }
  exists s'. split; [done|].
  assert (victim ≠ k) as Hvk.
  { intros ->. destruct Hvictim as [->|(c' & Hc' & Hv')]; [done|].
    rewrite Hcells, lookup_insert_eq in Hc'. by injection Hc' as <-. }
  assert ((getWithKey k s').1 = Some (k, Cell.value c)) as Hfound.
  { rewrite (Hrest k) by done. rewrite getWithKey_lookup, Hcells.
    by rewrite lookup_insert_eq. }
  split; [done|]. split; [|by rewrite Hcount'].
  revert Hfound. unfold getWithKey, get.
  destruct (cells s' !! k); simpl; [|done]. by intros [= ->].
Qed.

End SecondChance.

(** ** Limits of zero *)

Section ZeroLimits.
Context {Key : Type} `{Countable Key} {Mapped : Type}.
Variable weight_function : Mapped → Z.
Implicit Types (s : SIEVECachePolicy Key Mapped).

(** X22.  [setMaxCount(0)] lifts the count limit: on an object that is
    within its byte limit it evicts nothing, however many entries there
    are; it stores the limit 0 and passes 0 to the callback. *)
Theorem setMaxCount_zero_lifts_the_limit s :
  sizeInBytes s <= maxSizeInBytes s →
  sizeInBytes s <= 2 ^ 63 →
  setMaxCount 0 s
  = Returns (mkPolicy (queue s) (hand s) (cells s) (current_size_in_bytes s)
               (max_size_in_bytes s) 0 (next_node s)
               (on_weight_loss_calls s ++ [0])).
Proof.
  unfold sizeInBytes, maxSizeInBytes, setMaxCount. intros Hfit Hchk.
  rewrite removeOverflow_no_overflow; [done| |done].
  apply overflow_false; simpl; [done|by left].
Qed.


End ZeroLimits.

(** ** Runs on concrete objects *)

Lemma run_calls_reachable {Key : Type} `{Countable Key} {Mapped : Type}
    (weight_function : Mapped → Z) (cs : list (call Key Mapped))
    (s s' : SIEVECachePolicy Key Mapped) :
  reachable weight_function s →
  Forall call_well_typed cs →
  run_calls weight_function cs s = Returns s' →
  reachable weight_function s'.
Proof.
  intros Hs Hcs. revert s Hs.
  induction Hcs as [|c cs Hc _ IH]; intros s Hs; simpl.
  - by intros [= <-].
  - destruct (run_call weight_function c s) as [s1| | | |] eqn:Hrun; try discriminate.
    cbn. apply IH. by eapply reachable_returns.
Qed.

Lemma is_size_t_check z : (0 <=? z) && (z <? 2 ^ 64) = true → is_size_t z.
Proof.
  intros [? ?]%andb_true_iff. unfold is_size_t, size_t_modulus. lia.
Qed.

(** C1, counterexample.  Values weighing 5 and 2^64 - 3 bytes are both
    admitted into a cache limited to 10 bytes, because their total wraps
    around to 2; removing the first then leaves
    [sizeInBytes() = 2^64 - 3 > 10 = maxSizeInBytes()]. *)
Lemma capacity_fails_when_total_wraps :
  ∃ s,
    run_calls stored_weight
      [CallSet true 1%nat (Some 5); CallSet true 2%nat (Some (2 ^ 64 - 3));
       CallRemove 1%nat]
      (init 10 0) = Returns s
    ∧ reachable stored_weight s
    ∧ sizeInBytes s = 2 ^ 64 - 3
    ∧ maxSizeInBytes s = 10
    ∧ ¬ (sizeInBytes s <= maxSizeInBytes s).
Proof.
  eexists. split; [vm_compute; reflexivity|]. split.
  - eapply (run_calls_reachable stored_weight
              [CallSet true 1%nat (Some 5); CallSet true 2%nat (Some (2 ^ 64 - 3));
               CallRemove 1%nat] (init 10 0)).
    + apply reachable_init; by apply is_size_t_check.
    + repeat constructor.
    + vm_compute; reflexivity.
  - split; [by vm_compute|]. split; [by vm_compute|].
    vm_compute. intros Hle. by apply Hle.
Qed.

(** C6, counterexample.  After the two insertions above the cache holds
    values weighing 5 and 2^64 - 3 bytes, 2^64 + 2 in all, and
    [sizeInBytes()] is 2. *)
Lemma sizeInBytes_differs_when_total_wraps :
  ∃ s,
    run_calls stored_weight
      [CallSet true 1%nat (Some 5); CallSet true 2%nat (Some (2 ^ 64 - 3))]
      (init 10 0) = Returns s
    ∧ reachable stored_weight s
    ∧ sizeInBytes s = 2
    ∧ dump_weight stored_weight (dump s) = 2 ^ 64 + 2
    ∧ sizeInBytes s ≠ dump_weight stored_weight (dump s).
Proof.
  eexists. split; [vm_compute; reflexivity|]. split.
  - eapply (run_calls_reachable stored_weight
              [CallSet true 1%nat (Some 5); CallSet true 2%nat (Some (2 ^ 64 - 3))]
              (init 10 0)).
    + apply reachable_init; by apply is_size_t_check.
    + repeat constructor.
    + vm_compute; reflexivity.
  - split; [by vm_compute|]. split; [by vm_compute|]. by vm_compute.
Qed.

(** C7, counterexample.  On that cache [setMaxSizeInBytes(0)] evicts both
    entries, 2^64 + 2 bytes in all, and the callback is invoked with 2. *)
Lemma weight_loss_argument_wraps :
  ∃ s s1 s',
    run_calls stored_weight
      [CallSet true 1%nat (Some 5); CallSet true 2%nat (Some (2 ^ 64 - 3))]
      (init 10 0) = Returns s
    ∧ reachable stored_weight s
    ∧ before_scan stored_weight (CallSetMaxSizeInBytes 0) s = Returns s1
    ∧ run_call stored_weight (CallSetMaxSizeInBytes 0) s = Returns s'
    ∧ count s' = 0
    ∧ on_weight_loss_calls s' = on_weight_loss_calls s ++ [2]
    ∧ total_size (evicted (cells s1) (cells s')) = 2 ^ 64 + 2.
Proof.
  eexists. eexists. eexists. split; [vm_compute; reflexivity|]. split.
  - eapply (run_calls_reachable stored_weight
              [CallSet true 1%nat (Some 5); CallSet true 2%nat (Some (2 ^ 64 - 3))]
              (init 10 0)).
    + apply reachable_init; by apply is_size_t_check.
    + repeat constructor.
    + vm_compute; reflexivity.
  - split; [vm_compute; reflexivity|]. split; [vm_compute; reflexivity|].
    split; [by vm_compute|]. split; [by vm_compute|]. by vm_compute.
Qed.

(** C4, counterexample.  A [set] that freshly inserts a key leaves its
    entry unvisited: the entry survives (nothing is evicted) and its
    [visited] flag is false when [set] returns. *)
Lemma fresh_insert_is_unvisited :
  ∃ s cell,
    set (EqualWeightFunction (Mapped:=Z)) true 1%nat (Some 7) (init 100 0) = Returns s
    ∧ cells s !! 1%nat = Some cell
    ∧ Cell.visited cell = false.
Proof.
  eexists. eexists. split; [vm_compute; reflexivity|].
  split; [vm_compute; reflexivity|]. reflexivity.
Qed.

(** An overwriting [set] whose scan passes over the overwritten entry also
    returns with the entry unvisited: with a limit of 10 bytes, keys 1 and 2
    hold 3 bytes each, key 1 is overwritten with 8 bytes; the scan demotes
    key 1, evicts key 2, and key 1 survives with [visited] false. *)
Lemma overwrite_can_end_unvisited :
  ∃ s cell,
    run_calls stored_weight
      [CallSet true 1%nat (Some 3); CallSet true 2%nat (Some 3);
       CallSet true 1%nat (Some 8)]
      (init 10 0) = Returns s
    ∧ cells s !! 1%nat = Some cell
    ∧ Cell.value cell = Some 8
    ∧ Cell.visited cell = false
    ∧ cells s !! 2%nat = None.
Proof.
  eexists. eexists. split; [vm_compute; reflexivity|].
  split; [vm_compute; reflexivity|]. by vm_compute.
Qed.

(** C5, the failing run.  With [max_count = 1], [set(1); set(2)] evicts key
    1 and leaves the cursor on the node of key 2, the only entry; the object
    satisfies the data-model invariants.  [remove(2)] then assigns
    [queue.begin()], which is that same node, to the cursor and erases the
    node: the queue is empty and the cursor is not the sentinel but an
    iterator to the erased node. *)
Theorem remove_leaves_hand_dangling :
  ∃ s s',
    run_calls (EqualWeightFunction (Mapped:=Z))
      [CallSet true 1%nat (Some 7); CallSet true 2%nat (Some 7)] (init 100 1)
    = Returns s
    ∧ consistent s
    ∧ hand s = It 1
    ∧ Cell.queue_iterator <$> cells s !! 2%nat = Some (It 1)
    ∧ remove 2%nat s = Returns s'
    ∧ queue s' = []
    ∧ hand s' = It 1
    ∧ ¬ hand_valid s'.
Proof.
  exists (mkPolicy [(1%nat, 2%nat)] (It 1)
            {[2%nat := Cell.mk (Some 7) 1 false (It 1)]} 1 100 1 2%nat [0; 1]).
  eexists. split; [vm_compute; reflexivity|]. split.
  - constructor; cbn.
    + apply NoDup_singleton.
    + intros n k [= -> ->]%list_elem_of_singleton.
      eexists. split; [apply lookup_singleton_eq|done].
    + intros k c [<- <-]%lookup_singleton_Some.
      eexists. split; [done|]. by apply list_elem_of_singleton.
    + reflexivity.
  - split; [reflexivity|]. split; [by vm_compute|].
    split; [vm_compute; reflexivity|]. split; [reflexivity|].
    split; [reflexivity|]. by vm_compute.
Qed.

(** The same defect when the removed entry is not the last of the queue:
    with [max_count = 2], [set(1); set(2); set(3)] evicts key 1 and leaves the
    cursor on the node of key 2.  [remove(2)] increments the iterator kept in
    the cell itself, so it is the node of key 3 that is erased from the
    queue: key 2 stays in the queue though it left the map, key 3 stays in
    the map though it left the queue, and the cursor refers to the erased
    node. *)
Lemma remove_erases_the_next_node :
  ∃ s s',
    run_calls (EqualWeightFunction (Mapped:=Z))
      [CallSet true 1%nat (Some 7); CallSet true 2%nat (Some 7);
       CallSet true 3%nat (Some 7)] (init 100 2)
    = Returns s
    ∧ consistent s
    ∧ queue s = [(1%nat, 2%nat); (2%nat, 3%nat)]
    ∧ hand s = It 1
    ∧ remove 2%nat s = Returns s'
    ∧ queue s' = [(1%nat, 2%nat)]
    ∧ cells s' !! 2%nat = None
    ∧ Cell.queue_iterator <$> cells s' !! 3%nat = Some (It 2)
    ∧ hand s' = It 2
    ∧ ¬ hand_valid s'.
Proof.
  exists (mkPolicy [(1%nat, 2%nat); (2%nat, 3%nat)] (It 1)
            (<[2%nat := Cell.mk (Some 7) 1 false (It 1)]>
               {[3%nat := Cell.mk (Some 7) 1 false (It 2)]}) 2 100 2 3%nat [0; 0; 1]).
  eexists. split; [vm_compute; reflexivity|]. split.
  - constructor; cbn.
    + apply (NoDup_cons_2 1%nat [2%nat]); [|apply NoDup_singleton].
      intros [=]%list_elem_of_singleton.
    + intros n k [[= -> ->]|[= -> ->]%list_elem_of_singleton]%elem_of_cons.
      * eexists. split; [apply lookup_insert_eq|done].
      * eexists. split; [by rewrite lookup_insert_ne, lookup_singleton_eq|done].
    + intros k c [[<- <-]|[_ [<- <-]%lookup_singleton_Some]]%lookup_insert_Some.
      * eexists. split; [done|]. apply elem_of_cons. by left.
      * eexists. split; [done|]. apply elem_of_cons. right.
        by apply list_elem_of_singleton.
    + reflexivity.
  - split; [reflexivity|]. split; [reflexivity|].
    split; [vm_compute; reflexivity|]. split; [reflexivity|].
    split; [by vm_compute|]. split; [by vm_compute|].
    split; [reflexivity|]. by vm_compute.
Qed.

(** ** The theorems at concrete objects *)

Lemma EqualWeightFunction_bounded {Mapped : Type} :
  weights_bounded (EqualWeightFunction (Mapped:=Mapped)).
Proof. intros v. unfold EqualWeightFunction. lia. Qed.

Lemma two_slots_full_reachable : reachable EqualWeightFunction two_slots_full.
Proof.
  eapply (run_calls_reachable EqualWeightFunction
            [CallSet true 1%nat (Some 7); CallSet true 2%nat (Some 7); CallGet 1%nat]
            (init 100 2)).
  - apply reachable_init; by apply is_size_t_check.
  - repeat constructor.
  - vm_compute; reflexivity.
Defined.

Lemma two_slots_after_reachable : reachable EqualWeightFunction two_slots_after.
Proof.
  apply (reachable_returns EqualWeightFunction (CallSet true 3%nat (Some 9))
           two_slots_full two_slots_after).
  - exact two_slots_full_reachable.
  - exact I.
  - vm_compute; reflexivity.
Defined.

Lemma holds_null_reachable : reachable EqualWeightFunction holds_null.
Proof.
  apply (reachable_returns EqualWeightFunction (CallSet true 1%nat None)
           (init 100 0) holds_null).
  - apply reachable_init; by apply is_size_t_check.
  - exact I.
  - vm_compute; reflexivity.
Defined.

Lemma capacity_invariant_witness :
  count two_slots_after = 2
  ∧ sizeInBytes two_slots_after <= maxSizeInBytes two_slots_after
  ∧ (0 < max_count two_slots_after →
     count two_slots_after <= max_count two_slots_after).
Proof.
  split; [reflexivity|].
  apply (capacity_invariant EqualWeightFunction two_slots_after).
  - exact EqualWeightFunction_bounded.
  - exact two_slots_after_reachable.
Defined.

Lemma scenario_demote_then_evict_witness :
  ∃ s3 s,
    run_calls EqualWeightFunction
      [CallSet true 1%nat (Some 7); CallSet true 2%nat (Some 8); CallGet 1%nat]
      (init 100 2) = Returns s3
    ∧ Cell.visited <$> cells s3 !! 1%nat = Some true
    ∧ Cell.visited <$> cells s3 !! 2%nat = Some false
    ∧ set EqualWeightFunction true 3%nat (Some 9) s3 = Returns s
    ∧ cells s = <[1%nat := Cell.mk (Some 7) 1 false (It 0)]>
                  {[3%nat := Cell.mk (Some 9) 1 false (It 2)]}
    ∧ dump s ≡ₚ [(1%nat, Some 7); (3%nat, Some 9)]
    ∧ queue s = [(0%nat, 1%nat); (2%nat, 3%nat)]
    ∧ hand s = It 2
    ∧ on_weight_loss_calls s = [0; 0; 1].
Proof.
  apply (scenario_demote_then_evict EqualWeightFunction 1%nat 2%nat 3%nat
           (Some 7) (Some 8) (Some 9) 100); simpl; unfold EqualWeightFunction; lia.
Defined.

Lemma zero_capacity_accepts_null_value_witness :
  ∃ s,
    set (EqualWeightFunction (Mapped:=Z)) true 1%nat None (init 0 0) = Returns s
    ∧ maxSizeInBytes s = 0
    ∧ count s = 1
    ∧ dump s = [(1%nat, None)].
Proof.
  apply (zero_capacity_accepts_null_value EqualWeightFunction 1%nat 0). lia.
Defined.

Lemma sizeInBytes_is_dump_weight_witness :
  sizeInBytes two_slots_after = 2
  ∧ sizeInBytes two_slots_after
    = wrap (dump_weight EqualWeightFunction (dump two_slots_after))
  ∧ (∀ k c, cells two_slots_after !! k = Some c →
       Cell.size c = weight_of EqualWeightFunction (Cell.value c))
  ∧ (weights_bounded (EqualWeightFunction (Mapped:=Z)) →
       sizeInBytes two_slots_after
       = dump_weight EqualWeightFunction (dump two_slots_after)).
Proof.
  split; [reflexivity|].
  apply (sizeInBytes_is_dump_weight EqualWeightFunction two_slots_after).
  exact two_slots_after_reachable.
Defined.

Lemma weight_loss_callback_once_witness :
  on_weight_loss_calls two_slots_after = [0; 0; 1]
  ∧ ∃ s1,
      before_scan EqualWeightFunction (CallSet true 3%nat (Some 9)) two_slots_full
      = Returns s1
      ∧ removeOverflow s1 = Returns two_slots_after
      ∧ kept (cells s1) (cells two_slots_after)
      ∧ on_weight_loss_calls two_slots_after
        = on_weight_loss_calls two_slots_full
          ++ [wrap (total_size (evicted (cells s1) (cells two_slots_after)))]
      ∧ (evicted (cells s1) (cells two_slots_after) = ∅ →
         on_weight_loss_calls two_slots_after
         = on_weight_loss_calls two_slots_full ++ [0])
      ∧ (weights_bounded (EqualWeightFunction (Mapped:=Z)) →
         reachable EqualWeightFunction two_slots_full →
         on_weight_loss_calls two_slots_after
         = on_weight_loss_calls two_slots_full
           ++ [total_size (evicted (cells s1) (cells two_slots_after))]).
Proof.
  split; [reflexivity|].
  apply (weight_loss_callback_once EqualWeightFunction
           (CallSet true 3%nat (Some 9)) two_slots_full two_slots_after).
  - exact I.
  - vm_compute; reflexivity.
Defined.

Lemma set_rolls_back_on_throw_witness :
  set EqualWeightFunction false 3%nat (Some 9) two_slots_full = Throws two_slots_full.
Proof.
  apply (set_rolls_back_on_throw EqualWeightFunction 3%nat (Some 9) two_slots_full).
  vm_compute; reflexivity.
Defined.

Lemma visited_after_get_and_set_witness :
  (∃ cell', cells (get 2%nat two_slots_full).2 !! 2%nat = Some cell'
            ∧ cells (getWithKey 2%nat two_slots_full).2 !! 2%nat = Some cell'
            ∧ Cell.visited cell' = true)
  ∧ Cell.visited (Cell.mk (Mapped:=Z) (Some 9) 1 false (It 2)) = false.
Proof.
  split.
  - apply (proj1 (visited_after_get_and_set EqualWeightFunction 2%nat)
             two_slots_full (Cell.mk (Some 7) 1 false (It 1))).
    vm_compute; reflexivity.
  - apply (proj1 (proj2 (visited_after_get_and_set EqualWeightFunction 3%nat))
             true (Some 9) two_slots_full two_slots_after
             (Cell.mk (Some 9) 1 false (It 2))).
    + vm_compute; reflexivity.
    + vm_compute; reflexivity.
    + vm_compute; reflexivity.
Defined.

Lemma null_value_hit_looks_like_miss_witness :
  (get 1%nat holds_null).1 = (get 2%nat holds_null).1
  ∧ (getWithKey 1%nat holds_null).1 = Some (1%nat, None)
  ∧ (getWithKey 2%nat holds_null).1 = None
  ∧ Cell.size (Cell.mk (Mapped:=Z) None 0 false (It 0)) = 0.
Proof.
  apply (null_value_hit_looks_like_miss EqualWeightFunction holds_null 1%nat
           (Cell.mk None 0 false (It 0)) 2%nat).
  - exact holds_null_reachable.
  - vm_compute; reflexivity.
  - reflexivity.
  - vm_compute; reflexivity.
Defined.

(** ** The further properties at concrete objects *)


Lemma run_calls_returns_consistent {Key : Type} `{Countable Key} {Mapped : Type}
    (weight_function : Mapped → Z) (calls : list (call Key Mapped))
    (s s' : SIEVECachePolicy Key Mapped) :
  consistent s → nodes_allocated s →
  cursor_elsewhere_all weight_function calls s →
  run_calls weight_function calls s = Returns s' →
  consistent s' ∧ nodes_allocated s'.
Proof.
  intros Hs Hal Hcalls Hrun.
  pose proof (run_calls_safe weight_function calls s Hs Hal Hcalls) as Hsafe.
  by rewrite Hrun in Hsafe.
Defined.

Lemma two_slots_full_calls :
  cursor_elsewhere_all (EqualWeightFunction (Mapped:=Z))
    [CallSet true 1%nat (Some 7); CallSet true 2%nat (Some 7); CallGet 1%nat]
    (init 100 2).
Proof. simpl. repeat (split; [exact I|intros ? _]). exact I. Defined.

Lemma two_slots_full_consistent :
  consistent two_slots_full ∧ nodes_allocated two_slots_full.
Proof.
  apply (run_calls_returns_consistent EqualWeightFunction
           [CallSet true 1%nat (Some 7); CallSet true 2%nat (Some 7); CallGet 1%nat]
           (init 100 2)).
  - apply init_consistent.
  - apply init_consistent.
  - exact two_slots_full_calls.
  - vm_compute; reflexivity.
Defined.

Lemma two_slots_after_consistent :
  consistent two_slots_after ∧ nodes_allocated two_slots_after.
Proof.
  apply (run_calls_returns_consistent EqualWeightFunction
           [CallSet true 3%nat (Some 9)] two_slots_full).
  - apply two_slots_full_consistent.
  - apply two_slots_full_consistent.
  - simpl. split; [exact I|intros ? _; exact I].
  - vm_compute; reflexivity.
Defined.

Lemma two_slots_overfull_consistent : consistent two_slots_overfull.
Proof.
  apply (set_store_consistent EqualWeightFunction true 3%nat (Some 9)
           two_slots_full two_slots_overfull).
  - apply two_slots_full_consistent.
  - apply two_slots_full_consistent.
  - vm_compute; reflexivity.
Defined.

Lemma two_slots_read_consistent :
  consistent two_slots_read ∧ nodes_allocated two_slots_read.
Proof.
  apply (run_calls_returns_consistent EqualWeightFunction
           [CallSet true 1%nat (Some 7); CallSet true 2%nat (Some 7);
            CallGet 1%nat; CallGet 2%nat]
           (init 100 2)).
  - apply init_consistent.
  - apply init_consistent.
  - simpl. repeat (split; [exact I|intros ? _]). exact I.
  - vm_compute; reflexivity.
Defined.

(** Consistency does not depend on the limits. *)
Lemma consistent_limits {Key : Type} `{Countable Key} {Mapped : Type}
    (s : SIEVECachePolicy Key Mapped) (max_size_in_bytes_ max_count_ : Z) :
  consistent s →
  consistent (mkPolicy (queue s) (hand s) (cells s) (current_size_in_bytes s)
                max_size_in_bytes_ max_count_ (next_node s) (on_weight_loss_calls s)).
Proof. intros [Hnodes Hqc Hcq Hvalid]. by constructor. Defined.

Lemma two_slots_read_shrinking_consistent : consistent two_slots_read_shrinking.
Proof.
  unfold two_slots_read_shrinking. apply consistent_limits.
  apply two_slots_read_consistent.
Defined.

Lemma two_slots_full_healthy : healthy EqualWeightFunction two_slots_full.
Proof.
  split; [apply two_slots_full_consistent|].
  split; [apply two_slots_full_consistent|].
  split.
  - apply reachable_exact; [exact EqualWeightFunction_bounded|].
    exact two_slots_full_reachable.
  - by vm_compute.
Defined.

Lemma two_slots_after_healthy : healthy EqualWeightFunction two_slots_after.
Proof.
  split; [apply two_slots_after_consistent|].
  split; [apply two_slots_after_consistent|].
  split.
  - apply reachable_exact; [exact EqualWeightFunction_bounded|].
    exact two_slots_after_reachable.
  - by vm_compute.
Defined.

Lemma capped_weight_bounded : weights_bounded capped_weight.
Proof. intros v. unfold capped_weight. lia. Defined.

Lemma scan_iterations_bounded_witness :
  (scan_bound (cells two_slots_overfull) <= 10)%nat
  ∧ removeOverflow_loop 10 two_slots_overfull 0
      (Z.of_nat (size (cells two_slots_overfull))) ≠ OutOfFuel
  ∧ removeOverflow_loop 10 two_slots_overfull 0
      (Z.of_nat (size (cells two_slots_overfull)))
    = removeOverflow_loop (scan_bound (cells two_slots_overfull)) two_slots_overfull 0
        (Z.of_nat (size (cells two_slots_overfull))).
Proof.
  assert ((scan_bound (cells two_slots_overfull) <= 10)%nat) as Hle
    by (vm_compute; lia).
  split; [exact Hle|].
  exact (scan_iterations_bounded 10 two_slots_overfull 0 Hle).
Defined.


Lemma healthy_calls_return_witness :
  set EqualWeightFunction true 3%nat (Some 9) two_slots_full = Returns two_slots_after
  ∧ ((∃ s', run_call EqualWeightFunction (CallSet true 3%nat (Some 9)) two_slots_full
            = Returns s'
            ∧ healthy EqualWeightFunction s')
     ∨ (run_call EqualWeightFunction (CallSet true 3%nat (Some 9)) two_slots_full
        = Throws two_slots_full
        ∧ ∃ key mapped, CallSet true 3%nat (Some 9) = CallSet false key mapped
                        ∧ cells two_slots_full !! key = None)).
Proof.
  split; [vm_compute; reflexivity|].
  apply (healthy_calls_return EqualWeightFunction (CallSet true 3%nat (Some 9))
           two_slots_full).
  - exact EqualWeightFunction_bounded.
  - exact two_slots_full_healthy.
  - exact I.
  - exact I.
  - exact I.
Defined.

Lemma remove_away_from_the_cursor_witness :
  ∃ s',
    remove 1%nat two_slots_after = Returns s'
    ∧ consistent s' ∧ nodes_allocated s'
    ∧ cells s' = delete 1%nat (cells two_slots_after)
    ∧ queue s' = filter (λ nk, nk.2 ≠ 1%nat) (queue two_slots_after)
    ∧ hand s' = hand two_slots_after
    ∧ count s' = count two_slots_after - 1
    ∧ sizeInBytes s'
      = wrap (sizeInBytes two_slots_after
              - Cell.size (Cell.mk (Mapped:=Z) (Some 7) 1 false (It 0)))
    ∧ (get 1%nat s').1 = None.
Proof.
  apply (remove_away_from_the_cursor 1%nat two_slots_after
           (Cell.mk (Some 7) 1 false (It 0))).
  - apply two_slots_after_consistent.
  - apply two_slots_after_consistent.
  - vm_compute; reflexivity.
  - by vm_compute.
Defined.

Lemma remove_last_entry_under_the_cursor_witness :
  ∃ s',
    remove 3%nat two_slots_after = Returns s'
    ∧ consistent s' ∧ nodes_allocated s'
    ∧ queue s' = [(0%nat, 1%nat)]
    ∧ hand s' = list_begin [(0%nat, 1%nat)]
    ∧ cells s' = delete 3%nat (cells two_slots_after).
Proof.
  apply (remove_last_entry_under_the_cursor 3%nat two_slots_after
           [(0%nat, 1%nat)] 2%nat).
  - apply two_slots_after_consistent.
  - apply two_slots_after_consistent.
  - vm_compute; reflexivity.
  - discriminate.
  - vm_compute; reflexivity.
Defined.

Lemma set_then_lookup_witness :
  (getWithKey 3%nat two_slots_after).1 = Some (3%nat, Some 9)
  ∧ (getWithKey 2%nat two_slots_after).1 = None
  ∧ ((getWithKey 3%nat two_slots_after).1 = Some (3%nat, Some 9)
     ∨ (getWithKey 3%nat two_slots_after).1 = None)
  ∧ (∀ k, k ≠ 3%nat →
       (getWithKey k two_slots_after).1 = (getWithKey k two_slots_full).1
       ∨ (getWithKey k two_slots_after).1 = None).
Proof.
  split; [vm_compute; reflexivity|]. split; [vm_compute; reflexivity|].
  apply (set_then_lookup EqualWeightFunction true 3%nat (Some 9)
           two_slots_full two_slots_after).
  vm_compute; reflexivity.
Defined.

Lemma set_within_limits_stores_witness :
  ∃ s',
    set capped_weight true 1%nat (Some 40) (init 100 2) = Returns s'
    ∧ (getWithKey 1%nat s').1 = Some (1%nat, Some 40)
    ∧ (∀ k, k ≠ 1%nat → cells s' !! k = cells (init (Mapped:=Z) 100 2) !! k)
    ∧ sizeInBytes s'
      = sizeInBytes (init (Key:=nat) (Mapped:=Z) 100 2)
        - stored_size 1%nat (init (Mapped:=Z) 100 2)
        + weight_of capped_weight (Some 40)
    ∧ count s'
      = count (init (Key:=nat) (Mapped:=Z) 100 2)
        + match cells (init (Mapped:=Z) 100 2) !! 1%nat with Some _ => 0 | None => 1 end
    ∧ queue s'
      = match cells (init (Mapped:=Z) 100 2) !! 1%nat with
        | Some _ => queue (init (Key:=nat) (Mapped:=Z) 100 2)
        | None => queue (init (Key:=nat) (Mapped:=Z) 100 2)
                  ++ [(next_node (init (Key:=nat) (Mapped:=Z) 100 2), 1%nat)]
        end
    ∧ hand s' = hand (init (Key:=nat) (Mapped:=Z) 100 2)
    ∧ on_weight_loss_calls s'
      = on_weight_loss_calls (init (Key:=nat) (Mapped:=Z) 100 2) ++ [0].
Proof.
  apply (set_within_limits_stores capped_weight true 1%nat (Some 40) (init 100 2)).
  - by left.
  - by vm_compute.
  - by vm_compute.
  - by vm_compute.
  - by vm_compute.
  - right. by vm_compute.
Defined.

Lemma scan_evicts_the_first_unvisited_entry_witness :
  ∃ nx,
    find_node (queue two_slots_overfull) 1%nat = Some (2%nat, nx)
    ∧ removeOverflow two_slots_overfull
      = Returns (mkPolicy (erase_node (queue two_slots_overfull) 1%nat) nx
                   (delete 2%nat (demote [(0%nat, 1%nat)].*2 (cells two_slots_overfull)))
                   (wrap (sizeInBytes two_slots_overfull
                          - Cell.size (Cell.mk (Mapped:=Z) (Some 7) 1 false (It 1))))
                   (max_size_in_bytes two_slots_overfull)
                   (max_count two_slots_overfull) (next_node two_slots_overfull)
                   (on_weight_loss_calls two_slots_overfull
                    ++ [wrap (Cell.size (Cell.mk (Mapped:=Z) (Some 7) 1 false (It 1)))])).
Proof.
  apply (scan_evicts_the_first_unvisited_entry
           [(0%nat, 1%nat); (1%nat, 2%nat); (2%nat, 3%nat)] []
           [(0%nat, 1%nat)] 1%nat 2%nat [(2%nat, 3%nat)]
           (Cell.mk (Some 7) 1 false (It 1)) two_slots_overfull).
  - exact two_slots_overfull_consistent.
  - vm_compute; reflexivity.
  - vm_compute; reflexivity.
  - reflexivity.
  - intros k Hk. simpl in Hk. apply list_elem_of_singleton in Hk as ->.
    eexists. split; [vm_compute; reflexivity|reflexivity].
  - vm_compute; reflexivity.
  - reflexivity.
  - vm_compute; reflexivity.
  - vm_compute; reflexivity.
  - by vm_compute.
Defined.

Lemma setMaxCount_leaves_exactly_witness :
  ∃ s',
    setMaxCount 1 two_slots_after = Returns s'
    ∧ count s' = 1
    ∧ sizeInBytes s' <= sizeInBytes two_slots_after
    ∧ healthy EqualWeightFunction s'.
Proof.
  apply (setMaxCount_leaves_exactly EqualWeightFunction 1 two_slots_after).
  - exact EqualWeightFunction_bounded.
  - exact two_slots_after_healthy.
  - by vm_compute.
Defined.

Lemma callback_reports_the_drop_of_sizeInBytes_witness :
  on_weight_loss_calls two_slots_after = [0; 0; 1]
  ∧ on_weight_loss_calls two_slots_after
    = on_weight_loss_calls two_slots_full
      ++ [wrap (sizeInBytes two_slots_full
                + stored_by EqualWeightFunction (CallSet true 3%nat (Some 9))
                    two_slots_full
                - sizeInBytes two_slots_after)]
  ∧ (weights_bounded (EqualWeightFunction (Mapped:=Z)) →
     reachable EqualWeightFunction two_slots_full →
     call_well_typed (CallSet true 3%nat (Some 9)) →
     on_weight_loss_calls two_slots_after
     = on_weight_loss_calls two_slots_full
       ++ [sizeInBytes two_slots_full
           + stored_by EqualWeightFunction (CallSet true 3%nat (Some 9))
               two_slots_full
           - sizeInBytes two_slots_after]).
Proof.
  split; [reflexivity|].
  apply (callback_reports_the_drop_of_sizeInBytes EqualWeightFunction
           (CallSet true 3%nat (Some 9)) two_slots_full two_slots_after).
  - exact I.
  - vm_compute; reflexivity.
Defined.

Lemma only_the_scan_calls_back_witness :
  sizeInBytes two_slots_after = 2
  ∧ sizeInBytes (clear two_slots_after) = 0
  ∧ on_weight_loss_calls (clear two_slots_after) = on_weight_loss_calls two_slots_after.
Proof.
  split; [reflexivity|]. split; [reflexivity|].
  apply (only_the_scan_calls_back EqualWeightFunction CallClear two_slots_after).
  - intros [].
  - reflexivity.
Defined.

Lemma limits_change_through_setters_only_witness :
  ∃ s',
    run_call EqualWeightFunction (CallSetMaxSizeInBytes 50) two_slots_after = Returns s'
    ∧ maxSizeInBytes two_slots_after = 100
    ∧ maxSizeInBytes s' = 50
    ∧ max_count s' = max_count two_slots_after.
Proof.
  eexists. split; [vm_compute; reflexivity|]. split; [reflexivity|].
  apply (limits_change_through_setters_only EqualWeightFunction
           (CallSetMaxSizeInBytes 50) two_slots_after).
  vm_compute; reflexivity.
Defined.

Lemma set_terminates_when_total_exceeds_2_63_witness :
  set stored_weight true 1%nat (Some (2 ^ 63 + 1)) (init (2 ^ 64 - 1) 0) = Terminates.
Proof.
  apply (set_terminates_when_total_exceeds_2_63 stored_weight 1%nat
           (Some (2 ^ 63 + 1)) (init (2 ^ 64 - 1) 0)).
  - reflexivity.
  - by vm_compute.
  - by vm_compute.
  - by vm_compute.
  - by vm_compute.
  - by left.
Defined.

Lemma value_heavier_than_the_limit_is_not_kept_witness :
  ∃ s',
    set capped_weight true 5%nat (Some 200) (init 100 2) = Returns s'
    ∧ on_weight_loss_calls s' = [200]
    ∧ (getWithKey 5%nat s').1 = None ∧ (get 5%nat s').1 = None.
Proof.
  eexists. split; [vm_compute; reflexivity|]. split; [vm_compute; reflexivity|].
  apply (value_heavier_than_the_limit_is_not_kept capped_weight true 5%nat 200
           (init 100 2)).
  - exact capped_weight_bounded.
  - apply reachable_init; by apply is_size_t_check.
  - by vm_compute.
  - vm_compute; reflexivity.
Defined.

Lemma clear_makes_the_object_usable_witness :
  ¬ hand_valid dangling
  ∧ match run_calls EqualWeightFunction [CallClear; CallSet true 3%nat (Some 9)] dangling with
    | Returns s' | Throws s' => consistent s' ∧ nodes_allocated s'
    | Terminates => True
    | Undefined | OutOfFuel => False
    end.
Proof.
  split; [by vm_compute|].
  apply (clear_makes_the_object_usable EqualWeightFunction
           [CallSet true 3%nat (Some 9)] dangling).
  split; [exact I|intros ? _; exact I].
Defined.

Lemma queue_holds_the_keys_of_the_map_witness :
  queue two_slots_full = [(0%nat, 1%nat); (1%nat, 2%nat)]
  ∧ NoDup (queue two_slots_full).*2
  ∧ (∀ k, k ∈ (queue two_slots_full).*2 ↔ (getWithKey k two_slots_full).1 ≠ None)
  ∧ Z.of_nat (length (queue two_slots_full)) = count two_slots_full.
Proof.
  split; [vm_compute; reflexivity|].
  apply (queue_holds_the_keys_of_the_map EqualWeightFunction
           [CallSet true 1%nat (Some 7); CallSet true 2%nat (Some 7); CallGet 1%nat]
           (init 100 2) two_slots_full).
  - apply init_consistent.
  - apply init_consistent.
  - exact two_slots_full_calls.
  - vm_compute; reflexivity.
Defined.

Lemma set_on_a_full_cache_may_evict_the_new_entry_witness :
  set EqualWeightFunction true 3%nat (Some 9) two_slots_read
  = Returns (mkPolicy (queue two_slots_read) End
               (demote [(0%nat, 1%nat); (1%nat, 2%nat)].*2 (cells two_slots_read))
               (sizeInBytes two_slots_read) (max_size_in_bytes two_slots_read)
               (max_count two_slots_read) (S (next_node two_slots_read))
               (on_weight_loss_calls two_slots_read
                ++ [weight_of EqualWeightFunction (Some 9)])).
Proof.
  apply (set_on_a_full_cache_may_evict_the_new_entry EqualWeightFunction 3%nat
           (Some 9) [(0%nat, 1%nat); (1%nat, 2%nat)] [] two_slots_read).
  - apply two_slots_read_consistent.
  - apply two_slots_read_consistent.
  - vm_compute; reflexivity.
  - vm_compute; reflexivity.
  - intros k Hk. simpl in Hk.
    apply elem_of_cons in Hk as [->|Hk];
      [|apply list_elem_of_singleton in Hk as ->];
      (eexists; split; [vm_compute; reflexivity|reflexivity]).
  - vm_compute; reflexivity.
  - by vm_compute.
  - vm_compute; reflexivity.
  - by vm_compute.
  - by vm_compute.
  - by vm_compute.
  - by vm_compute.
Defined.

Lemma read_entries_survive_an_insertion_witness :
  Cell.visited <$> cells two_slots_full !! 1%nat = Some true
  ∧ ∃ s' victim,
      set EqualWeightFunction true 3%nat (Some 9) two_slots_full = Returns s'
      ∧ count s' = count two_slots_full
      ∧ (victim = 3%nat
         ∨ ∃ c, cells two_slots_full !! victim = Some c ∧ Cell.visited c = false)
      ∧ (getWithKey victim s').1 = None
      ∧ (victim ≠ 3%nat → (getWithKey 3%nat s').1 = Some (3%nat, Some 9))
      ∧ (∀ k, k ≠ victim → k ≠ 3%nat →
           (getWithKey k s').1 = (getWithKey k two_slots_full).1).
Proof.
  split; [vm_compute; reflexivity|].
  apply (read_entries_survive_an_insertion EqualWeightFunction 3%nat (Some 9)
           two_slots_full).
  - exact EqualWeightFunction_bounded.
  - exact two_slots_full_healthy.
  - vm_compute; reflexivity.
  - by vm_compute.
  - vm_compute; reflexivity.
  - by vm_compute.
Defined.

Lemma an_entry_just_read_survives_the_next_insertion_witness :
  ∃ s',
    set EqualWeightFunction true 4%nat (Some 5) (get 3%nat two_slots_after).2 = Returns s'
    ∧ (getWithKey 3%nat s').1
      = Some (3%nat, Cell.value (Cell.mk (Mapped:=Z) (Some 9) 1 false (It 2)))
    ∧ (get 3%nat s').1 = Cell.value (Cell.mk (Mapped:=Z) (Some 9) 1 false (It 2))
    ∧ count s' = count two_slots_after.
Proof.
  apply (an_entry_just_read_survives_the_next_insertion EqualWeightFunction
           3%nat 4%nat (Some 5) two_slots_after (Cell.mk (Some 9) 1 false (It 2))).
  - exact EqualWeightFunction_bounded.
  - exact two_slots_after_healthy.
  - vm_compute; reflexivity.
  - vm_compute; reflexivity.
  - by vm_compute.
  - vm_compute; reflexivity.
  - by vm_compute.
Defined.

Lemma setMaxCount_zero_lifts_the_limit_witness :
  count two_slots_after = 2
  ∧ setMaxCount 0 two_slots_after
    = Returns (mkPolicy (queue two_slots_after) (hand two_slots_after)
                 (cells two_slots_after) (current_size_in_bytes two_slots_after)
                 (max_size_in_bytes two_slots_after) 0 (next_node two_slots_after)
                 (on_weight_loss_calls two_slots_after ++ [0])).
Proof.
  split; [reflexivity|].
  apply (setMaxCount_zero_lifts_the_limit two_slots_after); by vm_compute.
Defined.


Lemma scan_of_visited_entries_evicts_under_the_cursor_witness :
  count two_slots_read_shrinking = 2
  ∧ ∃ nx,
      find_node (queue two_slots_read_shrinking) 0%nat = Some (1%nat, nx)
      ∧ removeOverflow two_slots_read_shrinking
        = Returns (mkPolicy (erase_node (queue two_slots_read_shrinking) 0%nat) nx
                     (delete 1%nat
                        (demote [(1%nat, 2%nat)].*2 (cells two_slots_read_shrinking)))
                     (wrap (sizeInBytes two_slots_read_shrinking
                            - Cell.size (Cell.mk (Mapped:=Z) (Some 7) 1 true (It 0))))
                     (max_size_in_bytes two_slots_read_shrinking)
                     (max_count two_slots_read_shrinking)
                     (next_node two_slots_read_shrinking)
                     (on_weight_loss_calls two_slots_read_shrinking
                      ++ [wrap (Cell.size (Cell.mk (Mapped:=Z) (Some 7) 1 true (It 0)))])).
Proof.
  split; [vm_compute; reflexivity|].
  apply (scan_of_visited_entries_evicts_under_the_cursor
           [(0%nat, 1%nat); (1%nat, 2%nat)] [] 0%nat 1%nat [(1%nat, 2%nat)]
           (Cell.mk (Some 7) 1 true (It 0)) two_slots_read_shrinking).
  - exact two_slots_read_shrinking_consistent.
  - vm_compute; reflexivity.
  - vm_compute; reflexivity.
  - reflexivity.
  - intros k Hk. simpl in Hk.
    apply elem_of_cons in Hk as [->|Hk];
      [|apply list_elem_of_singleton in Hk as ->];
      (eexists; split; [vm_compute; reflexivity|reflexivity]).
  - vm_compute; reflexivity.
  - vm_compute; reflexivity.
  - vm_compute; reflexivity.
  - by vm_compute.
Defined.
